(** * A sequential model of the radial priority cache

    The development embeds the data plane of the cache: the [Node] record
    (include/node.hpp), the bounded heap [LockFreeHeap]
    (include/lockfree_heap.hpp), the bucket [MidpointNode]
    (include/midpoint.hpp), the sharded key index [LockFreeHashTable]
    (include/lockfree_map.hpp) and the facade [RadialCircularList]
    (src/radial_circular_list.cpp).

    Conventions.
    - A [Node*] is the index of the node in [node_pool] (every pool entry is
      a distinct allocation, so pointer identity is index identity); a
      nullable pointer is an [option].
    - [uint64_t]/[size_t] counters of the facade are integers in [Z] whose
      wrap-around at 2^64 is written with [wrap64].
    - Positions inside a heap vector are [nat]: they are bounded by the length
      of the vector, so the size_t arithmetic on them cannot wrap.
    - The clock is an oracle [clk : N -> Z]: [clk t] is what the [t]-th
      call of [high_resolution_clock::now()] returns, in nanoseconds.  A
      counter of the reads made so far is threaded through the operations.
    - The constructor of the cache allocates its nodes in one of two ways
      (with [numa_alloc_onnode] and a placement [new] when
      [numa_available() >= 0] on Linux, with [new] otherwise); the state
      records which one, because [delete] is defined only on the second.
      Allocations are taken to succeed, and [numa_available()] to give the
      same answer every time it is asked.
    - Atomic operations are executed one thread at a time in the sequential
      part; a weak compare-exchange that fails spuriously only repeats its
      loop, so it is modelled by its successful outcome.  [Module Race]
      models the interleaving of two threads inside [get_or_create]. *)

From Stdlib Require Import ZArith Lia Floats.
From stdpp Require Import base option list strings.

Open Scope Z_scope.

(** ** Machine integers *)

Definition wrap64 (x : Z) : Z := x mod 2 ^ 64.

(** ** Outcomes of a call *)

(** A call returns ([Ret]), has undefined behaviour ([UB]: a null or
    out-of-range dereference, a float-to-integer cast out of range, a
    [delete] of memory that [new] did not return), spins
    forever on a state that no longer changes ([Spin]), or exhausts the fuel
    of a loop of the model ([Fuel]; the loops are given enough fuel, which is
    proved below). *)
Inductive outcome (A : Type) : Type :=
| Ret (a : A)
| UB
| Spin
| Fuel.
Arguments Ret {A} a.
Arguments UB {A}.
Arguments Spin {A}.
Arguments Fuel {A}.

#[global] Instance outcome_ret : MRet outcome := fun A a => Ret a.
#[global] Instance outcome_bind : MBind outcome := fun A B f m =>
  match m with
  | Ret a => f a
  | UB => UB
  | Spin => Spin
  | Fuel => Fuel
  end.

(** ** include/node.hpp *)

Abbreviation slot := nat.

Record Node := mkNode {
  value : float;
  priority : Z;
  timestamp_ns : Z;
  expiry_time_ns : Z
}.

(** [static_cast<uint64_t>] of a double: truncation toward zero, defined only
    when the truncated value is representable. *)
Definition double_to_uint64 (x : float) : outcome Z :=
  match Prim2SF x with
  | S754_zero _ => Ret 0
  | S754_finite s m e =>
      let t := if 0 <=? e then Z.pos m * 2 ^ e else Z.pos m / 2 ^ (- e) in
      if s then (if t =? 0 then Ret 0 else UB)
      else if t <? 2 ^ 64 then Ret t else UB
  | _ => UB
  end.

(** [static_cast<uint64_t>(expiry * 1'000'000'000)] *)
Definition expiry_to_ns (expiry : float) : outcome Z :=
  double_to_uint64 (expiry * 1000000000)%float.

(** The [uint64_t] made of the [t]-th clock reading. *)
Definition now_ns (clk : N -> Z) (t : N) : Z := wrap64 (clk t).

(** [Node::is_expired], given the reading [now] of the clock it takes. *)
Definition is_expired (now : Z) (n : Node) : bool :=
  expiry_time_ns n <? wrap64 (now - timestamp_ns n).

(** [Node(0.0)]: the node the constructor of the cache puts in every slot;
    its expiry is [static_cast<uint64_t>(60.0 * 1e9)]. *)
Definition Node_default (now : Z) : Node := mkNode 0%float 0 now 60000000000.

(** ** include/lockfree_heap.hpp *)

Abbreviation cells := (list (option slot)).

Record LockFreeHeap := mkHeap {
  heap : cells;
  size_ : nat;
  capacity : nat
}.

(** [heap[i].node.load()] *)
Definition load (c : cells) (i : nat) : outcome (option slot) :=
  match c !! i with
  | Some x => Ret x
  | None => UB
  end.

(** [heap[i].node.store(x)] *)
Definition store (c : cells) (i : nat) (x : option slot) : outcome cells :=
  if decide (i < length c)%nat then Ret (<[i := x]> c) else UB.

(** [heap[i].node.compare_exchange_strong(expected, desired)] *)
Definition compare_exchange_strong (c : cells) (i : nat)
    (expected desired : option slot) : outcome (bool * cells) :=
  cur ← load c i;
  if decide (cur = expected) then Ret (true, <[i := desired]> c)
  else Ret (false, c).

(** [p->priority] for a node pointer [p] *)
Definition priority_of (pool : list Node) (p : option slot) : outcome Z :=
  match p with
  | Some i => match pool !! i with
              | Some n => Ret (priority n)
              | None => UB
              end
  | None => UB
  end.

(** The loop of [sift_up]; [index] strictly decreases, so [fuel = index] is
    enough. *)
Fixpoint sift_up_loop (fuel : nat) (pool : list Node) (index : nat)
    (c : cells) : outcome cells :=
  if (index =? 0)%nat then Ret c else
  match fuel with
  | O => Fuel
  | S fuel' =>
      let parent := ((index - 1) / 2)%nat in
      child ← load c index;
      parent_node ← load c parent;
      match child, parent_node with
      | Some _, Some _ =>
          pp ← priority_of pool parent_node;
          pc ← priority_of pool child;
          if pc <=? pp then Ret c else
          '(ok1, c1) ← compare_exchange_strong c parent parent_node child;
          if ok1 : bool then
            '(ok2, c2) ← compare_exchange_strong c1 index child parent_node;
            if ok2 : bool then sift_up_loop fuel' pool parent c2 else Ret c2
          else Ret c1
      | _, _ => Ret c
      end
  end.

Definition sift_up (pool : list Node) (index : nat) (c : cells)
    : outcome cells :=
  sift_up_loop index pool index c.

(** The loop of [sift_down]; [index] strictly increases and the loop stops
    when no child is below [current_size], so [fuel = current_size + 1] is
    enough. *)
Fixpoint sift_down_loop (fuel : nat) (pool : list Node) (current_size : nat)
    (index : nat) (c : cells) : outcome cells :=
  match fuel with
  | O => Fuel
  | S fuel' =>
      let left := (2 * index + 1)%nat in
      let right := (2 * index + 2)%nat in
      current ← load c index;
      max_index ←
        (if (left <? current_size)%nat then
           left_node ← load c left;
           match left_node with
           | Some _ =>
               pl ← priority_of pool left_node;
               pc ← priority_of pool current;
               Ret (if pc <? pl then left else index)
           | None => Ret index
           end
         else Ret index);
      max_index ←
        (if (right <? current_size)%nat then
           right_node ← load c right;
           match right_node with
           | Some _ =>
               pr ← priority_of pool right_node;
               m ← load c max_index;
               pm ← priority_of pool m;
               Ret (if pm <? pr then right else max_index)
           | None => Ret max_index
           end
         else Ret max_index);
      if (max_index =? index)%nat then Ret c else
      max_node ← load c max_index;
      '(ok1, c1) ← compare_exchange_strong c index current max_node;
      if ok1 : bool then
        '(ok2, c2) ← compare_exchange_strong c1 max_index max_node current;
        if ok2 : bool then sift_down_loop fuel' pool current_size max_index c2
        else Ret c2
      else Ret c1
  end.

Definition sift_down (pool : list Node) (current_size : nat) (index : nat)
    (c : cells) : outcome cells :=
  sift_down_loop (S current_size) pool current_size index c.

(** [LockFreeHeap(initial_capacity)] *)
Definition LockFreeHeap_new (initial_capacity : nat) : LockFreeHeap :=
  mkHeap (replicate initial_capacity None) 0 initial_capacity.

(** [LockFreeHeap::push] *)
Definition push (pool : list Node) (node : slot) (h : LockFreeHeap)
    : outcome (bool * LockFreeHeap) :=
  let current_size := size_ h in
  if (capacity h <=? current_size)%nat then Ret (false, h) else
  c1 ← store (heap h) current_size (Some node);
  c2 ← sift_up pool current_size c1;
  Ret (true, mkHeap c2 (current_size + 1) (capacity h)).

(** [LockFreeHeap::pop]; with a null top cell and a non-zero size the loop
    re-reads the same state forever. *)
Definition pop (pool : list Node) (h : LockFreeHeap)
    : outcome (option slot * LockFreeHeap) :=
  let current_size := size_ h in
  if (current_size =? 0)%nat then Ret (None, h) else
  top ← load (heap h) 0;
  match top with
  | None => Spin
  | Some _ =>
      last ← load (heap h) (current_size - 1);
      c1 ← store (heap h) (current_size - 1) None;
      c2 ← (if (1 <? current_size)%nat then
              c' ← store c1 0 last;
              sift_down pool (current_size - 1) 0 c'
            else Ret c1);
      Ret (top, mkHeap c2 (current_size - 1) (capacity h))
  end.

Definition empty (h : LockFreeHeap) : bool := (size_ h =? 0)%nat.

(** ** include/midpoint.hpp *)

Record MidpointNode := mkMidpoint { nodes : LockFreeHeap }.

Definition MidpointNode_new (cap : nat) : MidpointNode :=
  mkMidpoint (LockFreeHeap_new cap).

Definition add_node (pool : list Node) (node : slot) (m : MidpointNode)
    : outcome (bool * MidpointNode) :=
  '(ok, h) ← push pool node (nodes m);
  Ret (ok, mkMidpoint h).

(** The loop of [get_highest_priority_node].  [t] counts the clock readings
    taken so far; the result carries the new count and the nodes handed to
    [delete], oldest first.  Every iteration pops one node, so
    [fuel = size_] is enough.  [numa] tells how the nodes were allocated:
    [delete node] is defined on a node that came from [new], and undefined
    on one that came from [numa_alloc_onnode]. *)
Fixpoint get_highest_priority_node_loop (fuel : nat) (numa : bool)
    (clk : N -> Z) (pool : list Node) (t : N) (m : MidpointNode)
    : outcome (option slot * MidpointNode * N * list slot) :=
  if empty (nodes m) then Ret (None, m, t, []) else
  match fuel with
  | O => Fuel
  | S fuel' =>
      '(node, h) ← pop pool (nodes m);
      match node with
      | None => UB
      | Some i =>
          match pool !! i with
          | None => UB
          | Some n =>
              if is_expired (now_ns clk t) n then
                if numa then UB else
                '(r, m', t', del) ←
                  get_highest_priority_node_loop fuel' numa clk pool
                    (N.succ t) (mkMidpoint h);
                Ret (r, m', t', i :: del)
              else Ret (Some i, mkMidpoint h, N.succ t, [])
          end
      end
  end.

Definition get_highest_priority_node (numa : bool) (clk : N -> Z)
    (pool : list Node) (t : N) (m : MidpointNode)
    : outcome (option slot * MidpointNode * N * list slot) :=
  get_highest_priority_node_loop (size_ (nodes m)) numa clk pool t m.

(** ** include/lockfree_map.hpp *)

(** A shard is the chain of its bucket nodes from the head; [bn_value] is
    the [MidpointNode*] of the node, an index into [mid_store], the region
    holding the [MidpointNode] objects the table has allocated. *)
Record BucketNode := mkBucketNode {
  bn_key : string;
  bn_value : nat
}.

Record LockFreeHashTable := mkTable {
  buckets : list (list BucketNode);
  mid_store : list MidpointNode
}.

Definition BUCKETS : Z := 64.
Definition FNV_PRIME : Z := 0x100000001b3.
Definition FNV_OFFSET : Z := 0xcbf29ce484222325.

(** [static_cast<uint64_t>(c)] for a [char c]: the byte itself where [char]
    is unsigned, its sign extension where [char] is signed. *)
Definition char_to_uint64 (char_is_signed : bool) (c : Ascii.ascii) : Z :=
  let b := Z.of_N (Ascii.N_of_ascii c) in
  if char_is_signed && (128 <=? b) then wrap64 (b - 256) else b.

Fixpoint hash_loop (char_is_signed : bool) (key : string) (h : Z) : Z :=
  match key with
  | EmptyString => h
  | String c rest =>
      let h := Z.lxor h (char_to_uint64 char_is_signed c) in
      let h := wrap64 (h * FNV_PRIME) in
      hash_loop char_is_signed rest h
  end.

Definition hash_with (char_is_signed : bool) (key : string) : Z :=
  hash_loop char_is_signed key FNV_OFFSET mod BUCKETS.

(** [LockFreeHashTable::hash], with the signed [char] of the x86-64 ABI; the
    shard does not depend on that choice ([hash_with_signedness]). *)
Definition hash (key : string) : Z := hash_with true key.

(** [LockFreeHashTable(capacity_per_bucket)]: the argument is not used. *)
Definition LockFreeHashTable_new (capacity_per_bucket : nat)
    : LockFreeHashTable :=
  mkTable (replicate (Z.to_nat BUCKETS) []) [].

(** The traversal [while (head) { if (head->key == key) return head->value;
    head = head->next; }] *)
Fixpoint find_key (key : string) (chain : list BucketNode) : option nat :=
  match chain with
  | [] => None
  | b :: rest =>
      if decide (bn_key b = key) then Some (bn_value b)
      else find_key key rest
  end.

(** [buckets[index].load()] *)
Definition load_head (tbl : LockFreeHashTable) (index : Z)
    : outcome (list BucketNode) :=
  match buckets tbl !! Z.to_nat index with
  | Some chain => Ret chain
  | None => UB
  end.

(** [LockFreeHashTable::get_or_create], one thread: the head read before the
    compare-exchange is still the head, so the first iteration of the
    installing loop succeeds. *)
Definition get_or_create (key : string) (cap : nat) (tbl : LockFreeHashTable)
    : outcome (nat * LockFreeHashTable) :=
  let index := hash key in
  chain ← load_head tbl index;
  match find_key key chain with
  | Some p => Ret (p, tbl)
  | None =>
      let p := length (mid_store tbl) in
      let new_node := mkBucketNode key p in
      Ret (p, mkTable (<[Z.to_nat index := new_node :: chain]> (buckets tbl))
                      (mid_store tbl ++ [MidpointNode_new cap]))
  end.

(** [LockFreeHashTable::get] *)
Definition get (key : string) (tbl : LockFreeHashTable)
    : outcome (option nat) :=
  chain ← load_head tbl (hash key);
  Ret (find_key key chain).

(** ** src/radial_circular_list.cpp *)

(** The fields of the class, followed by the state of its environment: the
    number of clock readings taken so far, the nodes handed to [delete], and
    whether the nodes of [node_pool] came from [numa_alloc_onnode]. *)
Record RadialCircularList := mkCache {
  midpoints : LockFreeHashTable;
  max_nodes : Z;
  total_nodes : Z;
  node_pool : list Node;
  pool_index : Z;
  ticks : N;
  freed : list slot;
  numa_pool : bool
}.

(** [RadialCircularList(max)]: [max] nodes [Node(0.0)], each stamped with a
    clock reading of its own.  [0 <= max < 2^64] ([size_t]).  [numa] is the
    answer of [numa_available() >= 0]; it is [false] where [__linux__] is
    not defined.  With [numa] every node is [numa_alloc_onnode] memory in
    which [Node(0.0)] is constructed by a placement [new]; without, every
    node is [new Node(0.0)].  The nodes hold the same values either way. *)
Definition RadialCircularList_new (numa : bool) (clk : N -> Z) (max : Z)
    : RadialCircularList :=
  mkCache (LockFreeHashTable_new (Z.to_nat (max / 10))) max 0
          (map (fun t => Node_default (now_ns clk (N.of_nat t)))
               (seq 0 (Z.to_nat max)))
          0 (Z.to_N max) [] numa.

(** [mid->add_node(node)] through the pointer [p]. *)
Definition add_node_at (pool : list Node) (p : nat) (node : slot)
    (tbl : LockFreeHashTable) : outcome (bool * LockFreeHashTable) :=
  match mid_store tbl !! p with
  | None => UB
  | Some m =>
      '(ok, m') ← add_node pool node m;
      Ret (ok, mkTable (buckets tbl) (<[p := m']> (mid_store tbl)))
  end.

(** The four assignments to the fields of [node_pool[index]]. *)
Definition write_node (clk : N -> Z) (t : N) (pool : list Node)
    (index : Z) (v : float) (prio : Z) (expiry_time : float)
    : outcome (list Node) :=
  if decide (Z.to_nat index < length pool)%nat then
    e ← expiry_to_ns expiry_time;
    Ret (<[Z.to_nat index := mkNode v prio (now_ns clk t) e]> pool)
  else UB.

(** [RadialCircularList::insert] *)
Definition insert (clk : N -> Z) (v : float) (midpoint : string)
    (prio : Z) (expiry_time : float) (s : RadialCircularList)
    : outcome (bool * RadialCircularList) :=
  let current_nodes := total_nodes s in
  if max_nodes s <=? current_nodes then Ret (false, s) else
  let index := pool_index s in
  let pool_index' := wrap64 (index + 1) in
  if max_nodes s <=? index then
    Ret (false, mkCache (midpoints s) (max_nodes s) (total_nodes s)
                        (node_pool s) pool_index' (ticks s) (freed s)
                        (numa_pool s))
  else
    pool ← write_node clk (ticks s) (node_pool s) index v prio expiry_time;
    '(p, tbl) ← get_or_create midpoint (Z.to_nat (max_nodes s / 10))
                  (midpoints s);
    '(ok, tbl') ← add_node_at pool p (Z.to_nat index) tbl;
    Ret (ok, mkCache tbl' (max_nodes s)
               (if ok : bool then wrap64 (total_nodes s + 1) else total_nodes s)
               pool pool_index' (N.succ (ticks s)) (freed s) (numa_pool s)).

(** An element of the vector passed to [insert_batch]:
    [std::tuple<double, std::string, int, double>]. *)
Abbreviation item := (float * string * Z * float)%type.

(** The [for] loop of [insert_batch], at its iteration [i]; the result of
    [add_node] is dropped. *)
Fixpoint insert_batch_loop (clk : N -> Z) (cap : nat) (start_index : Z)
    (i : Z) (batch : list item) (pool : list Node) (tbl : LockFreeHashTable)
    (t : N) : outcome (list Node * LockFreeHashTable * N) :=
  match batch with
  | [] => Ret (pool, tbl, t)
  | (v, midpoint, prio, expiry_time) :: rest =>
      let index := wrap64 (start_index + i) in
      pool' ← write_node clk t pool index v prio expiry_time;
      '(p, tbl1) ← get_or_create midpoint cap tbl;
      '(_, tbl2) ← add_node_at pool' p (Z.to_nat index) tbl1;
      insert_batch_loop clk cap start_index (i + 1) rest pool' tbl2 (N.succ t)
  end.

(** [RadialCircularList::insert_batch] *)
Definition insert_batch (clk : N -> Z) (batch : list item)
    (s : RadialCircularList) : outcome (bool * RadialCircularList) :=
  let batch_size := wrap64 (Z.of_nat (length batch)) in
  let current_nodes := total_nodes s in
  if max_nodes s <? wrap64 (current_nodes + batch_size) then Ret (false, s)
  else
  let start_index := pool_index s in
  let pool_index' := wrap64 (start_index + batch_size) in
  if max_nodes s <? wrap64 (start_index + batch_size) then
    Ret (false, mkCache (midpoints s) (max_nodes s) (total_nodes s)
                        (node_pool s) pool_index' (ticks s) (freed s)
                        (numa_pool s))
  else
    '(pool, tbl, t) ← insert_batch_loop clk (Z.to_nat (max_nodes s / 10))
                        start_index 0 batch (node_pool s) (midpoints s)
                        (ticks s);
    Ret (true, mkCache tbl (max_nodes s)
                 (wrap64 (total_nodes s + batch_size))
                 pool pool_index' t (freed s) (numa_pool s)).

(** [RadialCircularList::get_highest_priority]; the result is the pointer
    returned, a slot of [node_pool]. *)
Definition get_highest_priority (clk : N -> Z) (midpoint : string)
    (s : RadialCircularList) : outcome (option slot * RadialCircularList) :=
  mid ← get midpoint (midpoints s);
  match mid with
  | None => Ret (None, s)
  | Some p =>
      match mid_store (midpoints s) !! p with
      | None => UB
      | Some m =>
          '(r, m', t', del) ←
            get_highest_priority_node (numa_pool s) clk (node_pool s)
              (ticks s) m;
          Ret (r, mkCache (mkTable (buckets (midpoints s))
                                   (<[p := m']> (mid_store (midpoints s))))
                          (max_nodes s) (total_nodes s) (node_pool s)
                          (pool_index s) t' (freed s ++ del) (numa_pool s))
      end
  end.

(** [RadialCircularList::get_highest_priority_batch] *)
Fixpoint get_highest_priority_batch (clk : N -> Z)
    (midpoints_batch : list string) (s : RadialCircularList)
    : outcome (list (option slot) * RadialCircularList) :=
  match midpoints_batch with
  | [] => Ret ([], s)
  | k :: rest =>
      '(r, s1) ← get_highest_priority clk k s;
      '(rs, s2) ← get_highest_priority_batch clk rest s1;
      Ret (r :: rs, s2)
  end.

(** ** Sequences of calls *)

Inductive op :=
| Insert (v : float) (midpoint : string) (prio : Z) (expiry_time : float)
| InsertBatch (batch : list item)
| GetHighestPriority (midpoint : string)
| GetHighestPriorityBatch (midpoints_batch : list string).

Inductive result :=
| RBool (b : bool)
| RNode (r : option slot)
| RNodes (rs : list (option slot)).

Definition step (clk : N -> Z) (o : op) (s : RadialCircularList)
    : outcome (result * RadialCircularList) :=
  match o with
  | Insert v k p e => '(b, s') ← insert clk v k p e s; Ret (RBool b, s')
  | InsertBatch b => '(r, s') ← insert_batch clk b s; Ret (RBool r, s')
  | GetHighestPriority k =>
      '(r, s') ← get_highest_priority clk k s; Ret (RNode r, s')
  | GetHighestPriorityBatch ks =>
      '(rs, s') ← get_highest_priority_batch clk ks s; Ret (RNodes rs, s')
  end.

(** The calls of [ops] one after the other; the results come in the order of
    the calls. *)
Fixpoint run (clk : N -> Z) (ops : list op) (s : RadialCircularList)
    : outcome (list result * RadialCircularList) :=
  match ops with
  | [] => Ret ([], s)
  | o :: rest =>
      '(r, s1) ← step clk o s;
      '(rs, s2) ← run clk rest s1;
      Ret (r :: rs, s2)
  end.

(** ** Two threads inside [get_or_create] *)

(** The key index at the level of its atomic accesses.  A bucket node is an
    allocation holding its key and its [next] pointer; the [MidpointNode] it
    owns is identified with the node.  A thread is at one of the program
    points of [LockFreeHashTable::get_or_create], and a step executes up to
    its next atomic access. *)
Module Race.

Record node := mkNode { key : string; next : option nat }.

Record shared := mkShared {
  heads : list (option nat);
  objs : list node
}.

Inductive pc :=
| Start
| Traverse (head : option nat)
| Allocate
| LoadHead (new_node : nat)
| StoreNext (new_node : nat) (head : option nat)
| CompareExchange (new_node : nat) (head : option nat)
| Done (bucket : nat)
| Crashed.

Definition init : shared := mkShared (replicate (Z.to_nat BUCKETS) None) [].

Definition thread_step (k : string) (sh : shared) (p : pc) : shared * pc :=
  let index := Z.to_nat (hash k) in
  match p with
  | Start =>
      match heads sh !! index with
      | Some head => (sh, Traverse head)
      | None => (sh, Crashed)
      end
  | Traverse None => (sh, Allocate)
  | Traverse (Some h) =>
      match objs sh !! h with
      | Some n => if decide (key n = k) then (sh, Done h)
                  else (sh, Traverse (next n))
      | None => (sh, Crashed)
      end
  | Allocate =>
      (mkShared (heads sh) (objs sh ++ [mkNode k None]),
       LoadHead (length (objs sh)))
  | LoadHead n =>
      match heads sh !! index with
      | Some head => (sh, StoreNext n head)
      | None => (sh, Crashed)
      end
  | StoreNext n head =>
      (mkShared (heads sh) (<[n := mkNode k head]> (objs sh)),
       CompareExchange n head)
  | CompareExchange n head =>
      match heads sh !! index with
      | Some cur =>
          if decide (cur = head)
          then (mkShared (<[index := Some n]> (heads sh)) (objs sh), Done n)
          else (sh, LoadHead n)
      | None => (sh, Crashed)
      end
  | Done b => (sh, Done b)
  | Crashed => (sh, Crashed)
  end.

(** A schedule names the thread that takes each step: [false] the first
    thread, [true] the second. *)
Fixpoint exec (k1 k2 : string) (schedule : list bool)
    (st : shared * pc * pc) : shared * pc * pc :=
  match schedule with
  | [] => st
  | who :: rest =>
      let '(sh, p1, p2) := st in
      if who : bool then
        let '(sh', p2') := thread_step k2 sh p2 in exec k1 k2 rest (sh', p1, p2')
      else
        let '(sh', p1') := thread_step k1 sh p1 in exec k1 k2 rest (sh', p1', p2)
  end.

(** The keys of the nodes reachable from [head], in chain order. *)
Fixpoint chain_keys (fuel : nat) (objs : list node) (head : option nat)
    : list string :=
  match fuel, head with
  | S fuel', Some h =>
      match objs !! h with
      | Some n => key n :: chain_keys fuel' objs (next n)
      | None => []
      end
  | _, _ => []
  end.

(** The keys reachable in the shard of [k]. *)
Definition reachable_keys (k : string) (sh : shared) : list string :=
  match heads sh !! Z.to_nat (hash k) with
  | Some head => chain_keys (length (objs sh)) (objs sh) head
  | None => []
  end.

(** The first thread installs its node between the head read and the
    compare-exchange of the second; the second fails its compare-exchange,
    reads the head again and installs its own node in front. *)
Definition lost_race : list bool :=
  [false; true; false; true; false; true; false; true; false; true;
   false; true; true; true; true].

End Race.

(** ** The words of the specification *)

(** 64-bit FNV-1a of a byte sequence, as the specification words it: [h]
    starts at the offset basis; for each byte [b], [h] becomes
    [(h XOR b) * prime] modulo 2^64. *)
Fixpoint FNV1a_64_from (h : Z) (key : string) : Z :=
  match key with
  | EmptyString => h
  | String c rest =>
      FNV1a_64_from
        ((Z.lxor h (Z.of_N (Ascii.N_of_ascii c)) * 0x100000001b3) mod 2 ^ 64)
        rest
  end.

Definition FNV1a_64 (key : string) : Z :=
  FNV1a_64_from 0xcbf29ce484222325 key.

(** ** Well-formed states and the history of a cache *)

(** The nodes held by the cells of a heap. *)
Definition slots_of (c : cells) : list slot := omap id c.

Definition heap_slots (h : LockFreeHeap) : list slot := slots_of (heap h).

(** The first [size] cells hold nodes of the pool, the others are null. *)
Definition cells_wf (n_pool size : nat) (c : cells) : Prop :=
  (size <= length c)%nat /\
  (forall i, (i < size)%nat ->
     exists x, c !! i = Some (Some x) /\ (x < n_pool)%nat) /\
  (forall i, (size <= i)%nat -> (i < length c)%nat -> c !! i = Some None).

Definition heap_wf (n_pool cap : nat) (h : LockFreeHeap) : Prop :=
  capacity h = cap /\ length (heap h) = cap /\
  cells_wf n_pool (size_ h) (heap h).

(** What a sift leaves unchanged: the shape of the heap and the nodes it
    holds. *)
Definition same_heap (n size : nat) (c c' : cells) : Prop :=
  cells_wf n size c' /\ length c' = length c /\ slots_of c' ≡ₚ slots_of c.

(** The bucket nodes of all shards. *)
Definition table_nodes (tbl : LockFreeHashTable) : list BucketNode :=
  mjoin (buckets tbl).

(** The nodes held by all buckets. *)
Definition all_slots (tbl : LockFreeHashTable) : list slot :=
  mid_store tbl ≫= (fun m => heap_slots (nodes m)).

Definition table_wf (n_pool cap : nat) (tbl : LockFreeHashTable) : Prop :=
  length (buckets tbl) = Z.to_nat BUCKETS /\
  (forall m, m ∈ mid_store tbl -> heap_wf n_pool cap (nodes m)) /\
  (forall b, b ∈ table_nodes tbl ->
     (bn_value b < length (mid_store tbl))%nat) /\
  (forall b b', b ∈ table_nodes tbl -> b' ∈ table_nodes tbl ->
     bn_value b = bn_value b' -> bn_key b = bn_key b').

(** The records a call asks the cache to insert. *)
Definition records (o : op) : list item :=
  match o with
  | Insert v k p e => [(v, k, p, e)]
  | InsertBatch b => b
  | _ => []
  end.

(** The node [n] holds a record that a call of [ops] inserted under the key
    [k]: its value and priority, its lifetime in nanoseconds, and a reading
    of the clock as timestamp. *)
Definition inserted_under (clk : N -> Z) (ops : list op) (k : string)
    (n : Node) : Prop :=
  exists o v p e t,
    o ∈ ops /\ (v, k, p, e) ∈ records o /\
    value n = v /\ priority n = p /\
    expiry_to_ns e = Ret (expiry_time_ns n) /\
    timestamp_ns n = now_ns clk t.

(** The lifetime of every record of the call can be cast to [uint64_t]. *)
Definition castable (e : float) : bool :=
  match expiry_to_ns e with
  | Ret _ => true
  | _ => false
  end.

Definition valid_op (o : op) : bool :=
  forallb (fun it : item => castable it.2) (records o).

Definition valid_ops (ops : list op) : bool := forallb valid_op ops.

(** The number of pool slots a call can claim, and that of a sequence of
    calls; the 64-bit pool index does not wrap as long as the latter is below
    2^64. *)
Definition demand (o : op) : Z :=
  match o with
  | Insert _ _ _ _ => 1
  | InsertBatch b => Z.of_nat (length b)
  | _ => 0
  end.

Definition total_demand (ops : list op) : Z :=
  foldr (fun o acc => demand o + acc) 0 ops.

(** The non-null pointers a call returned, and those of a sequence. *)
Definition returned (r : result) : list slot :=
  match r with
  | RBool _ => []
  | RNode r => option_list r
  | RNodes rs => omap id rs
  end.

Definition all_returned (rs : list result) : list slot := rs ≫= returned.

(** Every node held by the bucket of a key holds a record inserted under
    that key. *)
Definition owner_inv (clk : N -> Z) (hist : list op) (pool : list Node)
    (tbl : LockFreeHashTable) : Prop :=
  forall b m x,
    b ∈ table_nodes tbl ->
    mid_store tbl !! bn_value b = Some m ->
    x ∈ heap_slots (nodes m) ->
    exists n, pool !! x = Some n /\ inserted_under clk hist (bn_key b) n.

(** The part of the invariant that relates the pool, the key index and the
    nodes [R] already returned: the index is well formed, the buckets hold
    records of their keys, and the nodes held or returned are distinct slots
    below [bound]. *)
Record core_inv (clk : N -> Z) (hist : list op) (R : list slot)
    (cap : nat) (pool : list Node) (tbl : LockFreeHashTable) (bound : Z)
    : Prop := mkCore {
  core_table : table_wf (length pool) cap tbl;
  core_owner : owner_inv clk hist pool tbl;
  core_fresh : forall x, x ∈ all_slots tbl ++ R -> Z.of_nat x < bound;
  core_nodup : NoDup (all_slots tbl ++ R)
}.

(** The invariant of the states reached by the calls [hist], which returned
    the nodes [R], on a cache whose nodes came from [new]. *)
Record cache_inv (clk : N -> Z) (hist : list op) (R : list slot)
    (s : RadialCircularList) : Prop := mkInv {
  inv_max : 0 <= max_nodes s < 2 ^ 64;
  inv_pool_len : length (node_pool s) = Z.to_nat (max_nodes s);
  inv_total : 0 <= total_nodes s <= max_nodes s;
  inv_total_pool : total_nodes s <= pool_index s;
  inv_pool_idx : 0 <= pool_index s <= total_demand hist;
  inv_core : core_inv clk hist R (Z.to_nat (max_nodes s / 10))
               (node_pool s) (midpoints s) (pool_index s);
  inv_numa : numa_pool s = false
}.

(** ** Heap order *)

(** The priority of the node in cell [i]; cells of a well-formed heap below
    its size hold nodes of the pool, for which no default is taken. *)
Definition cell_priority (pool : list Node) (c : cells) (i : nat) : Z :=
  match c !! i with
  | Some (Some x) =>
      match pool !! x with
      | Some n => priority n
      | None => 0
      end
  | _ => 0
  end.

(** Max-heap order on the first [size] cells: no node has a greater priority
    than the node of its parent cell. *)
Definition heap_ordered (pool : list Node) (size : nat) (c : cells) : Prop :=
  forall i, (0 < i < size)%nat ->
    cell_priority pool c i <= cell_priority pool c ((i - 1) / 2).

(** Heap order with a hole at [index], as [sift_up] finds it: every cell but
    [index] respects its parent, and the children of [index] respect the
    parent of [index]. *)
Definition ordered_up (pool : list Node) (size : nat) (c : cells)
    (index : nat) : Prop :=
  (forall i, (0 < i < size)%nat -> i <> index ->
     cell_priority pool c i <= cell_priority pool c ((i - 1) / 2)) /\
  (forall j, (0 < index)%nat -> (0 < j < size)%nat ->
     ((j - 1) / 2)%nat = index ->
     cell_priority pool c j <= cell_priority pool c ((index - 1) / 2)).

(** Heap order with a hole below [index], as [sift_down] finds it: every
    cell but the children of [index] respects its parent, and the children
    of [index] respect the parent of [index]. *)
Definition ordered_down (pool : list Node) (size : nat) (c : cells)
    (index : nat) : Prop :=
  (forall i, (0 < i < size)%nat -> ((i - 1) / 2)%nat <> index ->
     cell_priority pool c i <= cell_priority pool c ((i - 1) / 2)) /\
  (forall j, (0 < index)%nat -> (0 < j < size)%nat ->
     ((j - 1) / 2)%nat = index ->
     cell_priority pool c j <= cell_priority pool c ((index - 1) / 2)).

(** Every bucket of the key index is an ordered heap. *)
Definition ordered_tbl (pool : list Node) (tbl : LockFreeHashTable) : Prop :=
  forall m, m ∈ mid_store tbl ->
    heap_ordered pool (size_ (nodes m)) (heap (nodes m)).

(** Each shard holds at most one bucket node per key, and a bucket node sits
    in the shard its key hashes to. *)
Definition keys_placed (tbl : LockFreeHashTable) : Prop :=
  forall idx chain, buckets tbl !! idx = Some chain ->
    NoDup (bn_key <$> chain) /\
    forall b, b ∈ chain -> Z.to_nat (hash (bn_key b)) = idx.

(** Every bucket node belongs to a key of a record that a call of [hist]
    asked to insert. *)
Definition keys_inserted (hist : list op) (tbl : LockFreeHashTable) : Prop :=
  forall b, b ∈ table_nodes tbl ->
    exists o v p e, o ∈ hist /\ (v, bn_key b, p, e) ∈ records o.

(** ** The destructor *)

(** The release of a node of the pool, [deleted] being the nodes released
    so far: [delete node] without NUMA, [node->~Node()] and [numa_free]
    with NUMA.  Releasing a node a second time is undefined either way. *)
Definition delete_node (node : slot) (deleted : list slot)
    : outcome (list slot) :=
  if decide (node ∈ deleted) then UB else Ret (deleted ++ [node]).

(** The loop [for (auto node : node_pool)] of the destructor. *)
Fixpoint delete_pool (pool : list slot) (deleted : list slot)
    : outcome (list slot) :=
  match pool with
  | [] => Ret deleted
  | node :: rest => d ← delete_node node deleted; delete_pool rest d
  end.

(** [RadialCircularList::~RadialCircularList]: every pointer of [node_pool]
    is released, whatever the retrievals have deleted before.  The
    destructor asks [numa_available()] again and is taken to get the answer
    the constructor got, so that a node is released the way it was
    allocated.  The result is the list of the nodes released over the life
    of the cache. *)
Definition RadialCircularList_destroy (s : RadialCircularList)
    : outcome (list slot) :=
  delete_pool (seq 0 (length (node_pool s))) (freed s).

(** ** Counting *)

(** What a call adds to [total_nodes]: 1 for an [insert] that returned true,
    the size of the batch for an [insert_batch] that returned true. *)
Definition credited (o : op) (r : result) : Z :=
  match o, r with
  | Insert _ _ _ _, RBool true => 1
  | InsertBatch b, RBool true => Z.of_nat (length b)
  | _, _ => 0
  end.

Fixpoint total_credited (ops : list op) (rs : list result) : Z :=
  match ops, rs with
  | o :: ops', r :: rs' => credited o r + total_credited ops' rs'
  | _, _ => 0
  end.

(** A call that asked for pool slots and was refused: an [insert], or an
    [insert_batch] of at least one record, that returned false. *)
Definition refused (o : op) (r : result) : Prop :=
  match o with
  | Insert _ _ _ _ => r = RBool false
  | InsertBatch (_ :: _) => r = RBool false
  | _ => True
  end.

(** The number of nodes in the bucket of a key, 0 when the key has none. *)
Definition bucket_size (k : string) (tbl : LockFreeHashTable) : nat :=
  match get k tbl with
  | Ret (Some q) =>
      match mid_store tbl !! q with
      | Some m => size_ (nodes m)
      | None => 0
      end
  | _ => 0
  end.

(** ** Two threads inside [get_or_create]: what every interleaving keeps *)

(** The pointers of the shared index are valid: there are 64 heads, and
    every head and every [next] points to an allocated bucket node. *)
Definition shared_ok (sh : Race.shared) : Prop :=
  length (Race.heads sh) = Z.to_nat BUCKETS /\
  (forall i h, Race.heads sh !! i = Some (Some h) ->
               (h < length (Race.objs sh))%nat) /\
  (forall h n h', Race.objs sh !! h = Some n -> Race.next n = Some h' ->
                  (h' < length (Race.objs sh))%nat).

(** The bucket node [n] is allocated and holds the key [k]. *)
Definition holds_key (sh : Race.shared) (k : string) (n : nat) : Prop :=
  exists nd, Race.objs sh !! n = Some nd /\ Race.key nd = k.

Definition valid_ptr (sh : Race.shared) (head : option nat) : Prop :=
  forall h, head = Some h -> (h < length (Race.objs sh))%nat.

(** The local pointers of a thread calling [get_or_create k] are valid at
    its program point: the node it traverses is allocated, the node it has
    allocated holds its key, and the bucket it returns holds its key. *)
Definition pc_ok (k : string) (sh : Race.shared) (p : Race.pc) : Prop :=
  match p with
  | Race.Start | Race.Allocate => True
  | Race.Traverse head => valid_ptr sh head
  | Race.LoadHead n => holds_key sh k n
  | Race.StoreNext n head | Race.CompareExchange n head =>
      holds_key sh k n /\ valid_ptr sh head
  | Race.Done b => holds_key sh k b
  | Race.Crashed => False
  end.

(** ** A batch and the inserts of its records *)

(** The calls of [insert] on the records of a batch, in their order. *)
Definition inserts_of (batch : list item) : list op :=
  map (fun it : item => Insert it.1.1.1 it.1.1.2 it.1.2 it.2) batch.

(** The number of results [true] in a list of results. *)
Fixpoint successes (rs : list result) : Z :=
  match rs with
  | [] => 0
  | RBool true :: rest => 1 + successes rest
  | _ :: rest => successes rest
  end.

(** ** The destructor of the key index *)

(** [~LockFreeHashTable]: the shards in their order and, along the chain of
    each, [delete node->value; delete node;].  [n_store] is the number of
    [MidpointNode]s allocated; the result lists the [MidpointNode]s deleted.
    Following a pointer to no [MidpointNode], or deleting one a second
    time, is undefined. *)
Fixpoint delete_values (n_store : nat) (chain : list BucketNode)
    (deleted : list nat) : outcome (list nat) :=
  match chain with
  | [] => Ret deleted
  | b :: rest =>
      if decide (bn_value b < n_store)%nat then
        d ← delete_node (bn_value b) deleted;
        delete_values n_store rest d
      else UB
  end.

Definition LockFreeHashTable_destroy (tbl : LockFreeHashTable)
    : outcome (list nat) :=
  delete_values (length (mid_store tbl)) (table_nodes tbl) [].

(** ** The two ways of allocating the nodes *)

(** The state [s] of a cache whose nodes were allocated the other way: with
    [numa_alloc_onnode] if [numa], with [new] otherwise. *)
Definition with_numa (numa : bool) (s : RadialCircularList)
    : RadialCircularList :=
  mkCache (midpoints s) (max_nodes s) (total_nodes s) (node_pool s)
          (pool_index s) (ticks s) (freed s) numa.

(** * Properties *)

(** ** Expiry *)

Lemma wrap64_range (x : Z) : 0 <= wrap64 x < 2 ^ 64.
Proof. unfold wrap64. apply Z.mod_pos_bound. lia. Qed.

Lemma wrap64_small (x : Z) : 0 <= x < 2 ^ 64 -> wrap64 x = x.
Proof. intros H. unfold wrap64. apply Z.mod_small. exact H. Qed.

Lemma is_expired_iff (now : Z) (n : Node) :
  is_expired now n = true <-> wrap64 (now - timestamp_ns n) > expiry_time_ns n.
Proof. unfold is_expired. rewrite Z.ltb_lt. lia. Qed.

Lemma get_highest_priority_node_live (numa : bool) (clk : N -> Z)
    (pool : list Node) (t : N) (m : MidpointNode) (i : slot)
    (h : LockFreeHeap) (n : Node) :
  empty (nodes m) = false ->
  pop pool (nodes m) = Ret (Some i, h) ->
  pool !! i = Some n ->
  is_expired (now_ns clk t) n = false ->
  get_highest_priority_node numa clk pool t m
  = Ret (Some i, mkMidpoint h, N.succ t, []).
Proof.
  intros Hne Hpop Hn Hlive. unfold get_highest_priority_node.
  destruct (size_ (nodes m)) as [|k] eqn:Hsz.
  - unfold empty in Hne. rewrite Hsz in Hne. discriminate.
  - cbn [get_highest_priority_node_loop]. rewrite Hne, Hpop. cbn.
    rewrite Hn, Hlive. reflexivity.
Qed.

(** C7: [is_expired] holds exactly when the (unsigned) difference between
    the clock reading and the timestamp is strictly greater than the expiry
    duration; a record whose difference equals the duration is live, and when
    it is the one [pop] yields, [get_highest_priority_node] returns it
    instead of deleting it. *)
Theorem is_expired_strict_boundary_live :
  (forall now n,
     is_expired now n = true <->
     wrap64 (now - timestamp_ns n) > expiry_time_ns n) /\
  (forall now n,
     wrap64 (now - timestamp_ns n) = expiry_time_ns n ->
     is_expired now n = false) /\
  (forall numa clk pool t m i h n,
     empty (nodes m) = false ->
     pop pool (nodes m) = Ret (Some i, h) ->
     pool !! i = Some n ->
     wrap64 (now_ns clk t - timestamp_ns n) = expiry_time_ns n ->
     get_highest_priority_node numa clk pool t m
       = Ret (Some i, mkMidpoint h, N.succ t, [])).
Proof.
  split; [exact is_expired_iff|]. split.
  - intros now n H. unfold is_expired. apply Z.ltb_ge. lia.
  - intros numa clk pool t m i h n Hne Hpop Hn Hb.
    apply get_highest_priority_node_live with (n := n); try assumption.
    unfold is_expired. apply Z.ltb_ge. lia.
Qed.

(** A bucket holding one record stamped at 1000 ns with a 60 s lifetime,
    read by a clock that shows exactly 1000 + 60e9 ns. *)
Lemma is_expired_strict_boundary_live_witness :
  get_highest_priority_node true (fun _ => 60000001000)
    [mkNode 150.75 1 1000 60000000000] 0%N
    (mkMidpoint (mkHeap [Some 0%nat; None] 1 2))
  = Ret (Some 0%nat, mkMidpoint (mkHeap [None; None] 0 2), 1%N, []).
Proof.
  apply (proj2 (proj2 is_expired_strict_boundary_live) true
           (fun _ => 60000001000) [mkNode 150.75 1 1000 60000000000] 0%N
           (mkMidpoint (mkHeap [Some 0%nat; None] 1 2)) 0%nat
           (mkHeap [None; None] 0 2) (mkNode 150.75 1 1000 60000000000));
    reflexivity.
Defined.

(** ** The shard of a key *)

Lemma lxor_mod_pow2 (a b n : Z) :
  0 <= n -> Z.lxor a b mod 2 ^ n = Z.lxor (a mod 2 ^ n) (b mod 2 ^ n).
Proof.
  intros Hn. apply Z.bits_inj'. intros i Hi.
  rewrite Z.lxor_spec, !Z.testbit_mod_pow2, Z.lxor_spec by assumption.
  destruct (i <? n); reflexivity.
Qed.

Lemma lxor_mod_64 (a b : Z) :
  Z.lxor a b mod 64 = Z.lxor (a mod 64) (b mod 64).
Proof. apply (lxor_mod_pow2 a b 6). lia. Qed.

Lemma char_to_uint64_mod_64 (sc : bool) (c : Ascii.ascii) :
  char_to_uint64 sc c mod 64 = Z.of_N (Ascii.N_of_ascii c) mod 64.
Proof.
  unfold char_to_uint64.
  assert (Hb : 0 <= Z.of_N (Ascii.N_of_ascii c) < 256).
  { pose proof (Ascii.N_ascii_bounded c). lia. }
  set (b := Z.of_N (Ascii.N_of_ascii c)) in *.
  destruct (sc && (128 <=? b)) eqn:E; [|reflexivity].
  apply andb_true_iff in E as [_ E]. apply Z.leb_le in E.
  assert (W : wrap64 (b - 256) = b + 288230376151711740 * 64).
  { unfold wrap64. symmetry. apply Z.mod_unique with (q := -1); lia. }
  rewrite W.
  apply Z.mod_add. lia.
Qed.

Lemma mul_wrap_mod_64 (x y p : Z) :
  x mod 64 = y mod 64 -> ((x * p) mod 2 ^ 64) mod 64 = ((y * p) mod 2 ^ 64) mod 64.
Proof.
  intros H. assert (D : (64 | 2 ^ 64)) by (exists (2 ^ 58); lia).
  rewrite !(Z.mod_mod_divide _ _ _ D).
  rewrite (Z.mul_mod x) by lia. rewrite (Z.mul_mod y) by lia.
  rewrite H. reflexivity.
Qed.

Lemma hash_loop_FNV1a (sc : bool) (key : string) :
  forall h h', h mod 64 = h' mod 64 ->
  hash_loop sc key h mod 64 = FNV1a_64_from h' key mod 64.
Proof.
  induction key as [|c rest IH]; intros h h' H; cbn.
  - exact H.
  - apply IH. unfold wrap64, FNV_PRIME. apply mul_wrap_mod_64.
    rewrite !lxor_mod_64, char_to_uint64_mod_64, H. reflexivity.
Qed.

Lemma hash_with_signedness (sc : bool) (key : string) :
  hash_with sc key = FNV1a_64 key mod 64.
Proof. unfold hash_with, BUCKETS, FNV1a_64. apply hash_loop_FNV1a. reflexivity. Qed.

(** C9: the shard index computed by [hash], which [get] and
    [get_or_create] use, is the 64-bit FNV-1a hash of the bytes of the key
    reduced modulo [BUCKETS = 64], whether [char] is signed or not. *)
Theorem hash_is_FNV1a_mod_BUCKETS (key : string) :
  hash key = FNV1a_64 key mod 64 /\
  BUCKETS = 64 /\
  (forall char_is_signed, hash_with char_is_signed key = FNV1a_64 key mod 64).
Proof.
  split; [apply hash_with_signedness|].
  split; [reflexivity|]. intros sc. apply hash_with_signedness.
Qed.

(** ** The heap, one thread at a time *)

Ltac ret_step := cbn [mbind mret outcome_bind outcome_ret].

Lemma insert_cons_perm {A} (l : list A) (j : nat) (a b : A) :
  l !! j = Some b -> b :: <[j := a]> l ≡ₚ a :: l.
Proof.
  revert j. induction l as [|x l IH]; intros [|j] H; try discriminate.
  - cbn in H. injection H as ->. cbn. apply perm_swap.
  - cbn in H. cbn. rewrite perm_swap, (IH j H). apply perm_swap.
Qed.

Lemma swap_perm {A} (l : list A) (i j : nat) (a b : A) :
  i <> j -> l !! i = Some a -> l !! j = Some b ->
  <[j := a]> (<[i := b]> l) ≡ₚ l.
Proof.
  revert i j. induction l as [|x l IH]; intros [|i] [|j] Hne Hi Hj;
    try discriminate; try congruence; cbn in *.
  - injection Hi as ->. apply insert_cons_perm. exact Hj.
  - injection Hj as ->. apply insert_cons_perm. exact Hi.
  - constructor. apply IH; [congruence|assumption..].
Qed.

Lemma swap_cells_wf (n size : nat) (c : cells) (i j : nat)
    (a b : option slot) :
  cells_wf n size c -> (i < size)%nat -> (j < size)%nat ->
  c !! i = Some a -> c !! j = Some b ->
  cells_wf n size (<[j := a]> (<[i := b]> c)).
Proof.
  intros (Hlen & Hlive & Hnull) Hi Hj Ha Hb.
  split; [|split].
  - rewrite !length_insert. exact Hlen.
  - intros k Hk. destruct (decide (k = j)) as [->|Hkj].
    + rewrite list_lookup_insert_eq by (rewrite length_insert; lia).
      destruct (Hlive i Hi) as (x & Hx & Hxn). exists x. split; congruence.
    + rewrite list_lookup_insert_ne by congruence.
      destruct (decide (k = i)) as [->|Hki].
      * rewrite list_lookup_insert_eq by lia.
        destruct (Hlive j Hj) as (x & Hx & Hxn). exists x. split; congruence.
      * rewrite list_lookup_insert_ne by congruence. apply Hlive, Hk.
  - intros k Hk Hk'. rewrite !length_insert in Hk'.
    rewrite !list_lookup_insert_ne by lia. apply Hnull; assumption.
Qed.

Lemma cas_success (c : cells) (i : nat) (cur d : option slot) :
  c !! i = Some cur ->
  compare_exchange_strong c i cur d = Ret (true, <[i := d]> c).
Proof.
  intros H. unfold compare_exchange_strong, load. rewrite H. ret_step.
  rewrite decide_True by reflexivity. reflexivity.
Qed.

Lemma same_heap_refl (n size : nat) (c : cells) :
  cells_wf n size c -> same_heap n size c c.
Proof. intros H. split; [exact H|]. split; reflexivity. Qed.

Lemma same_heap_swap (n size : nat) (c c' : cells) (i j : nat)
    (a b : option slot) :
  cells_wf n size c -> (i < size)%nat -> (j < size)%nat -> i <> j ->
  c !! i = Some a -> c !! j = Some b ->
  same_heap n size (<[j := a]> (<[i := b]> c)) c' ->
  same_heap n size c c'.
Proof.
  intros Hwf Hi Hj Hne Ha Hb (Hwf' & Hlen & Hperm).
  split; [exact Hwf'|]. split.
  - rewrite Hlen, !length_insert. reflexivity.
  - rewrite Hperm. unfold slots_of.
    rewrite (swap_perm c i j a b Hne Ha Hb). reflexivity.
Qed.

Lemma priority_of_wf (pool : list Node) (x : slot) :
  (x < length pool)%nat -> exists p, priority_of pool (Some x) = Ret p.
Proof.
  intros H. apply lookup_lt_is_Some_2 in H as [n Hn].
  exists (priority n). cbn. rewrite Hn. reflexivity.
Qed.

Lemma sift_up_loop_spec (pool : list Node) (size : nat) (fuel : nat) :
  forall index c,
    (index <= fuel)%nat -> (index < size)%nat ->
    cells_wf (length pool) size c ->
    exists c', sift_up_loop fuel pool index c = Ret c' /\
               same_heap (length pool) size c c'.
Proof.
  induction fuel as [|fuel IH]; intros index c Hfuel Hidx Hwf.
  - assert (index = 0)%nat as -> by lia. exists c. split; [reflexivity|].
    apply same_heap_refl, Hwf.
  - cbn [sift_up_loop]. destruct (index =? 0)%nat eqn:E.
    { exists c. split; [reflexivity|]. apply same_heap_refl, Hwf. }
    apply Nat.eqb_neq in E.
    set (parent := ((index - 1) / 2)%nat).
    assert (Hpar : (parent < index)%nat).
    { unfold parent. pose proof (Nat.Div0.div_le_upper_bound (index - 1) 2 (index - 1)).
      assert (((index - 1) / 2 <= index - 1)%nat) by (apply Nat.Div0.div_le_upper_bound; lia).
      lia. }
    destruct Hwf as (Hlen & Hlive & Hnull).
    destruct (Hlive index Hidx) as (xc & Hc & Hxc).
    destruct (Hlive parent ltac:(lia)) as (xp & Hp & Hxp).
    unfold load. rewrite Hc. ret_step. rewrite Hp. ret_step.
    destruct (priority_of_wf pool xp Hxp) as (pp & Hpp).
    destruct (priority_of_wf pool xc Hxc) as (pc & Hpc).
    rewrite Hpp. ret_step. rewrite Hpc. ret_step.
    destruct (pc <=? pp).
    { exists c. split; [reflexivity|]. apply same_heap_refl. repeat split; assumption. }
    rewrite (cas_success c parent (Some xp) (Some xc) Hp). ret_step.
    rewrite (cas_success (<[parent := Some xc]> c) index (Some xc) (Some xp))
      by (rewrite list_lookup_insert_ne by lia; exact Hc).
    ret_step.
    assert (Hwf : cells_wf (length pool) size c) by (repeat split; assumption).
    destruct (IH parent (<[index := Some xp]> (<[parent := Some xc]> c)))
      as (c' & Hrun & Hsame).
    { lia. } { lia. }
    { apply swap_cells_wf; try assumption; lia. }
    exists c'. split; [exact Hrun|].
    eapply (same_heap_swap _ _ c c' parent index); eauto; lia.
Qed.

Lemma bind_spec {A B} (e : outcome A) (k : A -> outcome B)
    (P : A -> Prop) (Q : B -> Prop) :
  (exists a, e = Ret a /\ P a) ->
  (forall a, P a -> exists b, k a = Ret b /\ Q b) ->
  exists b, (e ≫= k) = Ret b /\ Q b.
Proof.
  intros (a & -> & Ha) Hk. ret_step. apply Hk, Ha.
Qed.

Lemma load_priority_wf (pool : list Node) (size : nat) (c : cells) (i : nat) :
  cells_wf (length pool) size c -> (i < size)%nat ->
  exists x p, c !! i = Some (Some x) /\ load c i = Ret (Some x) /\
              priority_of pool (Some x) = Ret p.
Proof.
  intros (_ & Hlive & _) Hi. destruct (Hlive i Hi) as (x & Hx & Hxn).
  destruct (priority_of_wf pool x Hxn) as (p & Hp).
  exists x, p. unfold load. rewrite Hx. auto.
Qed.

Lemma sift_down_loop_spec (pool : list Node) (cs : nat) (fuel : nat) :
  forall index c,
    (cs <= index + fuel)%nat -> (index < cs)%nat ->
    cells_wf (length pool) cs c ->
    exists c', sift_down_loop fuel pool cs index c = Ret c' /\
               same_heap (length pool) cs c c'.
Proof.
  induction fuel as [|fuel IH]; intros index c Hfuel Hidx Hwf; [lia|].
  cbn [sift_down_loop].
  destruct (load_priority_wf pool cs c index Hwf Hidx) as (xc & pc & Hc & Lc & Hpc).
  rewrite Lc. ret_step.
  apply (bind_spec _ _
           (fun m => m = index \/ (index < m)%nat /\ (m < cs)%nat)).
  { destruct (2 * index + 1 <? cs)%nat eqn:El; [|eauto].
    apply Nat.ltb_lt in El.
    destruct (load_priority_wf pool cs c _ Hwf El) as (xl & pl & Hl & Ll & Hpl).
    rewrite Ll. ret_step. rewrite Hpl. ret_step.
    rewrite Hpc. ret_step.
    destruct (pc <? pl); eexists; (split; [reflexivity|]); [right; lia|left; reflexivity]. }
  intros m1 Hm1.
  assert (Hm1cs : (m1 < cs)%nat) by (destruct Hm1 as [->|[_ ?]]; assumption).
  apply (bind_spec _ _
           (fun m => m = index \/ (index < m)%nat /\ (m < cs)%nat)).
  { destruct (2 * index + 2 <? cs)%nat eqn:Er; [|eauto].
    apply Nat.ltb_lt in Er.
    destruct (load_priority_wf pool cs c _ Hwf Er) as (xr & pr & Hr & Lr & Hpr).
    destruct (load_priority_wf pool cs c _ Hwf Hm1cs) as (xm & pm & Hm & Lm & Hpm).
    rewrite Lr. ret_step. rewrite Hpr. ret_step.
    rewrite Lm. ret_step. rewrite Hpm. ret_step.
    destruct (pm <? pr); eexists; (split; [reflexivity|]); [right; lia|exact Hm1]. }
  intros m2 Hm2.
  destruct (m2 =? index)%nat eqn:E.
  { exists c. split; [reflexivity|]. apply same_heap_refl, Hwf. }
  apply Nat.eqb_neq in E. destruct Hm2 as [?|[Hlt Hm2cs]]; [contradiction|].
  destruct (load_priority_wf pool cs c _ Hwf Hm2cs) as (xm & pm & Hm & Lm & _).
  rewrite Lm. ret_step.
  rewrite (cas_success c index (Some xc) (Some xm) Hc). ret_step.
  rewrite (cas_success (<[index := Some xm]> c) m2 (Some xm) (Some xc))
    by (rewrite list_lookup_insert_ne by lia; exact Hm).
  ret_step.
  destruct (IH m2 (<[m2 := Some xc]> (<[index := Some xm]> c)))
    as (c' & Hrun & Hsame).
  { lia. } { lia. }
  { apply swap_cells_wf; try assumption; lia. }
  exists c'. split; [exact Hrun|].
  eapply (same_heap_swap _ _ c c' index m2); eauto; lia.
Qed.

Lemma slots_of_insert_null (c : cells) (i : nat) (x : slot) :
  c !! i = Some None -> slots_of (<[i := Some x]> c) ≡ₚ x :: slots_of c.
Proof.
  revert i. induction c as [|y c IH]; intros [|i] H; try discriminate.
  - cbn in H. injection H as ->. reflexivity.
  - cbn in H. cbn [insert list_insert]. unfold slots_of in *. cbn [omap list_omap].
    destruct y as [y|]; cbn.
    + rewrite (IH i H). apply perm_swap.
    + apply IH, H.
Qed.

Lemma slots_of_remove (c : cells) (i : nat) (x : slot) :
  c !! i = Some (Some x) -> x :: slots_of (<[i := None]> c) ≡ₚ slots_of c.
Proof.
  revert i. induction c as [|y c IH]; intros [|i] H; try discriminate.
  - cbn in H. injection H as ->. reflexivity.
  - cbn in H. cbn [insert list_insert]. unfold slots_of in *. cbn [omap list_omap].
    destruct y as [y|]; cbn.
    + rewrite perm_swap, (IH i H). reflexivity.
    + apply IH, H.
Qed.

(** [push] returns; it fails exactly when the bucket is full, and otherwise
    adds the node to those the heap holds. *)
Lemma push_spec (pool : list Node) (cap : nat) (node : slot)
    (h : LockFreeHeap) :
  heap_wf (length pool) cap h -> (node < length pool)%nat ->
  exists h',
    push pool node h = Ret (negb (cap <=? size_ h)%nat, h') /\
    heap_wf (length pool) cap h' /\
    heap_slots h' ≡ₚ
      (if (cap <=? size_ h)%nat then [] else [node]) ++ heap_slots h.
Proof.
  intros (Hcap & Hlen & Hwf) Hnode. unfold push. rewrite Hcap.
  destruct (cap <=? size_ h)%nat eqn:E.
  { exists h. split; [reflexivity|]. split; [|reflexivity].
    repeat split; try assumption; apply Hwf. }
  apply Nat.leb_gt in E. unfold store.
  rewrite decide_True by lia. ret_step.
  pose proof Hwf as (Hsz & Hlive & Hnull).
  assert (Hwf1 : cells_wf (length pool) (size_ h + 1)
                   (<[size_ h := Some node]> (heap h))).
  { split; [rewrite length_insert; lia|]. split.
    - intros i Hi. destruct (decide (i = size_ h)) as [->|Hne].
      + exists node. rewrite list_lookup_insert_eq by lia. auto.
      + rewrite list_lookup_insert_ne by congruence. apply Hlive. lia.
    - intros i Hi Hi'. rewrite length_insert in Hi'.
      rewrite list_lookup_insert_ne by lia. apply Hnull; lia. }
  destruct (sift_up_loop_spec pool (size_ h + 1) (size_ h) (size_ h) _
              ltac:(lia) ltac:(lia) Hwf1) as (c' & Hrun & Hwf' & Hlen' & Hperm).
  unfold sift_up. rewrite Hrun. ret_step.
  eexists. split; [reflexivity|]. split.
  - split; [reflexivity|]. cbn. rewrite Hlen', length_insert. auto.
  - unfold heap_slots. cbn. rewrite Hperm.
    apply slots_of_insert_null, Hnull; lia.
Qed.

Lemma slots_of_replace (c : cells) (i : nat) (x y : slot) :
  c !! i = Some (Some x) ->
  x :: slots_of (<[i := Some y]> c) ≡ₚ y :: slots_of c.
Proof.
  intros H.
  rewrite <- (slots_of_remove c i x H).
  rewrite <- (list_insert_insert_eq c i (Some y) None).
  rewrite slots_of_insert_null; [apply perm_swap|].
  apply list_lookup_insert_eq. eapply lookup_lt_Some, H.
Qed.

(** [pop] returns: a null pointer from an empty heap, and otherwise the node
    of the top cell, which the heap no longer holds. *)
Lemma pop_spec (pool : list Node) (cap : nat) (h : LockFreeHeap) :
  heap_wf (length pool) cap h ->
  (size_ h = 0%nat /\ pop pool h = Ret (None, h)) \/
  (exists x h',
     pop pool h = Ret (Some x, h') /\
     heap h !! 0%nat = Some (Some x) /\
     heap_wf (length pool) cap h' /\
     S (size_ h') = size_ h /\
     heap_slots h ≡ₚ x :: heap_slots h').
Proof.
  intros (Hcap & Hlen & Hwf). unfold pop.
  destruct (size_ h =? 0)%nat eqn:E.
  { left. apply Nat.eqb_eq in E. auto. }
  right. apply Nat.eqb_neq in E.
  pose proof Hwf as (Hsz & Hlive & Hnull).
  destruct (Hlive 0%nat ltac:(lia)) as (x & Hx & Hxn).
  destruct (Hlive (size_ h - 1)%nat ltac:(lia)) as (y & Hy & Hyn).
  unfold load, store. rewrite Hx. ret_step. rewrite Hy. ret_step.
  rewrite decide_True by lia. ret_step.
  set (c1 := <[(size_ h - 1)%nat := None]> (heap h)).
  destruct (1 <? size_ h)%nat eqn:E1.
  - apply Nat.ltb_lt in E1.
    assert (Hlen1 : length c1 = length (heap h)) by apply length_insert.
    rewrite decide_True by lia. ret_step.
    assert (Hx1 : c1 !! 0%nat = Some (Some x)).
    { unfold c1. rewrite list_lookup_insert_ne by lia. exact Hx. }
    assert (Hwf' : cells_wf (length pool) (size_ h - 1) (<[0%nat := Some y]> c1)).
    { split; [rewrite length_insert; lia|]. split.
      - intros i Hi. destruct (decide (i = 0%nat)) as [->|Hne].
        + exists y. rewrite list_lookup_insert_eq by lia. auto.
        + rewrite list_lookup_insert_ne by congruence. unfold c1.
          rewrite list_lookup_insert_ne by lia. apply Hlive. lia.
      - intros i Hi Hi'. rewrite length_insert in Hi'.
        rewrite list_lookup_insert_ne by lia. unfold c1.
        destruct (decide (i = (size_ h - 1)%nat)) as [->|Hne].
        + apply list_lookup_insert_eq. lia.
        + rewrite list_lookup_insert_ne by congruence. apply Hnull; lia. }
    destruct (sift_down_loop_spec pool (size_ h - 1) (S (size_ h - 1)) 0%nat _
                ltac:(lia) ltac:(lia) Hwf') as (c' & Hrun & Hwf2 & Hlen2 & Hperm).
    unfold sift_down. rewrite Hrun. ret_step.
    eexists x, _. split; [reflexivity|]. split; [reflexivity|]. split; [|split].
    + split; [exact Hcap|]. cbn. rewrite Hlen2, length_insert, Hlen1. auto.
    + cbn. lia.
    + unfold heap_slots. cbn. rewrite Hperm.
      rewrite (slots_of_replace c1 0%nat x y Hx1).
      symmetry. apply slots_of_remove, Hy.
  - apply Nat.ltb_ge in E1.
    assert (Hz : (size_ h - 1 = 0)%nat) by lia.
    ret_step. unfold c1. clear c1. rewrite Hz in *.
    rewrite Hx in Hy. injection Hy as <-.
    eexists x, _. split; [reflexivity|]. split; [reflexivity|]. split; [|split].
    + split; [exact Hcap|]. cbn [heap size_ capacity].
      split; [rewrite length_insert; exact Hlen|].
      split; [lia|]. split; [intros i Hi; lia|].
      intros i _ Hi. rewrite length_insert in Hi.
      destruct (decide (i = 0%nat)) as [->|Hne].
      * apply list_lookup_insert_eq. lia.
      * rewrite list_lookup_insert_ne by congruence. apply Hnull; lia.
    + cbn [size_]. lia.
    + unfold heap_slots. cbn [heap]. symmetry. apply slots_of_remove, Hx.
Qed.

(** On nodes that came from [new], [get_highest_priority_node] returns; the
    nodes it deleted and the node
    it returned are no longer in the heap, and the node returned passed the
    expiry check made with the last reading of the clock. *)
Lemma get_highest_priority_node_loop_spec (clk : N -> Z) (pool : list Node)
    (cap : nat) (fuel : nat) :
  forall t m,
    heap_wf (length pool) cap (nodes m) -> (size_ (nodes m) <= fuel)%nat ->
    exists r m' t' del,
      get_highest_priority_node_loop fuel false clk pool t m
        = Ret (r, m', t', del) /\
      heap_wf (length pool) cap (nodes m') /\
      heap_slots (nodes m) ≡ₚ del ++ option_list r ++ heap_slots (nodes m') /\
      (t <= t')%N /\
      (forall i, r = Some i ->
         exists n, pool !! i = Some n /\ (t < t')%N /\
                   is_expired (now_ns clk (N.pred t')) n = false).
Proof.
  induction fuel as [|fuel IH]; intros t m Hwf Hfuel.
  - assert (Hz : size_ (nodes m) = 0%nat) by lia.
    cbn. unfold empty. rewrite Hz. cbn.
    exists None, m, t, []. split; [reflexivity|]. split; [exact Hwf|].
    split; [reflexivity|]. split; [lia|]. intros i Hi. discriminate.
  - cbn [get_highest_priority_node_loop]. unfold empty.
    destruct (pop_spec pool cap (nodes m) Hwf)
      as [[Hz Hpop]|(x & h' & Hpop & Htop & Hwf' & Hsz & Hperm)].
    { rewrite Hz. cbn. exists None, m, t, []. split; [reflexivity|].
      split; [exact Hwf|]. split; [reflexivity|]. split; [lia|].
      intros i Hi. discriminate. }
    destruct (size_ (nodes m) =? 0)%nat eqn:E; [apply Nat.eqb_eq in E; lia|].
    rewrite Hpop. ret_step.
    assert (Hxn : (x < length pool)%nat).
    { destruct Hwf as (_ & _ & _ & Hlive & _).
      destruct (Hlive 0%nat ltac:(lia)) as (x' & Hx' & Hlt). congruence. }
    destruct (lookup_lt_is_Some_2 pool x Hxn) as [n Hn]. rewrite Hn.
    destruct (is_expired (now_ns clk t) n) eqn:Hexp.
    + destruct (IH (N.succ t) (mkMidpoint h') Hwf' ltac:(cbn; lia))
        as (r & m' & t' & del & Hrun & Hwf2 & Hperm2 & Ht & Hlive).
      rewrite Hrun. ret_step.
      exists r, m', t', (x :: del). split; [reflexivity|].
      split; [exact Hwf2|]. split; [|split; [lia|]].
      * rewrite Hperm. cbn in Hperm2. rewrite Hperm2. reflexivity.
      * intros i Hi. destruct (Hlive i Hi) as (n' & ? & ? & ?).
        exists n'. repeat split; auto; lia.
    + exists (Some x), (mkMidpoint h'), (N.succ t), [].
      split; [reflexivity|]. split; [exact Hwf'|].
      split; [exact Hperm|]. split; [lia|].
      intros i Hi. injection Hi as <-. exists n. rewrite N.pred_succ.
      split; [exact Hn|]. split; [lia|exact Hexp].
Qed.

(** ** The key index, one thread at a time *)

Lemma hash_range (key : string) : 0 <= hash key < BUCKETS.
Proof. unfold hash, hash_with, BUCKETS. apply Z.mod_pos_bound. lia. Qed.

Lemma load_head_wf (n cap : nat) (tbl : LockFreeHashTable) (key : string) :
  table_wf n cap tbl ->
  exists chain, load_head tbl (hash key) = Ret chain /\
                buckets tbl !! Z.to_nat (hash key) = Some chain.
Proof.
  intros (Hlen & _). unfold load_head.
  pose proof (hash_range key) as Hr. unfold BUCKETS in *.
  destruct (lookup_lt_is_Some_2 (buckets tbl) (Z.to_nat (hash key))) as [c Hc].
  { rewrite Hlen. lia. }
  exists c. rewrite Hc. auto.
Qed.

Lemma find_key_Some (key : string) (chain : list BucketNode) (p : nat) :
  find_key key chain = Some p ->
  exists b, b ∈ chain /\ bn_key b = key /\ bn_value b = p.
Proof.
  induction chain as [|b chain IH]; cbn; [discriminate|].
  destruct (decide (bn_key b = key)) as [E|E].
  - intros [= <-]. exists b. split; [left|auto].
  - intros H. destruct (IH H) as (b' & Hin & Hb'). exists b'.
    split; [right; exact Hin|exact Hb'].
Qed.

Lemma elem_of_table_nodes (tbl : LockFreeHashTable) (i : nat)
    (chain : list BucketNode) (b : BucketNode) :
  buckets tbl !! i = Some chain -> b ∈ chain -> b ∈ table_nodes tbl.
Proof.
  intros Hc Hb. unfold table_nodes. apply list_elem_of_join.
  exists chain. split; [exact Hb|]. eapply list_elem_of_lookup_2, Hc.
Qed.

Lemma elem_of_join_insert_cons {A} (l : list (list A)) (i : nat)
    (chain : list A) (x b : A) :
  l !! i = Some chain ->
  b ∈ mjoin (<[i := x :: chain]> l) -> b = x \/ b ∈ mjoin l.
Proof.
  intros Hc Hb. apply list_elem_of_join in Hb as (c & Hbc & Hc').
  apply list_elem_of_lookup in Hc' as (j & Hj).
  destruct (decide (i = j)) as [<-|Hne].
  - rewrite list_lookup_insert_eq in Hj by (eapply lookup_lt_Some, Hc).
    injection Hj as <-. apply elem_of_cons in Hbc as [->|Hbc]; [left; reflexivity|].
    right. apply list_elem_of_join. exists chain. split; [exact Hbc|].
    eapply list_elem_of_lookup_2, Hc.
  - rewrite list_lookup_insert_ne in Hj by exact Hne.
    right. apply list_elem_of_join. exists c. split; [exact Hbc|].
    eapply list_elem_of_lookup_2, Hj.
Qed.

Lemma elem_of_all_slots (tbl : LockFreeHashTable) (p : nat)
    (m : MidpointNode) (x : slot) :
  mid_store tbl !! p = Some m -> x ∈ heap_slots (nodes m) ->
  x ∈ all_slots tbl.
Proof.
  intros Hm Hx. unfold all_slots. apply list_elem_of_bind.
  exists m. split; [exact Hx|]. eapply list_elem_of_lookup_2, Hm.
Qed.

Lemma all_slots_insert (tbl : LockFreeHashTable) (p : nat)
    (m m' : MidpointNode) :
  mid_store tbl !! p = Some m ->
  all_slots (mkTable (buckets tbl) (<[p := m']> (mid_store tbl))) ++
    heap_slots (nodes m)
  ≡ₚ heap_slots (nodes m') ++ all_slots tbl.
Proof.
  intros Hm. unfold all_slots. cbn [mid_store].
  rewrite insert_take_drop by (eapply lookup_lt_Some, Hm).
  rewrite <- (take_drop_middle (mid_store tbl) p m Hm) at 3.
  rewrite !bind_app, !bind_cons.
  set (a := take p (mid_store tbl) ≫= _).
  set (d := drop (S p) (mid_store tbl) ≫= _).
  rewrite <- !app_assoc. rewrite Permutation_app_swap_app.
  do 2 apply Permutation_app_head. apply Permutation_app_comm.
Qed.

Lemma heap_wf_new (n cap : nat) : heap_wf n cap (LockFreeHeap_new cap).
Proof.
  unfold LockFreeHeap_new. split; [reflexivity|]. cbn.
  split; [apply length_replicate|]. split; [lia|].
  split; [intros i Hi; lia|]. intros i _ Hi.
  rewrite length_replicate in Hi. apply lookup_replicate_2, Hi.
Qed.

Lemma heap_slots_new (cap : nat) : heap_slots (LockFreeHeap_new cap) = [].
Proof.
  unfold heap_slots, slots_of, LockFreeHeap_new. cbn.
  induction cap as [|cap IH]; [reflexivity|exact IH].
Qed.

Lemma all_slots_alloc (bs bs' : list (list BucketNode))
    (store : list MidpointNode) (cap : nat) :
  all_slots (mkTable bs (store ++ [MidpointNode_new cap]))
  = all_slots (mkTable bs' store).
Proof.
  unfold all_slots. cbn [mid_store]. rewrite bind_app, bind_cons.
  change (nodes (MidpointNode_new cap)) with (LockFreeHeap_new cap).
  rewrite heap_slots_new. apply app_nil_r.
Qed.

Lemma inserted_under_mono (clk : N -> Z) (hist hist' : list op)
    (k : string) (n : Node) :
  (forall o, o ∈ hist -> o ∈ hist') ->
  inserted_under clk hist k n -> inserted_under clk hist' k n.
Proof.
  intros Hsub (o & v & p & e & t & Ho & H). exists o, v, p, e, t.
  split; [apply Hsub, Ho|exact H].
Qed.

Lemma core_inv_mono (clk : N -> Z) (hist hist' : list op) (R : list slot)
    (cap : nat) (pool : list Node) (tbl : LockFreeHashTable)
    (bound bound' : Z) :
  (forall o, o ∈ hist -> o ∈ hist') -> bound <= bound' ->
  core_inv clk hist R cap pool tbl bound ->
  core_inv clk hist' R cap pool tbl bound'.
Proof.
  intros Hsub Hb [Ht Ho Hf Hn]. split; try assumption.
  - intros b m x Hb' Hm Hx. destruct (Ho b m x Hb' Hm Hx) as (n & Hn' & Hi).
    exists n. split; [exact Hn'|]. eapply inserted_under_mono; eauto.
  - intros x Hx. specialize (Hf x Hx). lia.
Qed.

Lemma core_inv_write (clk : N -> Z) (hist : list op) (R : list slot)
    (cap : nat) (pool : list Node) (tbl : LockFreeHashTable) (bound : Z)
    (i : nat) (nd : Node) :
  bound <= Z.of_nat i ->
  core_inv clk hist R cap pool tbl bound ->
  core_inv clk hist R cap (<[i := nd]> pool) tbl bound.
Proof.
  intros Hb [Ht Ho Hf Hn]. split; try assumption.
  - rewrite length_insert. exact Ht.
  - intros b m x Hb' Hm Hx. destruct (Ho b m x Hb' Hm Hx) as (n & Hn' & Hi).
    exists n. split; [|exact Hi].
    rewrite list_lookup_insert_ne; [exact Hn'|].
    assert (Z.of_nat x < bound); [|lia].
    apply Hf, elem_of_app. left. eapply elem_of_all_slots; eauto.
Qed.

Lemma get_or_create_spec (clk : N -> Z) (hist : list op) (R : list slot)
    (cap : nat) (pool : list Node) (tbl : LockFreeHashTable) (bound : Z)
    (key : string) :
  core_inv clk hist R cap pool tbl bound ->
  exists p tbl',
    get_or_create key cap tbl = Ret (p, tbl') /\
    core_inv clk hist R cap pool tbl' bound /\
    exists b, b ∈ table_nodes tbl' /\ bn_key b = key /\ bn_value b = p.
Proof.
  intros [Ht Ho Hf Hn]. unfold get_or_create.
  destruct (load_head_wf _ _ tbl key Ht) as (chain & Hload & Hchain).
  rewrite Hload. ret_step.
  destruct (find_key key chain) as [p|] eqn:Hfind.
  - exists p, tbl. split; [reflexivity|]. split; [split; assumption|].
    destruct (find_key_Some _ _ _ Hfind) as (b & Hb & Hk & Hv).
    exists b. split; [|auto]. eapply elem_of_table_nodes; eauto.
  - set (p := length (mid_store tbl)).
    set (nb := mkBucketNode key p).
    set (tbl' := mkTable _ _).
    assert (Hnodes : forall b, b ∈ table_nodes tbl' ->
                               b = nb \/ b ∈ table_nodes tbl).
    { intros b Hb. unfold table_nodes, tbl' in Hb. cbn [buckets] in Hb.
      eapply elem_of_join_insert_cons in Hb; eauto. }
    destruct Ht as (Hlen & Hheaps & Hptr & Hfun).
    exists p, tbl'. split; [reflexivity|]. split; [split|].
    + split; [|split; [|split]].
      * unfold tbl'. cbn [buckets]. rewrite length_insert. exact Hlen.
      * intros m Hm. unfold tbl' in Hm. cbn [mid_store] in Hm.
        apply elem_of_app in Hm as [Hm|Hm]; [apply Hheaps, Hm|].
        apply list_elem_of_singleton in Hm as ->. apply heap_wf_new.
      * intros b Hb. unfold tbl'. cbn [mid_store]. rewrite length_app. cbn.
        destruct (Hnodes b Hb) as [->|Hold]; [cbn; lia|].
        specialize (Hptr b Hold). lia.
      * intros b b' Hb Hb' Hv.
        destruct (Hnodes b Hb) as [->|Hold], (Hnodes b' Hb') as [->|Hold'];
          try reflexivity.
        -- specialize (Hptr b' Hold'). cbn in Hv. lia.
        -- specialize (Hptr b Hold). cbn in Hv. lia.
        -- apply Hfun; assumption.
    + intros b m x Hb Hm Hx. unfold tbl' in Hm. cbn [mid_store] in Hm.
      destruct (Hnodes b Hb) as [->|Hold].
      * cbn [bn_value nb] in Hm. unfold p in Hm.
        rewrite lookup_app_r in Hm by lia. rewrite Nat.sub_diag in Hm.
        injection Hm as <-.
        change (nodes (MidpointNode_new cap)) with (LockFreeHeap_new cap) in Hx.
        rewrite heap_slots_new in Hx. inversion Hx.
      * rewrite lookup_app_l in Hm by (apply Hptr, Hold).
        eapply Ho; eauto.
    + intros x Hx. apply Hf. unfold tbl' in Hx.
      rewrite (all_slots_alloc _ (buckets tbl)) in Hx. destruct tbl; exact Hx.
    + unfold tbl'. rewrite (all_slots_alloc _ (buckets tbl)).
      destruct tbl; exact Hn.
    + exists nb. split; [|auto].
      unfold table_nodes, tbl'. cbn [buckets]. apply list_elem_of_join.
      exists (nb :: chain). split; [left|].
      eapply list_elem_of_lookup_2. apply list_lookup_insert_eq.
      eapply lookup_lt_Some, Hchain.
Qed.

Lemma elem_of_insert_inv {A} (l : list A) (i : nat) (x y : A) :
  y ∈ <[i := x]> l -> y = x \/ y ∈ l.
Proof.
  intros H. apply list_elem_of_lookup in H as (j & Hj).
  destruct (decide (i = j)) as [<-|Hne].
  - destruct (decide (i < length l)%nat) as [Hlt|Hge].
    + rewrite list_lookup_insert_eq in Hj by exact Hlt. left. congruence.
    + rewrite list_insert_ge in Hj by lia. right.
      eapply list_elem_of_lookup_2, Hj.
  - rewrite list_lookup_insert_ne in Hj by exact Hne. right.
    eapply list_elem_of_lookup_2, Hj.
Qed.

(** Pushing a node that holds a record of [key] on the bucket of [key]. *)
Lemma add_node_at_spec (clk : N -> Z) (hist : list op) (R : list slot)
    (cap : nat) (pool : list Node) (tbl : LockFreeHashTable) (bound : Z)
    (p node : nat) (key : string) (n : Node) :
  core_inv clk hist R cap pool tbl bound ->
  (exists b, b ∈ table_nodes tbl /\ bn_key b = key /\ bn_value b = p) ->
  pool !! node = Some n -> inserted_under clk hist key n ->
  bound <= Z.of_nat node ->
  exists ok tbl',
    add_node_at pool p node tbl = Ret (ok, tbl') /\
    core_inv clk hist R cap pool tbl' (Z.of_nat node + 1) /\
    (ok = true -> (0 < cap)%nat).
Proof.
  intros [Ht Ho Hf Hn] (b & Hb & Hk & Hv) Hnode Hins Hbound.
  pose proof Ht as (Hlen & Hheaps & Hptr & Hfun).
  assert (Hp : (p < length (mid_store tbl))%nat) by (rewrite <- Hv; auto).
  destruct (lookup_lt_is_Some_2 _ _ Hp) as [m Hm].
  assert (Hwf : heap_wf (length pool) cap (nodes m)).
  { apply Hheaps. eapply list_elem_of_lookup_2, Hm. }
  destruct (push_spec pool cap node (nodes m) Hwf) as (h' & Hpush & Hwf' & Hperm).
  { eapply lookup_lt_Some, Hnode. }
  unfold add_node_at, add_node. rewrite Hm, Hpush. ret_step.
  set (ok := negb (cap <=? size_ (nodes m))%nat) in *.
  set (tbl' := mkTable _ _).
  assert (Hslots : heap_slots h' ≡ₚ (if ok then [node] else []) ++ heap_slots (nodes m)).
  { rewrite Hperm. unfold ok. destruct (cap <=? size_ (nodes m))%nat; reflexivity. }
  assert (Hall : all_slots tbl' ≡ₚ (if ok then [node] else []) ++ all_slots tbl).
  { pose proof (all_slots_insert tbl p m (mkMidpoint h') Hm) as H.
    cbn [nodes] in H. rewrite Hslots in H.
    apply (Permutation_app_inv_r (heap_slots (nodes m))).
    fold tbl' in H. rewrite H. rewrite <- !app_assoc.
    apply Permutation_app_head, Permutation_app_comm. }
  assert (Hnew : forall x, x ∈ all_slots tbl ++ R -> x <> node).
  { intros x Hx. specialize (Hf x Hx). lia. }
  exists ok, tbl'. split; [reflexivity|]. split; [split|].
  - split; [exact Hlen|]. split; [|split].
    + intros m' Hm'. unfold tbl' in Hm'. cbn [mid_store] in Hm'.
      apply elem_of_insert_inv in Hm' as [->|Hm']; [exact Hwf'|].
      apply Hheaps, Hm'.
    + intros b' Hb'. unfold tbl'. cbn [mid_store]. rewrite length_insert.
      apply Hptr, Hb'.
    + exact Hfun.
  - intros b' m' x Hb' Hm' Hx. unfold tbl' in Hm'. cbn [mid_store] in Hm'.
    change (table_nodes tbl') with (table_nodes tbl) in Hb'.
    destruct (decide (bn_value b' = p)) as [E|E].
    + rewrite E, list_lookup_insert_eq in Hm' by exact Hp.
      injection Hm' as <-. cbn [nodes] in Hx. rewrite Hslots in Hx.
      assert (Hkey : bn_key b' = key).
      { rewrite <- Hk. apply Hfun; try assumption. congruence. }
      apply elem_of_app in Hx as [Hx|Hx].
      * destruct ok; [|inversion Hx].
        apply list_elem_of_singleton in Hx as ->.
        exists n. rewrite Hkey. auto.
      * apply (Ho b' m x Hb'); [rewrite E; exact Hm|exact Hx].
    + rewrite list_lookup_insert_ne in Hm' by congruence.
      apply (Ho b' m' x Hb' Hm' Hx).
  - intros x Hx. rewrite Hall, <- app_assoc in Hx.
    apply elem_of_app in Hx as [Hx|Hx].
    + destruct ok; [|inversion Hx].
      apply list_elem_of_singleton in Hx as ->. lia.
    + specialize (Hf x Hx). lia.
  - rewrite Hall, <- app_assoc. destruct ok; [|exact Hn].
    cbn. apply NoDup_cons. split; [|exact Hn].
    intros Hin. exact (Hnew node Hin eq_refl).
  - unfold ok. intros Hok. apply negb_true_iff, Nat.leb_gt in Hok. lia.
Qed.

Lemma write_node_spec (clk : N -> Z) (t : N) (pool : list Node)
    (index : Z) (v : float) (prio : Z) (e : float) :
  (Z.to_nat index < length pool)%nat -> castable e = true ->
  exists ns,
    expiry_to_ns e = Ret ns /\
    write_node clk t pool index v prio e
    = Ret (<[Z.to_nat index := mkNode v prio (now_ns clk t) ns]> pool).
Proof.
  intros Hidx Hc. unfold castable in Hc. unfold write_node.
  rewrite decide_True by exact Hidx.
  destruct (expiry_to_ns e) as [ns| | |]; try discriminate.
  exists ns. auto.
Qed.

(** One record written to the free slot [index] and pushed on the bucket of
    its key: the three steps shared by [insert] and [insert_batch]. *)
Lemma place_record (clk : N -> Z) (hist : list op) (R : list slot)
    (cap : nat) (pool : list Node) (tbl : LockFreeHashTable) (bound : Z)
    (t : N) (index : Z) (v : float) (k : string) (prio : Z) (e : float) :
  core_inv clk hist R cap pool tbl bound ->
  0 <= index -> bound <= index -> (Z.to_nat index < length pool)%nat ->
  castable e = true ->
  (exists o, o ∈ hist /\ (v, k, prio, e) ∈ records o) ->
  exists pool' p tbl1 ok tbl2,
    write_node clk t pool index v prio e = Ret pool' /\
    get_or_create k cap tbl = Ret (p, tbl1) /\
    add_node_at pool' p (Z.to_nat index) tbl1 = Ret (ok, tbl2) /\
    length pool' = length pool /\
    core_inv clk hist R cap pool' tbl2 (index + 1) /\
    (ok = true -> (0 < cap)%nat).
Proof.
  intros Hcore H0 Hbound Hidx Hcast (o & Ho & Hrec).
  destruct (write_node_spec clk t pool index v prio e Hidx Hcast)
    as (ns & Hns & Hwrite).
  set (nd := mkNode v prio (now_ns clk t) ns) in *.
  set (pool' := <[Z.to_nat index := nd]> pool) in *.
  assert (Hcore' : core_inv clk hist R cap pool' tbl bound).
  { apply core_inv_write; [lia|exact Hcore]. }
  destruct (get_or_create_spec clk hist R cap pool' tbl bound k Hcore')
    as (p & tbl1 & Hgoc & Hcore1 & Hb).
  destruct (add_node_at_spec clk hist R cap pool' tbl1 bound p
              (Z.to_nat index) k nd Hcore1 Hb)
    as (ok & tbl2 & Hadd & Hcore2 & Hok).
  { apply list_lookup_insert_eq, Hidx. }
  { exists o, v, prio, e, t. repeat split; auto. }
  { lia. }
  rewrite Z2Nat.id in Hcore2 by lia.
  exists pool', p, tbl1, ok, tbl2.
  split; [exact Hwrite|]. split; [exact Hgoc|]. split; [exact Hadd|].
  split; [apply length_insert|]. split; [exact Hcore2|exact Hok].
Qed.

(** ** The calls of the facade preserve the invariant *)

Lemma total_demand_app (l1 l2 : list op) :
  total_demand (l1 ++ l2) = total_demand l1 + total_demand l2.
Proof.
  unfold total_demand. induction l1 as [|o l1 IH]; cbn; [reflexivity|].
  rewrite IH. lia.
Qed.

Lemma total_demand_nonneg (l : list op) : 0 <= total_demand l.
Proof.
  unfold total_demand. induction l as [|o l IH]; cbn; [lia|].
  destruct o; cbn; lia.
Qed.

Lemma total_demand_snoc (l : list op) (o : op) :
  total_demand (l ++ [o]) = total_demand l + demand o.
Proof. rewrite total_demand_app. unfold total_demand. cbn. lia. Qed.

Lemma capacity_positive (max : Z) : (0 < Z.to_nat (max / 10))%nat -> 10 <= max.
Proof.
  intros H. destruct (Z.le_gt_cases 10 max) as [?|Hlt]; [assumption|].
  assert (max / 10 <= 0); [|lia].
  destruct (Z.le_gt_cases 0 max).
  - rewrite Z.div_small by lia. lia.
  - apply Z.lt_le_incl, Z.div_lt_upper_bound; lia.
Qed.

Lemma insert_spec (clk : N -> Z) (hist : list op) (R : list slot)
    (s : RadialCircularList) (v : float) (k : string) (p : Z) (e : float) :
  cache_inv clk hist R s -> castable e = true ->
  pool_index s + 1 < 2 ^ 64 ->
  exists b s',
    insert clk v k p e s = Ret (b, s') /\
    cache_inv clk (hist ++ [Insert v k p e]) R s' /\
    max_nodes s' = max_nodes s /\
    pool_index s' = (if max_nodes s <=? total_nodes s then pool_index s
                     else pool_index s + 1) /\
    total_nodes s' = (if b then total_nodes s + 1 else total_nodes s) /\
    (b = true -> 10 <= max_nodes s).
Proof.
  intros [Hmax Hlen Htot Htp Hidx Hcore Hnuma] Hcast Hwrap.
  assert (Hsub : forall o, o ∈ hist -> o ∈ hist ++ [Insert v k p e]).
  { intros o Ho. apply elem_of_app. left. exact Ho. }
  unfold insert.
  destruct (max_nodes s <=? total_nodes s) eqn:E1.
  { exists false, s. split; [reflexivity|].
    split; [|repeat split; try reflexivity; discriminate].
    split; try assumption.
    - rewrite total_demand_snoc. cbn [demand]. lia.
    - apply (core_inv_mono clk hist _ R _ _ _ (pool_index s) _ Hsub);
        [lia|exact Hcore]. }
  apply Z.leb_gt in E1.
  rewrite (wrap64_small (pool_index s + 1)) by lia.
  destruct (max_nodes s <=? pool_index s) eqn:E2.
  { eexists false, _. split; [reflexivity|].
    split; [|repeat split; try reflexivity; discriminate].
    split; cbn; try assumption; try lia.
    - rewrite total_demand_snoc. cbn [demand]. lia.
    - apply (core_inv_mono clk hist _ R _ _ _ (pool_index s) _ Hsub);
        [lia|exact Hcore]. }
  apply Z.leb_gt in E2.
  destruct (place_record clk (hist ++ [Insert v k p e]) R
              (Z.to_nat (max_nodes s / 10)) (node_pool s) (midpoints s)
              (pool_index s) (ticks s) (pool_index s) v k p e)
    as (pool' & q & tbl1 & ok & tbl2 & Hw & Hg & Ha & Hlen' & Hcore' & Hok).
  { apply (core_inv_mono clk hist _ R _ _ _ (pool_index s) _ Hsub);
      [lia|exact Hcore]. }
  { lia. } { lia. } { rewrite Hlen. lia. } { exact Hcast. }
  { exists (Insert v k p e). split; [|left].
    apply elem_of_app. right. left. }
  rewrite Hw. ret_step. rewrite Hg. ret_step. rewrite Ha. ret_step.
  eexists ok, _. split; [reflexivity|]. split; [|split; [reflexivity|]].
  - split; cbn; try assumption; try lia.
    + destruct ok; [rewrite wrap64_small|]; lia.
    + destruct ok; [rewrite wrap64_small|]; lia.
    + rewrite total_demand_snoc. cbn [demand]. lia.
  - cbn. split; [reflexivity|]. split.
    + destruct ok; [apply wrap64_small; lia|reflexivity].
    + intros ->. apply capacity_positive, Hok. reflexivity.
Qed.

Lemma insert_batch_loop_spec (clk : N -> Z) (hist : list op)
    (R : list slot) (cap : nat) (start : Z) (batch : list item) :
  forall i pool tbl t,
    core_inv clk hist R cap pool tbl (start + i) ->
    0 <= start -> 0 <= i ->
    start + i + Z.of_nat (length batch) <= Z.of_nat (length pool) ->
    start + i + Z.of_nat (length batch) < 2 ^ 64 ->
    forallb (fun it : item => castable it.2) batch = true ->
    (forall it, it ∈ batch -> exists o, o ∈ hist /\ it ∈ records o) ->
    exists pool' tbl' t',
      insert_batch_loop clk cap start i batch pool tbl t
        = Ret (pool', tbl', t') /\
      length pool' = length pool /\
      core_inv clk hist R cap pool' tbl'
        (start + i + Z.of_nat (length batch)).
Proof.
  induction batch as [|[[[v k] p] e] rest IH];
    intros i pool tbl t Hcore Hs Hi Hfit Hwrap Hcast Hrec.
  - exists pool, tbl, t. split; [reflexivity|]. split; [reflexivity|].
    cbn. rewrite Z.add_0_r. exact Hcore.
  - cbn [insert_batch_loop]. cbn [length] in Hfit, Hwrap.
    cbn [forallb] in Hcast. apply andb_true_iff in Hcast as [Hc Hcast].
    rewrite (wrap64_small (start + i)) by lia.
    destruct (place_record clk hist R cap pool tbl (start + i) t (start + i)
                v k p e Hcore)
      as (pool' & q & tbl1 & ok & tbl2 & Hw & Hg & Ha & Hlen' & Hcore' & _).
    { lia. } { lia. } { lia. } { exact Hc. }
    { apply Hrec. left. }
    rewrite Hw. ret_step. rewrite Hg. ret_step. rewrite Ha. ret_step.
    destruct (IH (i + 1) pool' tbl2 (N.succ t)) as (pool2 & tbl3 & t' & Hrun & Hlen2 & Hcore2).
    { rewrite Z.add_assoc. exact Hcore'. }
    { lia. } { lia. } { rewrite Hlen'. lia. } { lia. } { exact Hcast. }
    { intros it Hit. apply Hrec. right. exact Hit. }
    exists pool2, tbl3, t'. split; [exact Hrun|]. split; [congruence|].
    cbn [length].
    replace (start + i + Z.of_nat (S (length rest)))
      with (start + (i + 1) + Z.of_nat (length rest)) by lia.
    exact Hcore2.
Qed.

Lemma insert_batch_spec (clk : N -> Z) (hist : list op) (R : list slot)
    (s : RadialCircularList) (batch : list item) :
  cache_inv clk hist R s ->
  forallb (fun it : item => castable it.2) batch = true ->
  pool_index s + Z.of_nat (length batch) < 2 ^ 64 ->
  exists b s',
    insert_batch clk batch s = Ret (b, s') /\
    cache_inv clk (hist ++ [InsertBatch batch]) R s' /\
    max_nodes s' = max_nodes s /\
    b = ((total_nodes s + Z.of_nat (length batch) <=? max_nodes s) &&
         (pool_index s + Z.of_nat (length batch) <=? max_nodes s)) /\
    total_nodes s' = (if b then total_nodes s + Z.of_nat (length batch)
                      else total_nodes s).
Proof.
  intros [Hmax Hlen Htot Htp Hidx Hcore Hnuma] Hcast Hwrap.
  assert (Hsub : forall o, o ∈ hist -> o ∈ hist ++ [InsertBatch batch]).
  { intros o Ho. apply elem_of_app. left. exact Ho. }
  set (n := Z.of_nat (length batch)) in *.
  assert (Hn : 0 <= n) by (unfold n; lia).
  unfold insert_batch. fold n.
  rewrite (wrap64_small n) by lia.
  rewrite (wrap64_small (total_nodes s + n)) by lia.
  rewrite (wrap64_small (pool_index s + n)) by lia.
  destruct (max_nodes s <? total_nodes s + n) eqn:E1.
  { apply Z.ltb_lt in E1. exists false, s. split; [reflexivity|].
    split; [|split; [reflexivity|split; [|reflexivity]]].
    - split; try assumption.
      + rewrite total_demand_snoc. cbn [demand]. lia.
      + apply (core_inv_mono clk hist _ R _ _ _ (pool_index s) _ Hsub);
          [lia|exact Hcore].
    - symmetry. apply andb_false_iff. left. apply Z.leb_gt. lia. }
  apply Z.ltb_ge in E1.
  destruct (max_nodes s <? pool_index s + n) eqn:E2.
  { apply Z.ltb_lt in E2. eexists false, _. split; [reflexivity|].
    split; [|split; [reflexivity|split; [|reflexivity]]].
    - split; cbn; try assumption; try lia.
      + rewrite total_demand_snoc. cbn [demand]. fold n. lia.
      + apply (core_inv_mono clk hist _ R _ _ _ (pool_index s) _ Hsub);
          [lia|exact Hcore].
    - symmetry. apply andb_false_iff. right. apply Z.leb_gt. lia. }
  apply Z.ltb_ge in E2.
  destruct (insert_batch_loop_spec clk (hist ++ [InsertBatch batch]) R
              (Z.to_nat (max_nodes s / 10)) (pool_index s) batch 0
              (node_pool s) (midpoints s) (ticks s))
    as (pool' & tbl' & t' & Hrun & Hlen' & Hcore').
  { rewrite Z.add_0_r.
    apply (core_inv_mono clk hist _ R _ _ _ (pool_index s) _ Hsub);
      [lia|exact Hcore]. }
  { lia. } { lia. } { rewrite Hlen. fold n. lia. } { fold n. lia. }
  { exact Hcast. }
  { intros it Hit. exists (InsertBatch batch). split; [|exact Hit].
    apply elem_of_app. right. left. }
  rewrite Hrun. ret_step.
  eexists true, _. split; [reflexivity|].
  split; [|split; [reflexivity|split; [|reflexivity]]].
  - split; cbn; try assumption; try lia.
    + rewrite total_demand_snoc. cbn [demand]. fold n. lia.
    + rewrite Z.add_0_r in Hcore'. exact Hcore'.
  - symmetry. apply andb_true_iff. split; apply Z.leb_le; lia.
Qed.

(** Nodes leave the bucket [p]: those deleted, [del], and those returned,
    [rl]. *)
Lemma core_inv_pop (clk : N -> Z) (hist : list op) (R : list slot)
    (cap : nat) (pool : list Node) (tbl : LockFreeHashTable) (bound : Z)
    (p : nat) (m m' : MidpointNode) (del rl : list slot) :
  core_inv clk hist R cap pool tbl bound ->
  mid_store tbl !! p = Some m ->
  heap_wf (length pool) cap (nodes m') ->
  heap_slots (nodes m) ≡ₚ del ++ rl ++ heap_slots (nodes m') ->
  core_inv clk hist (R ++ rl) cap pool
    (mkTable (buckets tbl) (<[p := m']> (mid_store tbl))) bound.
Proof.
  intros [Ht Ho Hf Hn] Hm Hwf' Hperm.
  pose proof Ht as (Hlen & Hheaps & Hptr & Hfun).
  set (tbl' := mkTable _ _).
  assert (Hall : del ++ (all_slots tbl' ++ R ++ rl) ≡ₚ all_slots tbl ++ R).
  { pose proof (all_slots_insert tbl p m m' Hm) as H. fold tbl' in H.
    rewrite Hperm in H.
    assert (H' : all_slots tbl ≡ₚ del ++ rl ++ all_slots tbl').
    { apply (Permutation_app_inv_l (heap_slots (nodes m'))).
      rewrite <- H. solve_Permutation. }
    rewrite H'. solve_Permutation. }
  split.
  - split; [exact Hlen|]. split; [|split].
    + intros m0 Hm0. unfold tbl' in Hm0. cbn [mid_store] in Hm0.
      apply elem_of_insert_inv in Hm0 as [->|Hm0]; [exact Hwf'|].
      apply Hheaps, Hm0.
    + intros b Hb. unfold tbl'. cbn [mid_store]. rewrite length_insert.
      apply Hptr, Hb.
    + exact Hfun.
  - intros b m0 x Hb Hm0 Hx. unfold tbl' in Hm0. cbn [mid_store] in Hm0.
    change (table_nodes tbl') with (table_nodes tbl) in Hb.
    destruct (decide (bn_value b = p)) as [E|E].
    + rewrite E, list_lookup_insert_eq in Hm0 by (eapply lookup_lt_Some, Hm).
      injection Hm0 as <-.
      apply (Ho b m x Hb); [rewrite E; exact Hm|].
      rewrite Hperm, !elem_of_app. auto.
    + rewrite list_lookup_insert_ne in Hm0 by congruence.
      apply (Ho b m0 x Hb Hm0 Hx).
  - intros x Hx. apply Hf. rewrite <- Hall. apply elem_of_app. right.
    exact Hx.
  - rewrite <- Hall in Hn. apply NoDup_app in Hn as (_ & _ & Hn).
    exact Hn.
Qed.

Lemma get_highest_priority_spec (clk : N -> Z) (hist : list op)
    (R : list slot) (s : RadialCircularList) (k : string) :
  cache_inv clk hist R s ->
  exists r s',
    get_highest_priority clk k s = Ret (r, s') /\
    cache_inv clk hist (R ++ option_list r) s' /\
    max_nodes s' = max_nodes s /\
    total_nodes s' = total_nodes s /\
    pool_index s' = pool_index s /\
    node_pool s' = node_pool s /\
    (ticks s <= ticks s')%N /\
    (forall i, r = Some i ->
       exists n, node_pool s !! i = Some n /\
                 inserted_under clk hist k n /\
                 (ticks s < ticks s')%N /\
                 is_expired (now_ns clk (N.pred (ticks s'))) n = false).
Proof.
  intros [Hmax Hlen Htot Htp Hidx Hcore Hnuma].
  pose proof (core_table _ _ _ _ _ _ _ Hcore) as Ht.
  unfold get_highest_priority, get. rewrite Hnuma.
  destruct (load_head_wf _ _ (midpoints s) k Ht) as (chain & Hload & Hchain).
  rewrite Hload. ret_step.
  destruct (find_key k chain) as [p|] eqn:Hfind.
  2:{ exists None, s. split; [reflexivity|]. cbn [option_list].
      rewrite app_nil_r. split; [split; assumption|].
      repeat split; auto. intros i Hi. discriminate. }
  destruct (find_key_Some _ _ _ Hfind) as (b & Hb & Hk & Hv).
  apply (elem_of_table_nodes _ _ _ _ Hchain) in Hb.
  pose proof Ht as (_ & Hheaps & Hptr & _).
  assert (Hp : (p < length (mid_store (midpoints s)))%nat).
  { rewrite <- Hv. apply Hptr, Hb. }
  destruct (lookup_lt_is_Some_2 _ _ Hp) as [m Hm]. rewrite Hm.
  assert (Hwf : heap_wf (length (node_pool s))
                  (Z.to_nat (max_nodes s / 10)) (nodes m)).
  { apply Hheaps. eapply list_elem_of_lookup_2, Hm. }
  destruct (get_highest_priority_node_loop_spec clk (node_pool s) _
              (size_ (nodes m)) (ticks s) m Hwf (le_n _))
    as (r & m' & t' & del & Hrun & Hwf' & Hperm & Ht' & Hlive).
  unfold get_highest_priority_node. rewrite Hrun. ret_step.
  eexists r, _. split; [reflexivity|]. split; [|cbn; repeat split; auto].
  - split; cbn; try assumption; try reflexivity.
    eapply core_inv_pop; eauto.
  - intros i Hi. destruct (Hlive i Hi) as (n & Hn & Hlt & Hexp).
    exists n. split; [exact Hn|]. split; [|auto].
    destruct (core_owner _ _ _ _ _ _ _ Hcore b m i Hb) as (n' & Hn' & Hins).
    + rewrite Hv. exact Hm.
    + rewrite Hperm, Hi, !elem_of_app. right. left. left.
    + rewrite <- Hk. congruence.
Qed.

Lemma get_highest_priority_batch_spec (clk : N -> Z) (hist : list op)
    (ks : list string) :
  forall R s,
    cache_inv clk hist R s ->
    exists rs s',
      get_highest_priority_batch clk ks s = Ret (rs, s') /\
      cache_inv clk hist (R ++ omap id rs) s' /\
      max_nodes s' = max_nodes s.
Proof.
  induction ks as [|k ks IH]; intros R s Hinv.
  - exists [], s. split; [reflexivity|]. cbn. rewrite app_nil_r. auto.
  - cbn [get_highest_priority_batch].
    destruct (get_highest_priority_spec clk hist R s k Hinv)
      as (r & s1 & Hget & Hinv1 & Hmax1 & _).
    rewrite Hget. ret_step.
    destruct (IH _ s1 Hinv1) as (rs & s2 & Hrun & Hinv2 & Hmax2).
    rewrite Hrun. ret_step.
    exists (r :: rs), s2. split; [reflexivity|]. split; [|congruence].
    replace (R ++ omap id (r :: rs)) with ((R ++ option_list r) ++ omap id rs).
    + exact Hinv2.
    + rewrite <- app_assoc. f_equal. destruct r; reflexivity.
Qed.

Lemma cache_inv_mono (clk : N -> Z) (hist : list op) (o : op)
    (R : list slot) (s : RadialCircularList) :
  cache_inv clk hist R s -> cache_inv clk (hist ++ [o]) R s.
Proof.
  intros [Hmax Hlen Htot Htp Hidx Hcore Hnuma]. split; try assumption.
  - rewrite total_demand_snoc. destruct o; cbn [demand]; lia.
  - eapply core_inv_mono; [| |exact Hcore]; [|lia].
    intros o' Ho'. apply elem_of_app. left. exact Ho'.
Qed.

(** One call: it returns and leaves a state of the invariant. *)
Lemma step_spec (clk : N -> Z) (hist : list op) (R : list slot)
    (s : RadialCircularList) (o : op) :
  cache_inv clk hist R s -> valid_op o = true ->
  pool_index s + demand o < 2 ^ 64 ->
  exists r s',
    step clk o s = Ret (r, s') /\
    cache_inv clk (hist ++ [o]) (R ++ returned r) s' /\
    max_nodes s' = max_nodes s.
Proof.
  intros Hinv Hvalid Hwrap. destruct o as [v k p e|batch|k|ks]; cbn [step].
  - cbn in Hvalid. rewrite andb_true_r in Hvalid.
    destruct (insert_spec clk hist R s v k p e Hinv Hvalid Hwrap)
      as (b & s' & Hrun & Hinv' & Hmax & _).
    rewrite Hrun. ret_step. exists (RBool b), s'. cbn. rewrite app_nil_r. auto.
  - destruct (insert_batch_spec clk hist R s batch Hinv Hvalid Hwrap)
      as (b & s' & Hrun & Hinv' & Hmax & _).
    rewrite Hrun. ret_step. exists (RBool b), s'. cbn. rewrite app_nil_r. auto.
  - destruct (get_highest_priority_spec clk hist R s k Hinv)
      as (r & s' & Hrun & Hinv' & Hmax & _).
    rewrite Hrun. ret_step. exists (RNode r), s'. cbn [returned].
    split; [reflexivity|]. split; [|exact Hmax].
    apply cache_inv_mono, Hinv'.
  - destruct (get_highest_priority_batch_spec clk hist ks R s Hinv)
      as (rs & s' & Hrun & Hinv' & Hmax).
    rewrite Hrun. ret_step. exists (RNodes rs), s'. cbn [returned].
    split; [reflexivity|]. split; [|exact Hmax].
    apply cache_inv_mono, Hinv'.
Qed.

(** A sequence of calls whose demand does not wrap the pool index: every
    call returns, and the final state satisfies the invariant. *)
Lemma run_spec (clk : N -> Z) (ops : list op) :
  forall hist R s,
    cache_inv clk hist R s -> valid_ops ops = true ->
    total_demand hist + total_demand ops < 2 ^ 64 ->
    exists rs s',
      run clk ops s = Ret (rs, s') /\
      cache_inv clk (hist ++ ops) (R ++ all_returned rs) s' /\
      max_nodes s' = max_nodes s.
Proof.
  induction ops as [|o ops IH]; intros hist R s Hinv Hvalid Hwrap.
  - exists [], s. split; [reflexivity|]. cbn. rewrite !app_nil_r. auto.
  - cbn [run]. cbn [valid_ops forallb] in Hvalid.
    apply andb_true_iff in Hvalid as [Hv Hvalid].
    change (total_demand (o :: ops)) with (demand o + total_demand ops) in Hwrap.
    pose proof (total_demand_nonneg ops) as Hnn.
    pose proof (inv_pool_idx _ _ _ _ Hinv) as Hidx.
    destruct (step_spec clk hist R s o Hinv Hv) as (r & s1 & Hstep & Hinv1 & Hmax1).
    { lia. }
    rewrite Hstep. ret_step.
    destruct (IH (hist ++ [o]) (R ++ returned r) s1 Hinv1 Hvalid)
      as (rs & s2 & Hrun & Hinv2 & Hmax2).
    { rewrite total_demand_snoc. lia. }
    rewrite Hrun. ret_step.
    exists (r :: rs), s2. split; [reflexivity|]. split; [|congruence].
    rewrite <- app_assoc in Hinv2. cbn [app] in Hinv2.
    unfold all_returned. rewrite bind_cons, app_assoc. exact Hinv2.
Qed.

Lemma new_cache_inv (clk : N -> Z) (max : Z) :
  0 <= max < 2 ^ 64 -> cache_inv clk [] [] (RadialCircularList_new false clk max).
Proof.
  intros Hmax. unfold RadialCircularList_new. split; cbn; try lia.
  - rewrite length_map, length_seq. reflexivity.
  - split.
    + split; [apply length_replicate|]. cbn. split; [|split].
      * intros m Hm. inversion Hm.
      * intros b Hb. unfold table_nodes in Hb. cbn in Hb.
        apply list_elem_of_join in Hb as (l & Hb & Hl).
        apply elem_of_replicate in Hl as [-> _]. inversion Hb.
      * intros b b' Hb. unfold table_nodes in Hb. cbn in Hb.
        apply list_elem_of_join in Hb as (l & Hb & Hl).
        apply elem_of_replicate in Hl as [-> _]. inversion Hb.
    + intros b m x _ Hm. cbn in Hm. discriminate.
    + intros x Hx. cbn in Hx. inversion Hx.
    + cbn. constructor.
Qed.

(** ** The calls by cases, and the two ways of allocating the nodes *)

Lemma insert_inv (clk : N -> Z) (v : float) (k : string) (p : Z) (e : float)
    (s s' : RadialCircularList) (b : bool) :
  insert clk v k p e s = Ret (b, s') ->
  (max_nodes s <= total_nodes s /\ b = false /\ s' = s) \/
  (total_nodes s < max_nodes s /\ max_nodes s <= pool_index s /\ b = false /\
   s' = mkCache (midpoints s) (max_nodes s) (total_nodes s) (node_pool s)
          (wrap64 (pool_index s + 1)) (ticks s) (freed s) (numa_pool s)) \/
  (total_nodes s < max_nodes s /\ pool_index s < max_nodes s /\
   exists pool q tbl1 tbl2,
     write_node clk (ticks s) (node_pool s) (pool_index s) v p e = Ret pool /\
     get_or_create k (Z.to_nat (max_nodes s / 10)) (midpoints s)
       = Ret (q, tbl1) /\
     add_node_at pool q (Z.to_nat (pool_index s)) tbl1 = Ret (b, tbl2) /\
     s' = mkCache tbl2 (max_nodes s)
            (if b then wrap64 (total_nodes s + 1) else total_nodes s)
            pool (wrap64 (pool_index s + 1)) (N.succ (ticks s)) (freed s)
            (numa_pool s)).
Proof.
  unfold insert. intros H.
  destruct (max_nodes s <=? total_nodes s) eqn:E1.
  { apply Z.leb_le in E1. injection H as <- <-. left. auto. }
  apply Z.leb_gt in E1.
  destruct (max_nodes s <=? pool_index s) eqn:E2.
  { apply Z.leb_le in E2. injection H as <- <-. right. left. auto. }
  apply Z.leb_gt in E2. right. right. split; [exact E1|]. split; [exact E2|].
  destruct (write_node clk (ticks s) (node_pool s) (pool_index s) v p e)
    as [pool| | |] eqn:Hw; try discriminate.
  cbn [mbind outcome_bind] in H.
  destruct (get_or_create k (Z.to_nat (max_nodes s / 10)) (midpoints s))
    as [[q tbl1]| | |] eqn:Hg; try discriminate.
  cbn [mbind outcome_bind] in H.
  destruct (add_node_at pool q (Z.to_nat (pool_index s)) tbl1)
    as [[ok tbl2]| | |] eqn:Ha; try discriminate.
  cbn [mbind outcome_bind] in H. injection H as <- <-.
  exists pool, q, tbl1, tbl2. auto.
Qed.

Lemma insert_batch_inv (clk : N -> Z) (batch : list item)
    (s s' : RadialCircularList) (b : bool) (n : Z) :
  n = wrap64 (Z.of_nat (length batch)) ->
  insert_batch clk batch s = Ret (b, s') ->
  (max_nodes s < wrap64 (total_nodes s + n) /\ b = false /\ s' = s) \/
  (wrap64 (total_nodes s + n) <= max_nodes s /\
   max_nodes s < wrap64 (pool_index s + n) /\ b = false /\
   s' = mkCache (midpoints s) (max_nodes s) (total_nodes s) (node_pool s)
          (wrap64 (pool_index s + n)) (ticks s) (freed s) (numa_pool s)) \/
  (wrap64 (total_nodes s + n) <= max_nodes s /\
   wrap64 (pool_index s + n) <= max_nodes s /\ b = true /\
   exists pool tbl t,
     insert_batch_loop clk (Z.to_nat (max_nodes s / 10)) (pool_index s) 0
       batch (node_pool s) (midpoints s) (ticks s) = Ret (pool, tbl, t) /\
     s' = mkCache tbl (max_nodes s) (wrap64 (total_nodes s + n)) pool
            (wrap64 (pool_index s + n)) t (freed s) (numa_pool s)).
Proof.
  intros -> H. unfold insert_batch in H.
  set (n := wrap64 (Z.of_nat (length batch))) in *.
  destruct (max_nodes s <? wrap64 (total_nodes s + n)) eqn:E1.
  { apply Z.ltb_lt in E1. injection H as <- <-. left. auto. }
  apply Z.ltb_ge in E1.
  destruct (max_nodes s <? wrap64 (pool_index s + n)) eqn:E2.
  { apply Z.ltb_lt in E2. injection H as <- <-. right. left. auto. }
  apply Z.ltb_ge in E2. right. right. split; [exact E1|]. split; [exact E2|].
  destruct (insert_batch_loop clk (Z.to_nat (max_nodes s / 10)) (pool_index s)
              0 batch (node_pool s) (midpoints s) (ticks s))
    as [[[pool tbl] t]| | |] eqn:Hl; try discriminate.
  cbn [mbind outcome_bind] in H. injection H as <- <-.
  split; [reflexivity|]. exists pool, tbl, t. auto.
Qed.

Lemma get_highest_priority_inv (clk : N -> Z) (k : string)
    (s s' : RadialCircularList) (r : option slot) :
  get_highest_priority clk k s = Ret (r, s') ->
  (get k (midpoints s) = Ret None /\ r = None /\ s' = s) \/
  (exists p m m' t' del,
     get k (midpoints s) = Ret (Some p) /\
     mid_store (midpoints s) !! p = Some m /\
     get_highest_priority_node (numa_pool s) clk (node_pool s) (ticks s) m
       = Ret (r, m', t', del) /\
     s' = mkCache (mkTable (buckets (midpoints s))
                           (<[p := m']> (mid_store (midpoints s))))
                  (max_nodes s) (total_nodes s) (node_pool s)
                  (pool_index s) t' (freed s ++ del) (numa_pool s)).
Proof.
  unfold get_highest_priority. intros H.
  destruct (get k (midpoints s)) as [[p|]| | |] eqn:Hget; try discriminate;
    cbn [mbind outcome_bind] in H.
  2:{ injection H as <- <-. left. auto. }
  destruct (mid_store (midpoints s) !! p) as [m|] eqn:Hm; [|discriminate].
  destruct (get_highest_priority_node (numa_pool s) clk (node_pool s)
              (ticks s) m)
    as [[[[r1 m1] t1] del1]| | |] eqn:Hloop; try discriminate.
  cbn [mbind outcome_bind] in H. injection H as <- <-.
  right. exists p, m, m1, t1, del1. auto.
Qed.

(** The loop of [get_highest_priority_node] on nodes that came from
    [numa_alloc_onnode]: it does what it does on nodes that came from [new]
    as long as it deletes nothing, and is undefined otherwise. *)
Lemma get_highest_priority_node_loop_numa (clk : N -> Z) (pool : list Node)
    (fuel : nat) (t : N) (m : MidpointNode) (r : option slot)
    (m' : MidpointNode) (t' : N) (del : list slot) :
  get_highest_priority_node_loop fuel false clk pool t m
    = Ret (r, m', t', del) ->
  (del = [] ->
     get_highest_priority_node_loop fuel true clk pool t m
     = Ret (r, m', t', [])) /\
  (del <> [] -> get_highest_priority_node_loop fuel true clk pool t m = UB).
Proof.
  destruct fuel as [|fuel]; cbn [get_highest_priority_node_loop]; intros H.
  - destruct (empty (nodes m)); [|discriminate].
    injection H as <- <- <- <-. split; [reflexivity|congruence].
  - destruct (empty (nodes m)).
    { injection H as <- <- <- <-. split; [reflexivity|congruence]. }
    destruct (pop pool (nodes m)) as [[[i|] h]| | |]; try discriminate;
      cbn [mbind outcome_bind] in *; try discriminate.
    destruct (pool !! i) as [n|]; [|discriminate].
    destruct (is_expired (now_ns clk t) n).
    + destruct (get_highest_priority_node_loop fuel false clk pool (N.succ t)
                  (mkMidpoint h)) as [[[[r1 m1] t1] del1]| | |];
        try discriminate.
      cbn [mbind outcome_bind] in H. injection H as <- <- <- <-.
      split; [discriminate|reflexivity].
    + injection H as <- <- <- <-. split; [reflexivity|congruence].
Qed.

Lemma insert_with_numa (clk : N -> Z) (v : float) (k : string) (p : Z)
    (e : float) (numa : bool) (s s' : RadialCircularList) (b : bool) :
  insert clk v k p e s = Ret (b, s') ->
  insert clk v k p e (with_numa numa s) = Ret (b, with_numa numa s') /\
  freed s' = freed s /\ numa_pool s' = numa_pool s.
Proof.
  intros H.
  destruct (insert_inv _ _ _ _ _ _ _ _ H)
    as [(E1 & -> & ->)|[(E1 & E2 & -> & ->)|
        (E1 & E2 & pool & q & tbl1 & tbl2 & Hw & Hg & Ha & ->)]];
    (split; [|split; reflexivity]); unfold insert;
    cbn [with_numa max_nodes total_nodes pool_index midpoints node_pool ticks
         freed numa_pool].
  - destruct (Z.leb_spec (max_nodes s) (total_nodes s)); [reflexivity|lia].
  - destruct (Z.leb_spec (max_nodes s) (total_nodes s)); [lia|].
    destruct (Z.leb_spec (max_nodes s) (pool_index s)); [reflexivity|lia].
  - destruct (Z.leb_spec (max_nodes s) (total_nodes s)); [lia|].
    destruct (Z.leb_spec (max_nodes s) (pool_index s)); [lia|].
    rewrite Hw. cbn [mbind outcome_bind]. rewrite Hg.
    cbn [mbind outcome_bind]. rewrite Ha. reflexivity.
Qed.

Lemma insert_batch_with_numa (clk : N -> Z) (batch : list item)
    (numa : bool) (s s' : RadialCircularList) (b : bool) :
  insert_batch clk batch s = Ret (b, s') ->
  insert_batch clk batch (with_numa numa s) = Ret (b, with_numa numa s') /\
  freed s' = freed s /\ numa_pool s' = numa_pool s.
Proof.
  intros H.
  destruct (insert_batch_inv _ _ _ _ _ _ eq_refl H)
    as [(E1 & -> & ->)|[(E1 & E2 & -> & ->)|
        (E1 & E2 & -> & pool & tbl & t & Hl & ->)]];
    (split; [|split; reflexivity]); unfold insert_batch;
    cbn [with_numa max_nodes total_nodes pool_index midpoints node_pool ticks
         freed numa_pool].
  - destruct (Z.ltb_spec (max_nodes s)
                (wrap64 (total_nodes s + wrap64 (Z.of_nat (length batch)))));
      [reflexivity|lia].
  - destruct (Z.ltb_spec (max_nodes s)
                (wrap64 (total_nodes s + wrap64 (Z.of_nat (length batch)))));
      [lia|].
    destruct (Z.ltb_spec (max_nodes s)
                (wrap64 (pool_index s + wrap64 (Z.of_nat (length batch)))));
      [reflexivity|lia].
  - destruct (Z.ltb_spec (max_nodes s)
                (wrap64 (total_nodes s + wrap64 (Z.of_nat (length batch)))));
      [lia|].
    destruct (Z.ltb_spec (max_nodes s)
                (wrap64 (pool_index s + wrap64 (Z.of_nat (length batch)))));
      [lia|].
    rewrite Hl. reflexivity.
Qed.

Lemma get_highest_priority_with_numa (clk : N -> Z) (k : string)
    (s s' : RadialCircularList) (r : option slot) :
  numa_pool s = false ->
  get_highest_priority clk k s = Ret (r, s') ->
  numa_pool s' = false /\
  exists del,
    freed s' = freed s ++ del /\
    (del = [] ->
       get_highest_priority clk k (with_numa true s)
       = Ret (r, with_numa true s')) /\
    (del <> [] -> get_highest_priority clk k (with_numa true s) = UB).
Proof.
  intros Hn H.
  destruct (get_highest_priority_inv _ _ _ _ _ H)
    as [(Hget & -> & ->)|(p & m & m' & t' & del & Hget & Hm & Hloop & ->)].
  - split; [exact Hn|]. exists []. rewrite app_nil_r.
    split; [reflexivity|]. split; [|congruence]. intros _.
    unfold get_highest_priority. cbn [with_numa midpoints]. rewrite Hget.
    reflexivity.
  - split; [exact Hn|]. exists del. split; [reflexivity|].
    rewrite Hn in Hloop. unfold get_highest_priority_node in Hloop.
    destruct (get_highest_priority_node_loop_numa _ _ _ _ _ _ _ _ _ Hloop)
      as (Hsame & Hub).
    unfold get_highest_priority, get_highest_priority_node.
    cbn [with_numa midpoints node_pool ticks numa_pool max_nodes total_nodes
         pool_index freed].
    rewrite Hget. cbn [mbind outcome_bind]. rewrite Hm.
    split.
    + intros ->. rewrite (Hsame eq_refl). cbn [mbind outcome_bind].
      rewrite Hn. reflexivity.
    + intros Hd. rewrite (Hub Hd). reflexivity.
Qed.

Lemma get_highest_priority_batch_with_numa (clk : N -> Z)
    (ks : list string) :
  forall s rs s',
    numa_pool s = false ->
    get_highest_priority_batch clk ks s = Ret (rs, s') ->
    numa_pool s' = false /\
    exists del,
      freed s' = freed s ++ del /\
      (del = [] ->
         get_highest_priority_batch clk ks (with_numa true s)
         = Ret (rs, with_numa true s')) /\
      (del <> [] ->
         get_highest_priority_batch clk ks (with_numa true s) = UB).
Proof.
  induction ks as [|k ks IH]; intros s rs s' Hn H.
  - cbn in H. injection H as <- <-. split; [exact Hn|]. exists [].
    rewrite app_nil_r. split; [reflexivity|]. split; [reflexivity|congruence].
  - cbn [get_highest_priority_batch] in H |- *.
    destruct (get_highest_priority clk k s) as [[r s1]| | |] eqn:H1;
      try discriminate.
    cbn [mbind outcome_bind] in H.
    destruct (get_highest_priority_batch clk ks s1) as [[rs1 s2]| | |] eqn:H2;
      try discriminate.
    cbn [mbind outcome_bind] in H. injection H as <- <-.
    destruct (get_highest_priority_with_numa _ _ _ _ _ Hn H1)
      as (Hn1 & del1 & Hf1 & Hs1 & Hu1).
    destruct (IH _ _ _ Hn1 H2) as (Hn2 & del2 & Hf2 & Hs2 & Hu2).
    split; [exact Hn2|]. exists (del1 ++ del2).
    split; [rewrite Hf2, Hf1, app_assoc; reflexivity|].
    destruct del1 as [|x del1].
    + rewrite (Hs1 eq_refl). cbn [mbind outcome_bind app]. split.
      * intros ->. rewrite (Hs2 eq_refl). reflexivity.
      * intros Hd. rewrite (Hu2 Hd). reflexivity.
    + rewrite Hu1 by discriminate. split; [discriminate|reflexivity].
Qed.

Lemma step_with_numa (clk : N -> Z) (o : op) (s s' : RadialCircularList)
    (r : result) :
  numa_pool s = false ->
  step clk o s = Ret (r, s') ->
  numa_pool s' = false /\
  exists del,
    freed s' = freed s ++ del /\
    (del = [] -> step clk o (with_numa true s) = Ret (r, with_numa true s')) /\
    (del <> [] -> step clk o (with_numa true s) = UB).
Proof.
  intros Hn H. destruct o as [v k p e|batch|k|ks]; cbn [step] in H |- *.
  - destruct (insert clk v k p e s) as [[b s1]| | |] eqn:H1; try discriminate.
    cbn [mbind outcome_bind] in H. injection H as <- <-.
    destruct (insert_with_numa _ _ _ _ _ true _ _ _ H1) as (Hs & Hf & Hn1).
    split; [congruence|]. exists []. rewrite app_nil_r.
    split; [exact Hf|]. split; [|congruence]. intros _. rewrite Hs.
    reflexivity.
  - destruct (insert_batch clk batch s) as [[b s1]| | |] eqn:H1;
      try discriminate.
    cbn [mbind outcome_bind] in H. injection H as <- <-.
    destruct (insert_batch_with_numa _ _ true _ _ _ H1) as (Hs & Hf & Hn1).
    split; [congruence|]. exists []. rewrite app_nil_r.
    split; [exact Hf|]. split; [|congruence]. intros _. rewrite Hs.
    reflexivity.
  - destruct (get_highest_priority clk k s) as [[r1 s1]| | |] eqn:H1;
      try discriminate.
    cbn [mbind outcome_bind] in H. injection H as <- <-.
    destruct (get_highest_priority_with_numa _ _ _ _ _ Hn H1)
      as (Hn1 & del & Hf & Hs & Hu).
    split; [exact Hn1|]. exists del. split; [exact Hf|]. split.
    + intros Hd. rewrite (Hs Hd). reflexivity.
    + intros Hd. rewrite (Hu Hd). reflexivity.
  - destruct (get_highest_priority_batch clk ks s) as [[rs1 s1]| | |] eqn:H1;
      try discriminate.
    cbn [mbind outcome_bind] in H. injection H as <- <-.
    destruct (get_highest_priority_batch_with_numa _ _ _ _ _ Hn H1)
      as (Hn1 & del & Hf & Hs & Hu).
    split; [exact Hn1|]. exists del. split; [exact Hf|]. split.
    + intros Hd. rewrite (Hs Hd). reflexivity.
    + intros Hd. rewrite (Hu Hd). reflexivity.
Qed.

Lemma run_with_numa (clk : N -> Z) (ops : list op) :
  forall s rs s',
    numa_pool s = false ->
    run clk ops s = Ret (rs, s') ->
    exists del,
      freed s' = freed s ++ del /\
      (del = [] -> run clk ops (with_numa true s) = Ret (rs, with_numa true s')) /\
      (del <> [] -> run clk ops (with_numa true s) = UB).
Proof.
  induction ops as [|o ops IH]; intros s rs s' Hn H.
  - cbn in H. injection H as <- <-. exists []. rewrite app_nil_r.
    split; [reflexivity|]. split; [reflexivity|congruence].
  - cbn [run] in H |- *.
    destruct (step clk o s) as [[r s1]| | |] eqn:H1; try discriminate.
    cbn [mbind outcome_bind] in H.
    destruct (run clk ops s1) as [[rs1 s2]| | |] eqn:H2; try discriminate.
    cbn [mbind outcome_bind] in H. injection H as <- <-.
    destruct (step_with_numa _ _ _ _ _ Hn H1) as (Hn1 & del1 & Hf1 & Hs1 & Hu1).
    destruct (IH _ _ _ Hn1 H2) as (del2 & Hf2 & Hs2 & Hu2).
    exists (del1 ++ del2).
    split; [rewrite Hf2, Hf1, app_assoc; reflexivity|].
    destruct del1 as [|x del1].
    + rewrite (Hs1 eq_refl). cbn [mbind outcome_bind app]. split.
      * intros ->. rewrite (Hs2 eq_refl). reflexivity.
      * intros Hd. rewrite (Hu2 Hd). reflexivity.
    + rewrite Hu1 by discriminate. split; [discriminate|reflexivity].
Qed.

Lemma with_numa_same (s : RadialCircularList) :
  with_numa (numa_pool s) s = s.
Proof. destruct s. reflexivity. Qed.

(** A state reached on either cache is, up to the way its nodes were
    allocated, a state reached on the cache built without NUMA. *)
Lemma run_reached (numa : bool) (clk : N -> Z) (max : Z) (ops : list op)
    (rs : list result) (s : RadialCircularList) :
  0 <= max < 2 ^ 64 -> valid_ops ops = true -> total_demand ops < 2 ^ 64 ->
  run clk ops (RadialCircularList_new numa clk max) = Ret (rs, s) ->
  run clk ops (RadialCircularList_new false clk max)
    = Ret (rs, with_numa false s) /\
  cache_inv clk ops (all_returned rs) (with_numa false s) /\
  max_nodes s = max /\ numa_pool s = numa.
Proof.
  intros Hmax Hvalid Hwrap Hrun.
  destruct (run_spec clk ops [] [] _ (new_cache_inv clk max Hmax) Hvalid)
    as (rs0 & s0 & Hrun0 & Hinv0 & Hm0).
  { change (total_demand []) with 0. lia. }
  cbn [app] in Hinv0.
  change (max_nodes (RadialCircularList_new false clk max)) with max in Hm0.
  pose proof (inv_numa _ _ _ _ Hinv0) as Hn0.
  assert (E0 : with_numa false s0 = s0)
    by (rewrite <- Hn0 at 1; apply with_numa_same).
  destruct numa.
  - destruct (run_with_numa clk ops (RadialCircularList_new false clk max)
                rs0 s0 eq_refl Hrun0) as (del & _ & Hs & Hu).
    change (with_numa true (RadialCircularList_new false clk max))
      with (RadialCircularList_new true clk max) in Hs, Hu.
    destruct del as [|x del].
    + rewrite (Hs eq_refl) in Hrun. injection Hrun as <- <-.
      change (with_numa false (with_numa true s0)) with (with_numa false s0).
      rewrite E0. auto.
    + rewrite Hu in Hrun by discriminate. discriminate.
  - rewrite Hrun0 in Hrun. injection Hrun as <- <-. rewrite E0. auto.
Qed.

(** ** Retrieval *)





(** ** Capacity *)






(** C3, as the code has it: on a cache of capacity 3 the first of four
    inserts already returns false. *)
Lemma four_inserts_capacity_3_example :
  exists s,
    run (fun _ => 0)
      [Insert 100 "AAPL" 1 60; Insert 101 "AAPL" 3 60;
       Insert 100.5 "AAPL" 2 60; Insert 102 "AAPL" 4 60]
      (RadialCircularList_new false (fun _ => 0) 3)
    = Ret ([RBool false; RBool false; RBool false; RBool false], s).
Proof. eexists. vm_compute. reflexivity. Qed.

Lemma insert_small_cache (clk : N -> Z) (hist : list op) (R : list slot)
    (s : RadialCircularList) (v : float) (k : string) (p : Z) (e : float) :
  cache_inv clk hist R s -> castable e = true ->
  max_nodes s < 10 -> pool_index s + 1 < 2 ^ 64 ->
  exists s',
    insert clk v k p e s = Ret (false, s') /\
    cache_inv clk (hist ++ [Insert v k p e]) R s' /\
    max_nodes s' = max_nodes s /\
    total_nodes s' = total_nodes s /\
    pool_index s' = (if max_nodes s <=? total_nodes s then pool_index s
                     else pool_index s + 1).
Proof.
  intros Hinv Hcast Hsmall Hwrap.
  destruct (insert_spec clk hist R s v k p e Hinv Hcast Hwrap)
    as (b & s' & Hrun & Hinv' & Hmax & Hpool & Htot & Hb).
  destruct b; [specialize (Hb eq_refl); lia|].
  exists s'. auto.
Qed.

(** C3, amended: on a cache of capacity 3, built with or without NUMA,
    four successive inserts with valid arguments all return false: the
    buckets have capacity 3 / 10 = 0, so the first three pushes fail, and
    the fourth call finds the pool index at [max_nodes].  The pool index
    ends at 4 and [total_nodes] stays 0. *)
Theorem four_inserts_capacity_3 (numa : bool) (clk : N -> Z)
    (v1 v2 v3 v4 : float) (k1 k2 k3 k4 : string) (p1 p2 p3 p4 : Z)
    (e1 e2 e3 e4 : float) :
  castable e1 = true -> castable e2 = true ->
  castable e3 = true -> castable e4 = true ->
  exists s,
    run clk [Insert v1 k1 p1 e1; Insert v2 k2 p2 e2;
             Insert v3 k3 p3 e3; Insert v4 k4 p4 e4]
      (RadialCircularList_new numa clk 3)
    = Ret ([RBool false; RBool false; RBool false; RBool false], s) /\
    pool_index s = 4 /\ total_nodes s = 0.
Proof.
  intros H1 H2 H3 H4.
  change (RadialCircularList_new numa clk 3)
    with (with_numa numa (RadialCircularList_new false clk 3)).
  pose proof (new_cache_inv clk 3 ltac:(lia)) as I0.
  set (s0 := RadialCircularList_new false clk 3) in *.
  assert (M0 : max_nodes s0 = 3) by reflexivity.
  assert (T0 : total_nodes s0 = 0) by reflexivity.
  assert (P0 : pool_index s0 = 0) by reflexivity.
  destruct (insert_small_cache clk _ _ s0 v1 k1 p1 e1 I0 H1)
    as (s1 & R1 & I1 & M1 & T1 & P1); [lia..|].
  rewrite M0, T0, P0 in P1. cbn in P1.
  destruct (insert_small_cache clk _ _ s1 v2 k2 p2 e2 I1 H2)
    as (s2 & R2 & I2 & M2 & T2 & P2); [lia..|].
  rewrite M1, M0, T1, T0, P1 in P2. cbn in P2.
  destruct (insert_small_cache clk _ _ s2 v3 k3 p3 e3 I2 H3)
    as (s3 & R3 & I3 & M3 & T3 & P3); [lia..|].
  rewrite M2, M1, M0, T2, T1, T0, P2 in P3. cbn in P3.
  destruct (insert_small_cache clk _ _ s3 v4 k4 p4 e4 I3 H4)
    as (s4 & R4 & I4 & M4 & T4 & P4); [lia..|].
  rewrite M3, M2, M1, M0, T3, T2, T1, T0, P3 in P4. cbn in P4.
  apply (insert_with_numa _ _ _ _ _ numa) in R1 as (R1 & _).
  apply (insert_with_numa _ _ _ _ _ numa) in R2 as (R2 & _).
  apply (insert_with_numa _ _ _ _ _ numa) in R3 as (R3 & _).
  apply (insert_with_numa _ _ _ _ _ numa) in R4 as (R4 & _).
  exists (with_numa numa s4). cbn [run step]. rewrite R1. ret_step.
  rewrite R2. ret_step. rewrite R3. ret_step. rewrite R4. ret_step.
  split; [reflexivity|]. split; [exact P4|].
  cbn [with_numa total_nodes]. congruence.
Qed.

(** The four inserts of the capacity scenario, on any clock. *)
Lemma four_inserts_capacity_3_witness :
  exists s,
    run (fun t => Z.of_N t)
      [Insert 100 "AAPL" 1 60; Insert 101 "AAPL" 3 60;
       Insert 100.5 "MSFT" 2 60; Insert 102 "GOOG" 4 60]
      (RadialCircularList_new true (fun t => Z.of_N t) 3)
    = Ret ([RBool false; RBool false; RBool false; RBool false], s) /\
    pool_index s = 4 /\ total_nodes s = 0.
Proof.
  apply (four_inserts_capacity_3 true (fun t => Z.of_N t)); reflexivity.
Defined.

(** A cache built with [max_nodes < 10] has buckets of capacity 0: its
    retrievals find every bucket empty and delete nothing. *)
Lemma get_highest_priority_small_cache (clk : N -> Z) (hist : list op)
    (R : list slot) (s s' : RadialCircularList) (k : string)
    (r : option slot) :
  cache_inv clk hist R s -> max_nodes s < 10 ->
  get_highest_priority clk k s = Ret (r, s') -> freed s' = freed s.
Proof.
  intros Hinv Hsmall Hget.
  destruct (get_highest_priority_inv _ _ _ _ _ Hget)
    as [(_ & _ & ->)|(p & m & m' & t' & del & _ & Hm & Hloop & ->)];
    [reflexivity|].
  cbn [freed].
  destruct (core_table _ _ _ _ _ _ _ (inv_core _ _ _ _ Hinv))
    as (_ & Hheaps & _).
  destruct (Hheaps m (list_elem_of_lookup_2 _ _ _ Hm))
    as (_ & Hlen & Hsz & _).
  pose proof (inv_max _ _ _ _ Hinv) as Hmx.
  rewrite Z.div_small in Hlen by lia. change (Z.to_nat 0) with 0%nat in Hlen.
  assert (E : size_ (nodes m) = 0%nat) by lia.
  unfold get_highest_priority_node in Hloop. rewrite E in Hloop.
  cbn [get_highest_priority_node_loop] in Hloop. unfold empty in Hloop.
  rewrite E in Hloop. cbn in Hloop. injection Hloop as _ _ _ <-.
  apply app_nil_r.
Qed.

Lemma get_highest_priority_batch_small_cache (clk : N -> Z)
    (hist : list op) (ks : list string) :
  forall R s rs s',
    cache_inv clk hist R s -> max_nodes s < 10 ->
    get_highest_priority_batch clk ks s = Ret (rs, s') -> freed s' = freed s.
Proof.
  induction ks as [|k ks IH]; intros R s rs s' Hinv Hsmall H.
  - cbn in H. injection H as _ <-. reflexivity.
  - cbn [get_highest_priority_batch] in H.
    destruct (get_highest_priority_spec clk hist R s k Hinv)
      as (r & s1 & Hget & Hinv1 & Hmax1 & _).
    rewrite Hget in H. cbn [mbind outcome_bind] in H.
    destruct (get_highest_priority_batch clk ks s1) as [[rs1 s2]| | |] eqn:H2;
      try discriminate.
    cbn [mbind outcome_bind] in H. injection H as _ <-.
    rewrite (IH _ _ _ _ Hinv1 ltac:(lia) H2).
    exact (get_highest_priority_small_cache _ _ _ _ _ _ _ Hinv Hsmall Hget).
Qed.

Lemma run_small_cache (clk : N -> Z) (ops : list op) :
  forall hist R s rs s',
    cache_inv clk hist R s -> max_nodes s < 10 -> valid_ops ops = true ->
    total_demand hist + total_demand ops < 2 ^ 64 ->
    run clk ops s = Ret (rs, s') -> freed s' = freed s.
Proof.
  induction ops as [|o ops IH]; intros hist R s rs s' Hinv Hsmall Hvalid Hwrap H.
  - cbn in H. injection H as _ <-. reflexivity.
  - cbn [run] in H. cbn [valid_ops forallb] in Hvalid.
    apply andb_true_iff in Hvalid as [Hv Hvalid].
    change (total_demand (o :: ops)) with (demand o + total_demand ops) in Hwrap.
    pose proof (total_demand_nonneg ops) as Hnn.
    pose proof (inv_pool_idx _ _ _ _ Hinv) as Hidx.
    destruct (step_spec clk hist R s o Hinv Hv) as (r & s1 & Hstep & Hinv1 & Hmax1).
    { lia. }
    rewrite Hstep in H. cbn [mbind outcome_bind] in H.
    destruct (run clk ops s1) as [[rs1 s2]| | |] eqn:H2; try discriminate.
    cbn [mbind outcome_bind] in H. injection H as _ <-.
    rewrite (IH (hist ++ [o]) _ s1 _ _ Hinv1 ltac:(lia) Hvalid
               ltac:(rewrite total_demand_snoc; lia) H2).
    destruct o as [v k p e|batch|k|ks]; cbn [step] in Hstep.
    + destruct (insert clk v k p e s) as [[b s0]| | |] eqn:H1;
        try discriminate.
      cbn [mbind outcome_bind] in Hstep. injection Hstep as _ <-.
      exact (proj1 (proj2 (insert_with_numa _ _ _ _ _ false _ _ _ H1))).
    + destruct (insert_batch clk batch s) as [[b s0]| | |] eqn:H1;
        try discriminate.
      cbn [mbind outcome_bind] in Hstep. injection Hstep as _ <-.
      exact (proj1 (proj2 (insert_batch_with_numa _ _ false _ _ _ H1))).
    + destruct (get_highest_priority clk k s) as [[r1 s0]| | |] eqn:H1;
        try discriminate.
      cbn [mbind outcome_bind] in Hstep. injection Hstep as _ <-.
      exact (get_highest_priority_small_cache _ _ _ _ _ _ _ Hinv Hsmall H1).
    + destruct (get_highest_priority_batch clk ks s) as [[rs0 s0]| | |] eqn:H1;
        try discriminate.
      cbn [mbind outcome_bind] in Hstep. injection Hstep as _ <-.
      exact (get_highest_priority_batch_small_cache _ _ _ _ _ _ _ Hinv Hsmall
               H1).
Qed.

(** C10, as the code has it: on a cache of capacity 0 the call returns false
    at the [total_nodes] check, before the fetch-add, and the pool index
    stays where it was. *)
Lemma insert_capacity_0_keeps_pool_index :
  exists s',
    insert (fun _ => 0) 100 "AAPL" 1 60 (RadialCircularList_new false (fun _ => 0) 0)
      = Ret (false, s') /\
    pool_index (RadialCircularList_new false (fun _ => 0) 0) = 0 /\
    pool_index s' = 0.
Proof.
  eexists. split; [vm_compute; reflexivity|]. split; reflexivity.
Qed.

(** C10, amended: on a cache built with [max_nodes < 10], with or without
    NUMA, whatever calls came before (they all return: no bucket ever holds
    a node, so no retrieval deletes one), [insert] returns false; every
    bucket has capacity 0.  The pool index advances by one when the call
    passes the [total_nodes] check and is left unchanged when
    [total_nodes >= max_nodes]. *)
Theorem insert_fails_below_capacity_10 (numa : bool) (clk : N -> Z)
    (max : Z) (ops : list op) (v : float) (k : string) (p : Z) (e : float) :
  0 <= max < 10 -> valid_ops ops = true -> total_demand ops + 1 < 2 ^ 64 ->
  castable e = true ->
  exists rs s s',
    run clk ops (RadialCircularList_new numa clk max) = Ret (rs, s) /\
    insert clk v k p e s = Ret (false, s') /\
    (forall m, m ∈ mid_store (midpoints s') -> capacity (nodes m) = 0%nat) /\
    pool_index s' = (if total_nodes s <? max then wrap64 (pool_index s + 1)
                     else pool_index s).
Proof.
  intros Hmax Hvalid Hwrap Hcast.
  pose proof (new_cache_inv clk max ltac:(lia)) as Hinv0.
  destruct (run_spec clk ops [] [] _ Hinv0 Hvalid)
    as (rs & s & Hrun & Hinv & Hm).
  { change (total_demand []) with 0. lia. }
  cbn [max_nodes RadialCircularList_new] in Hm.
  cbn [app] in Hinv.
  pose proof (inv_pool_idx _ _ _ _ Hinv) as Hidx.
  destruct (insert_small_cache clk _ _ s v k p e Hinv Hcast)
    as (s' & Hins & Hinv' & Hm' & _ & Hpool); [lia..|].
  pose proof (run_small_cache clk ops [] [] _ rs s Hinv0 ltac:(cbn; lia)
                Hvalid ltac:(change (total_demand []) with 0; lia) Hrun)
    as Hfreed.
  change (freed (RadialCircularList_new false clk max)) with (@nil slot)
    in Hfreed.
  destruct (run_with_numa clk ops (RadialCircularList_new false clk max)
              rs s eq_refl Hrun) as (del & Hdel & Hsame & _).
  change (freed (RadialCircularList_new false clk max)) with (@nil slot)
    in Hdel.
  cbn [app] in Hdel. rewrite Hfreed in Hdel. symmetry in Hdel.
  specialize (Hsame Hdel).
  change (with_numa true (RadialCircularList_new false clk max))
    with (RadialCircularList_new true clk max) in Hsame.
  assert (Hrun' : run clk ops (RadialCircularList_new numa clk max)
                  = Ret (rs, with_numa numa s)).
  { destruct numa; [exact Hsame|].
    rewrite <- (inv_numa _ _ _ _ Hinv) at 2. rewrite with_numa_same.
    exact Hrun. }
  destruct (insert_with_numa _ _ _ _ _ numa _ _ _ Hins) as (Hins' & _).
  exists rs, (with_numa numa s), (with_numa numa s').
  split; [exact Hrun'|]. split; [exact Hins'|].
  cbn [with_numa midpoints pool_index total_nodes]. split.
  - intros m Hin.
    destruct (core_table _ _ _ _ _ _ _ (inv_core _ _ _ _ Hinv'))
      as (_ & Hheaps & _).
    destruct (Hheaps m Hin) as (Hcap & _). rewrite Hcap, Hm', Hm.
    rewrite Z.div_small by lia. reflexivity.
  - rewrite Hpool, Hm. rewrite wrap64_small by lia.
    destruct (Z.leb_spec max (total_nodes s)), (Z.ltb_spec (total_nodes s) max);
      try reflexivity; lia.
Qed.

(** A cache of capacity 5 after an insert and a batch that raises
    [total_nodes] to 2. *)
Lemma insert_fails_below_capacity_10_witness :
  exists rs s s',
    run (fun t => Z.of_N t)
      [Insert 100 "AAPL" 1 60;
       InsertBatch [(101%float, "AAPL", 3, 60%float);
                    (100.5%float, "MSFT", 2, 60%float)]]
      (RadialCircularList_new true (fun t => Z.of_N t) 5) = Ret (rs, s) /\
    insert (fun t => Z.of_N t) 102 "GOOG" 4 60 s = Ret (false, s') /\
    (forall m, m ∈ mid_store (midpoints s') -> capacity (nodes m) = 0%nat) /\
    pool_index s' = (if total_nodes s <? 5 then wrap64 (pool_index s + 1)
                     else pool_index s).
Proof.
  apply (insert_fails_below_capacity_10 true (fun t => Z.of_N t) 5).
  - lia.
  - reflexivity.
  - reflexivity.
  - reflexivity.
Defined.

(** ** Batches *)

Lemma insert_batch_after_checks (clk : N -> Z) (hist : list op)
    (R : list slot) (s : RadialCircularList) (items : list item) :
  cache_inv clk hist R s ->
  valid_op (InsertBatch items) = true ->
  total_nodes s + Z.of_nat (length items) <= max_nodes s ->
  pool_index s + Z.of_nat (length items) <= max_nodes s ->
  exists s',
    insert_batch clk items s = Ret (true, s') /\
    total_nodes s' = total_nodes s + Z.of_nat (length items) /\
    pool_index s' = pool_index s + Z.of_nat (length items).
Proof.
  intros Hinv Hitems Hc1 Hc2.
  pose proof (inv_max _ _ _ _ Hinv) as Hmx.
  destruct (insert_batch_spec clk _ _ s items Hinv Hitems)
    as (b & s' & Hb & Hinv' & _ & Hres & Htot); [lia|].
  assert (b = true) as ->.
  { rewrite Hres. apply andb_true_iff. split; apply Z.leb_le; assumption. }
  exists s'. split; [exact Hb|]. split; [exact Htot|].
  unfold insert_batch in Hb.
  pose proof (inv_total _ _ _ _ Hinv) as Ht.
  pose proof (inv_total_pool _ _ _ _ Hinv) as Htp.
  rewrite (wrap64_small (Z.of_nat (length items))) in Hb by lia.
  rewrite (wrap64_small (total_nodes s + _)) in Hb by lia.
  rewrite (wrap64_small (pool_index s + _)) in Hb by lia.
  destruct (max_nodes s <? total_nodes s + Z.of_nat (length items));
    [discriminate|].
  destruct (max_nodes s <? pool_index s + Z.of_nat (length items));
    [discriminate|].
  destruct (insert_batch_loop _ _ _ _ _ _ _ _) as [[[pool tbl] t]| | |];
    try discriminate.
  cbn in Hb. injection Hb as <-. reflexivity.
Qed.

(** C6: in a state reached by any sequence of calls, on a cache built with
    or without NUMA, a batch that passes both capacity checks (there is room
    for it under [total_nodes] and in the pool) makes [insert_batch] return
    true and adds its length to [total_nodes]; the outcome of the pushes
    plays no part. *)
Theorem insert_batch_true_after_checks (numa : bool) (clk : N -> Z)
    (max : Z) (ops : list op) (rs : list result) (s : RadialCircularList)
    (items : list item) :
  0 <= max < 2 ^ 64 -> valid_ops ops = true -> total_demand ops < 2 ^ 64 ->
  run clk ops (RadialCircularList_new numa clk max) = Ret (rs, s) ->
  valid_op (InsertBatch items) = true ->
  total_nodes s + Z.of_nat (length items) <= max_nodes s ->
  pool_index s + Z.of_nat (length items) <= max_nodes s ->
  exists s',
    insert_batch clk items s = Ret (true, s') /\
    total_nodes s' = total_nodes s + Z.of_nat (length items) /\
    pool_index s' = pool_index s + Z.of_nat (length items).
Proof.
  intros Hmax Hvalid Hwrap Hrun Hitems Hc1 Hc2.
  destruct (run_reached numa clk max ops rs s Hmax Hvalid Hwrap Hrun)
    as (_ & Hinv & _ & _).
  destruct (insert_batch_after_checks clk _ _ _ items Hinv Hitems Hc1 Hc2)
    as (s0 & Hb & Htot & Hidx).
  destruct (insert_batch_with_numa clk items (numa_pool s) _ _ _ Hb)
    as (Hs & _ & _).
  change (with_numa (numa_pool s) (with_numa false s))
    with (with_numa (numa_pool s) s) in Hs.
  rewrite with_numa_same in Hs.
  exists (with_numa (numa_pool s) s0). split; [exact Hs|].
  split; [exact Htot|exact Hidx].
Qed.

(** A batch of two records on a cache of capacity 5, whose buckets have
    capacity 0: both pushes fail and the call returns true. *)
Lemma insert_batch_true_after_checks_witness :
  exists s',
    insert_batch (fun t => Z.of_N t)
      [(100%float, "AAPL", 1, 60%float); (101%float, "MSFT", 3, 60%float)]
      (RadialCircularList_new true (fun t => Z.of_N t) 5) = Ret (true, s') /\
    total_nodes s' =
      total_nodes (RadialCircularList_new true (fun t => Z.of_N t) 5) + 2 /\
    pool_index s' =
      pool_index (RadialCircularList_new true (fun t => Z.of_N t) 5) + 2.
Proof.
  apply (insert_batch_true_after_checks true (fun t => Z.of_N t) 5 [] []).
  - lia.
  - reflexivity.
  - reflexivity.
  - reflexivity.
  - reflexivity.
  - cbn. lia.
  - cbn. lia.
Defined.

(** The records of that batch are lost: no bucket holds a node afterwards
    and a retrieval finds nothing. *)
Lemma insert_batch_drops_silently :
  exists s' s'',
    insert_batch (fun t => Z.of_N t)
      [(100%float, "AAPL", 1, 60%float); (101%float, "MSFT", 3, 60%float)]
      (RadialCircularList_new false (fun t => Z.of_N t) 5) = Ret (true, s') /\
    all_slots (midpoints s') = [] /\
    get_highest_priority (fun t => Z.of_N t) "AAPL" s' = Ret (None, s'').
Proof.
  eexists _, _. split; [vm_compute; reflexivity|].
  split; [reflexivity|]. vm_compute. reflexivity.
Qed.


(** ** The priority scenario *)

(** One call of the sequence, evaluated on the state reached so far; [tac]
    settles the expiry checks the evaluation stops at. *)
Ltac run_step tac :=
  match goal with
  | |- context [step ?clk ?o ?s] =>
      let E := fresh "E" in
      eassert (E : step clk o s = Ret _);
      [ lazy -[now_ns is_expired]; tac; reflexivity
      | rewrite E; clear E; ret_step ]
  end.

(** C2: on a cache of the default capacity, 1000, three inserts under
    "AAPL" with priorities 1, 3 and 2 and lifetimes of 60 s return true, and
    four retrievals return the record of value 101.0 and priority 3, then
    that of priority 2, then that of priority 1, then a null pointer,
    provided no record expires: each clock reading of a retrieval is at most
    60 s after each reading of an insert.  (The constructor takes the
    readings 0 to 999, the inserts the next three, the retrievals the three
    after those.)  No node is deleted, so the scenario runs alike with and
    without NUMA. *)
Theorem priority_scenario (numa : bool) (clk : N -> Z) :
  (forall t t', (1000 <= t < 1003)%N -> (1003 <= t' < 1006)%N ->
     wrap64 (now_ns clk t' - now_ns clk t) <= 60000000000) ->
  exists s,
    run clk
      [Insert 100 "AAPL" 1 60; Insert 101 "AAPL" 3 60;
       Insert 100.5 "AAPL" 2 60;
       GetHighestPriority "AAPL"; GetHighestPriority "AAPL";
       GetHighestPriority "AAPL"; GetHighestPriority "AAPL"]
      (RadialCircularList_new numa clk 1000)
    = Ret ([RBool true; RBool true; RBool true;
            RNode (Some 1%nat); RNode (Some 2%nat); RNode (Some 0%nat);
            RNode None], s) /\
    (value <$> node_pool s !! 1%nat) = Some 101%float /\
    (priority <$> node_pool s !! 1%nat) = Some 3 /\
    (priority <$> node_pool s !! 2%nat) = Some 2 /\
    (priority <$> node_pool s !! 0%nat) = Some 1.
Proof.
  intros Hlive.
  assert (L : forall t t' v p,
             (1000 <=? t)%N && (t <? 1003)%N &&
             (1003 <=? t')%N && (t' <? 1006)%N = true ->
             is_expired (now_ns clk t') (mkNode v p (now_ns clk t) 60000000000)
             = false).
  { intros t t' v p H.
    apply andb_true_iff in H as [H H4]. apply andb_true_iff in H as [H H3].
    apply andb_true_iff in H as [H1 H2].
    apply N.leb_le in H1, H3. apply N.ltb_lt in H2, H4.
    unfold is_expired. cbn [timestamp_ns expiry_time_ns].
    apply Z.ltb_ge, Hlive; lia. }
  eexists. cbn [run].
  run_step idtac. run_step idtac. run_step idtac.
  run_step ltac:(rewrite (L 1001 1003)%N by (vm_compute; reflexivity)).
  run_step ltac:(rewrite (L 1002 1004)%N by (vm_compute; reflexivity)).
  run_step ltac:(rewrite (L 1000 1005)%N by (vm_compute; reflexivity)).
  run_step idtac.
  split; [reflexivity|]. repeat split; reflexivity.
Qed.

(** The scenario on a clock that advances by one nanosecond per reading. *)
Lemma priority_scenario_witness :
  exists s,
    run (fun t => Z.of_N t)
      [Insert 100 "AAPL" 1 60; Insert 101 "AAPL" 3 60;
       Insert 100.5 "AAPL" 2 60;
       GetHighestPriority "AAPL"; GetHighestPriority "AAPL";
       GetHighestPriority "AAPL"; GetHighestPriority "AAPL"]
      (RadialCircularList_new false (fun t => Z.of_N t) 1000)
    = Ret ([RBool true; RBool true; RBool true;
            RNode (Some 1%nat); RNode (Some 2%nat); RNode (Some 0%nat);
            RNode None], s) /\
    (value <$> node_pool s !! 1%nat) = Some 101%float /\
    (priority <$> node_pool s !! 1%nat) = Some 3 /\
    (priority <$> node_pool s !! 2%nat) = Some 2 /\
    (priority <$> node_pool s !! 0%nat) = Some 1.
Proof.
  apply (priority_scenario false (fun t => Z.of_N t)).
  intros t t' Ht Ht'. unfold now_ns, wrap64.
  rewrite (Z.mod_small (Z.of_N t)) by lia.
  rewrite (Z.mod_small (Z.of_N t')) by lia.
  rewrite Z.mod_small by lia. lia.
Defined.

(** ** Two racing calls of [get_or_create] *)

(** C4, as the code has it: two calls of [get_or_create "AAPL"] on an empty
    index, interleaved as [Race.lost_race], both return, with different buckets;
    the thread whose compare-exchange failed did not look for the key again,
    and the shard of "AAPL" ends with two reachable bucket nodes for that
    key. *)
Theorem get_or_create_race_two_buckets :
  exists sh,
    Race.exec "AAPL" "AAPL" Race.lost_race (Race.init, Race.Start, Race.Start)
      = (sh, Race.Done 0, Race.Done 1) /\
    Race.exec "AAPL" "AAPL" (take 11 Race.lost_race)
      (Race.init, Race.Start, Race.Start)
      = (Race.mkShared (<[11%nat := Some 0%nat]> (Race.heads Race.init))
           [Race.mkNode "AAPL" None; Race.mkNode "AAPL" None],
         Race.Done 0, Race.CompareExchange 1 None) /\
    Race.reachable_keys "AAPL" sh = ["AAPL"; "AAPL"].
Proof.
  eexists. split; [vm_compute; reflexivity|].
  split; vm_compute; reflexivity.
Qed.

(** One thread at a time, [get_or_create] on a key that has a bucket returns
    that bucket and allocates nothing. *)
Lemma get_or_create_existing (key : string) (cap : nat)
    (tbl : LockFreeHashTable) (chain : list BucketNode) (p : nat) :
  buckets tbl !! Z.to_nat (hash key) = Some chain ->
  find_key key chain = Some p ->
  get_or_create key cap tbl = Ret (p, tbl).
Proof.
  intros Hc Hf. unfold get_or_create, load_head. rewrite Hc. ret_step.
  rewrite Hf. reflexivity.
Qed.

(** * Further properties of the code *)

(** ** Heap order, one thread at a time *)

Lemma parent_spec (j : nat) :
  (0 < j)%nat ->
  (j = 2 * ((j - 1) / 2) + 1 \/ j = 2 * ((j - 1) / 2) + 2)%nat.
Proof.
  intros H. pose proof (Nat.div_mod_eq (j - 1) 2) as E.
  pose proof (Nat.mod_upper_bound (j - 1) 2 ltac:(lia)) as B. lia.
Qed.

Lemma parent_left (i : nat) : ((2 * i + 1 - 1) / 2)%nat = i.
Proof. pose proof (parent_spec (2 * i + 1) ltac:(lia)). lia. Qed.

Lemma parent_right (i : nat) : ((2 * i + 2 - 1) / 2)%nat = i.
Proof. pose proof (parent_spec (2 * i + 2) ltac:(lia)). lia. Qed.

Lemma cell_priority_swap (pool : list Node) (c : cells) (i j : nat)
    (a b : option slot) (k : nat) :
  i <> j -> c !! i = Some a -> c !! j = Some b ->
  cell_priority pool (<[j := a]> (<[i := b]> c)) k
  = if decide (k = j) then cell_priority pool c i
    else if decide (k = i) then cell_priority pool c j
    else cell_priority pool c k.
Proof.
  intros Hne Ha Hb. unfold cell_priority.
  assert (Hi : (i < length c)%nat) by (eapply lookup_lt_Some, Ha).
  assert (Hj : (j < length c)%nat) by (eapply lookup_lt_Some, Hb).
  destruct (decide (k = j)) as [->|Hkj].
  - rewrite list_lookup_insert_eq by (rewrite length_insert; lia).
    rewrite Ha. reflexivity.
  - rewrite list_lookup_insert_ne by congruence.
    destruct (decide (k = i)) as [->|Hki].
    + rewrite list_lookup_insert_eq by lia. rewrite Hb. reflexivity.
    + rewrite list_lookup_insert_ne by congruence. reflexivity.
Qed.

Lemma load_cell_priority (pool : list Node) (size : nat) (c : cells)
    (i : nat) :
  cells_wf (length pool) size c -> (i < size)%nat ->
  exists x, c !! i = Some (Some x) /\ load c i = Ret (Some x) /\
            priority_of pool (Some x) = Ret (cell_priority pool c i).
Proof.
  intros (_ & Hlive & _) Hi. destruct (Hlive i Hi) as (x & Hx & Hxn).
  destruct (lookup_lt_is_Some_2 pool x Hxn) as [n Hn].
  exists x. unfold load, cell_priority. cbn. rewrite Hx, Hn. auto.
Qed.

Lemma ordered_up_root (pool : list Node) (size : nat) (c : cells) :
  ordered_up pool size c 0 -> heap_ordered pool size c.
Proof. intros [H _] i Hi. apply H; lia. Qed.

Lemma sift_up_loop_ordered (pool : list Node) (size : nat) (fuel : nat) :
  forall index c,
    (index <= fuel)%nat -> (index < size)%nat ->
    cells_wf (length pool) size c ->
    ordered_up pool size c index ->
    exists c', sift_up_loop fuel pool index c = Ret c' /\
               heap_ordered pool size c'.
Proof.
  induction fuel as [|fuel IH]; intros index c Hfuel Hidx Hwf Hord.
  - assert (index = 0)%nat as -> by lia. exists c. split; [reflexivity|].
    apply ordered_up_root, Hord.
  - cbn [sift_up_loop]. destruct (index =? 0)%nat eqn:E.
    { apply Nat.eqb_eq in E as ->. exists c. split; [reflexivity|].
      apply ordered_up_root, Hord. }
    apply Nat.eqb_neq in E.
    pose proof (parent_spec index ltac:(lia)) as Hpar.
    set (parent := ((index - 1) / 2)%nat) in *.
    destruct (load_cell_priority pool size c index Hwf Hidx)
      as (xc & Hc & Lc & Pc).
    destruct (load_cell_priority pool size c parent Hwf ltac:(lia))
      as (xp & Hp & Lp & Pp).
    rewrite Lc. ret_step. rewrite Lp. ret_step.
    rewrite Pp. ret_step. rewrite Pc. ret_step.
    destruct Hord as [H1 H2].
    destruct (cell_priority pool c index <=? cell_priority pool c parent) eqn:Ecmp.
    { apply Z.leb_le in Ecmp. exists c. split; [reflexivity|].
      intros i Hi. destruct (decide (i = index)) as [->|Hne]; [exact Ecmp|].
      apply H1; assumption. }
    apply Z.leb_gt in Ecmp.
    rewrite (cas_success c parent (Some xp) (Some xc) Hp). ret_step.
    rewrite (cas_success (<[parent := Some xc]> c) index (Some xc) (Some xp))
      by (rewrite list_lookup_insert_ne by lia; exact Hc).
    ret_step.
    apply IH; [lia|lia|apply swap_cells_wf; try assumption; lia|].
    assert (Hsw : forall k,
              cell_priority pool (<[index := Some xp]> (<[parent := Some xc]> c)) k
              = if decide (k = index) then cell_priority pool c parent
                else if decide (k = parent) then cell_priority pool c index
                else cell_priority pool c k).
    { intros k. apply cell_priority_swap; [lia|assumption..]. }
    split.
    + intros i Hi Hne. rewrite !Hsw.
      pose proof (parent_spec i ltac:(lia)) as Hpi.
      destruct (decide (i = index)) as [->|Hii].
      * fold parent. rewrite decide_False by lia. rewrite decide_True by reflexivity.
        lia.
      * rewrite decide_False by exact Hne.
        destruct (decide (((i - 1) / 2)%nat = index)) as [Ei|Ei].
        -- apply H2; [lia|lia|exact Ei].
        -- destruct (decide (((i - 1) / 2)%nat = parent)) as [Ep|Ep].
           ++ specialize (H1 i Hi Hii). rewrite Ep in H1. lia.
           ++ apply H1; assumption.
    + intros j Hpos Hj Epj. rewrite !Hsw.
      pose proof (parent_spec parent Hpos) as Hpp.
      pose proof (parent_spec j ltac:(lia)) as Hpj.
      rewrite (decide_False (P := ((parent - 1) / 2)%nat = index)) by lia.
      rewrite (decide_False (P := ((parent - 1) / 2)%nat = parent)) by lia.
      assert (Hgp : cell_priority pool c parent
                    <= cell_priority pool c ((parent - 1) / 2)).
      { apply H1; lia. }
      destruct (decide (j = index)) as [->|Hji]; [exact Hgp|].
      rewrite decide_False by lia.
      specialize (H1 j Hj Hji). rewrite Epj in H1. lia.
Qed.

Lemma sift_down_loop_ordered (pool : list Node) (cs : nat) (fuel : nat) :
  forall index c,
    (cs <= index + fuel)%nat -> (index < cs)%nat ->
    cells_wf (length pool) cs c ->
    ordered_down pool cs c index ->
    exists c', sift_down_loop fuel pool cs index c = Ret c' /\
               heap_ordered pool cs c'.
Proof.
  induction fuel as [|fuel IH]; intros index c Hfuel Hidx Hwf [H1 H2]; [lia|].
  cbn [sift_down_loop].
  set (cp := cell_priority pool c).
  set (left := (2 * index + 1)%nat). set (right := (2 * index + 2)%nat).
  destruct (load_cell_priority pool cs c index Hwf Hidx) as (xc & Hc & Lc & Pc).
  rewrite Lc. ret_step.
  apply (bind_spec _ _
           (fun m => (m = index \/ m = left /\ (left < cs)%nat) /\
                     ((left < cs)%nat -> cp left <= cp m) /\
                     (m <> index -> cp index < cp m))).
  { destruct (left <? cs)%nat eqn:El.
    2:{ apply Nat.ltb_ge in El. exists index. split; [reflexivity|].
        split; [auto|]. split; [lia|congruence]. }
    apply Nat.ltb_lt in El.
    destruct (load_cell_priority pool cs c left Hwf El) as (xl & Hl & Ll & Pl).
    rewrite Ll. ret_step. rewrite Pl. ret_step. rewrite Pc. ret_step.
    fold cp. destruct (cp index <? cp left) eqn:Ecmp.
    - apply Z.ltb_lt in Ecmp. exists left. split; [reflexivity|].
      split; [auto|]. split; [lia|auto].
    - apply Z.ltb_ge in Ecmp. exists index. split; [reflexivity|].
      split; [auto|]. split; [auto|congruence]. }
  intros m1 (Hm1 & Hl1 & Hgt1).
  assert (Hm1cs : (m1 < cs)%nat) by (destruct Hm1 as [->|[-> ?]]; assumption).
  apply (bind_spec _ _
           (fun m => (m = index \/ (m = left \/ m = right) /\ (m < cs)%nat) /\
                     ((left < cs)%nat -> cp left <= cp m) /\
                     ((right < cs)%nat -> cp right <= cp m) /\
                     (m <> index -> cp index < cp m))).
  { destruct (right <? cs)%nat eqn:Er.
    2:{ apply Nat.ltb_ge in Er. exists m1. split; [reflexivity|].
        split; [destruct Hm1 as [->|[-> ?]]; auto|].
        split; [exact Hl1|]. split; [lia|exact Hgt1]. }
    apply Nat.ltb_lt in Er.
    destruct (load_cell_priority pool cs c right Hwf Er) as (xr & Hr & Lr & Pr).
    destruct (load_cell_priority pool cs c m1 Hwf Hm1cs) as (xm & Hm & Lm & Pm).
    rewrite Lr. ret_step. rewrite Pr. ret_step.
    rewrite Lm. ret_step. rewrite Pm. ret_step.
    fold cp. destruct (cp m1 <? cp right) eqn:Ecmp.
    - apply Z.ltb_lt in Ecmp. exists right. split; [reflexivity|].
      split; [auto|]. split; [intros Hl; specialize (Hl1 Hl); lia|].
      split; [lia|]. intros _.
      destruct (decide (m1 = index)) as [->|Hne]; [lia|].
      specialize (Hgt1 Hne). lia.
    - apply Z.ltb_ge in Ecmp. exists m1. split; [reflexivity|].
      split; [destruct Hm1 as [->|[-> ?]]; auto|].
      split; [exact Hl1|]. split; [auto|exact Hgt1]. }
  intros m2 (Hm2 & Hl2 & Hr2 & Hgt2).
  destruct (m2 =? index)%nat eqn:E.
  { apply Nat.eqb_eq in E as ->. exists c. split; [reflexivity|].
    intros i Hi. destruct (decide (((i - 1) / 2)%nat = index)) as [Ei|Ei].
    - rewrite Ei. pose proof (parent_spec i ltac:(lia)) as Hpi.
      rewrite Ei in Hpi. fold left right in Hpi.
      destruct Hpi as [->| ->]; [apply Hl2|apply Hr2]; lia.
    - apply H1; assumption. }
  apply Nat.eqb_neq in E.
  destruct Hm2 as [?|[Hm2 Hm2cs]]; [contradiction|].
  specialize (Hgt2 E).
  assert (Hpm : ((m2 - 1) / 2)%nat = index).
  { destruct Hm2 as [-> | ->]; [apply parent_left|apply parent_right]. }
  assert (Hlt : (index < m2)%nat) by (unfold left, right in Hm2; lia).
  destruct (load_cell_priority pool cs c m2 Hwf Hm2cs) as (xm & Hm & Lm & _).
  rewrite Lm. ret_step.
  rewrite (cas_success c index (Some xc) (Some xm) Hc). ret_step.
  rewrite (cas_success (<[index := Some xm]> c) m2 (Some xm) (Some xc))
    by (rewrite list_lookup_insert_ne by lia; exact Hm).
  ret_step.
  apply IH; [lia|lia|apply swap_cells_wf; try assumption; lia|].
  assert (Hsw : forall k,
            cell_priority pool (<[m2 := Some xc]> (<[index := Some xm]> c)) k
            = if decide (k = m2) then cp index
              else if decide (k = index) then cp m2
              else cp k).
  { intros k. apply cell_priority_swap; [lia|assumption..]. }
  split.
  - intros i Hi Hne. rewrite !Hsw.
    pose proof (parent_spec i ltac:(lia)) as Hpi.
    destruct (decide (i = m2)) as [->|Him].
    + rewrite Hpm. rewrite (decide_False (P := index = m2)) by lia.
      rewrite decide_True by reflexivity. lia.
    + rewrite (decide_False (P := ((i - 1) / 2)%nat = m2)) by exact Hne.
      destruct (decide (i = index)) as [->|Hii].
      * rewrite decide_False by lia.
        apply (H2 m2); [lia|lia|exact Hpm].
      * destruct (decide (((i - 1) / 2)%nat = index)) as [Ei|Ei].
        -- rewrite Ei in Hpi. fold left right in Hpi.
           destruct Hpi as [->| ->]; [apply Hl2|apply Hr2]; lia.
        -- apply H1; assumption.
  - intros j Hpos Hj Epj. rewrite !Hsw.
    pose proof (parent_spec j ltac:(lia)) as Hpj.
    rewrite Hpm. rewrite (decide_False (P := index = m2)) by lia.
    rewrite (decide_True (P := index = index)) by reflexivity.
    rewrite (decide_False (P := j = m2)) by lia.
    rewrite (decide_False (P := j = index)) by lia.
    specialize (H1 j Hj ltac:(lia)). rewrite Epj in H1. exact H1.
Qed.

Lemma cell_priority_insert_ne (pool : list Node) (c : cells) (i j : nat)
    (v : option slot) :
  i <> j -> cell_priority pool (<[j := v]> c) i = cell_priority pool c i.
Proof.
  intros H. unfold cell_priority. rewrite list_lookup_insert_ne by congruence.
  reflexivity.
Qed.

Lemma cell_priority_slot (pool : list Node) (c : cells) (i : nat) (x : slot)
    (n : Node) :
  c !! i = Some (Some x) -> pool !! x = Some n ->
  cell_priority pool c i = priority n.
Proof. intros Hc Hn. unfold cell_priority. rewrite Hc, Hn. reflexivity. Qed.

(** The root of an ordered heap has the greatest priority. *)
Lemma heap_ordered_root (pool : list Node) (size : nat) (c : cells) :
  heap_ordered pool size c ->
  forall i, (i < size)%nat -> cell_priority pool c i <= cell_priority pool c 0.
Proof.
  intros Hord i. induction i as [i IH] using lt_wf_ind. intros Hi.
  destruct (decide (i = 0)%nat) as [->|Hne]; [lia|].
  pose proof (parent_spec i ltac:(lia)) as Hp.
  specialize (Hord i ltac:(lia)).
  specialize (IH ((i - 1) / 2)%nat ltac:(lia) ltac:(lia)). lia.
Qed.

Lemma elem_of_slots_of (n size : nat) (c : cells) (x : slot) :
  cells_wf n size c -> x ∈ slots_of c ->
  exists j, (j < size)%nat /\ c !! j = Some (Some x).
Proof.
  intros (Hsz & Hlive & Hnull) Hx. unfold slots_of in Hx.
  apply list_elem_of_omap in Hx as (y & Hy & Hid). cbn in Hid. subst y.
  apply list_elem_of_lookup in Hy as (j & Hj). exists j. split; [|exact Hj].
  destruct (decide (j < size)%nat) as [Hlt|Hge]; [exact Hlt|].
  rewrite Hnull in Hj; [discriminate|lia|]. eapply lookup_lt_Some, Hj.
Qed.

(** [push] keeps the heap ordered; it grows the heap by one node exactly when
    there is room, and leaves a full heap as it is. *)
Lemma push_ordered (pool : list Node) (cap : nat) (node : slot)
    (h : LockFreeHeap) :
  heap_wf (length pool) cap h -> (node < length pool)%nat ->
  heap_ordered pool (size_ h) (heap h) ->
  exists h',
    push pool node h = Ret (bool_decide (size_ h < cap)%nat, h') /\
    heap_ordered pool (size_ h') (heap h') /\
    ((size_ h < cap)%nat -> size_ h' = S (size_ h)) /\
    ((cap <= size_ h)%nat -> h' = h).
Proof.
  intros (Hcap & Hlen & Hwf) Hnode Hord. unfold push. rewrite Hcap.
  destruct (cap <=? size_ h)%nat eqn:E.
  { apply Nat.leb_le in E. exists h. rewrite bool_decide_eq_false_2 by lia.
    split; [reflexivity|]. split; [exact Hord|]. split; [lia|auto]. }
  apply Nat.leb_gt in E. rewrite bool_decide_eq_true_2 by exact E.
  unfold store. rewrite decide_True by lia. ret_step.
  pose proof Hwf as (Hsz & Hlive & Hnull).
  set (c1 := <[size_ h := Some node]> (heap h)).
  assert (Hwf1 : cells_wf (length pool) (size_ h + 1) c1).
  { split; [unfold c1; rewrite length_insert; lia|]. split.
    - intros i Hi. unfold c1. destruct (decide (i = size_ h)) as [->|Hne].
      + exists node. rewrite list_lookup_insert_eq by lia. auto.
      + rewrite list_lookup_insert_ne by congruence. apply Hlive. lia.
    - intros i Hi Hi'. unfold c1 in *. rewrite length_insert in Hi'.
      rewrite list_lookup_insert_ne by lia. apply Hnull; lia. }
  destruct (sift_up_loop_ordered pool (size_ h + 1) (size_ h) (size_ h) c1
              ltac:(lia) ltac:(lia) Hwf1) as (c' & Hrun & Hord').
  { split.
    - intros i Hi Hne. pose proof (parent_spec i ltac:(lia)).
      unfold c1. rewrite !cell_priority_insert_ne by lia. apply Hord. lia.
    - intros j _ Hj Epj. pose proof (parent_spec j ltac:(lia)). lia. }
  unfold sift_up. rewrite Hrun. ret_step.
  eexists. split; [reflexivity|]. cbn [size_ heap].
  split; [exact Hord'|]. split; [lia|lia].
Qed.

(** [pop] keeps the heap ordered, and the node it returns has a priority at
    least that of every node left in the heap. *)
Lemma pop_ordered (pool : list Node) (cap : nat) (h : LockFreeHeap) :
  heap_wf (length pool) cap h ->
  heap_ordered pool (size_ h) (heap h) ->
  forall r h',
    pop pool h = Ret (r, h') ->
    heap_ordered pool (size_ h') (heap h') /\
    (r = None <-> size_ h = 0%nat) /\
    forall x nx y ny,
      r = Some x -> pool !! x = Some nx ->
      y ∈ heap_slots h' -> pool !! y = Some ny ->
      priority ny <= priority nx.
Proof.
  intros Hwf Hord r h' Hpop.
  destruct (pop_spec pool cap h Hwf)
    as [[Hz Hp]|(x & h1 & Hp & Htop & Hwf1 & Hsz & Hperm)];
    rewrite Hp in Hpop; injection Hpop as <- <-.
  { split; [exact Hord|]. split; [tauto|]. intros; discriminate. }
  split; [|split; [split; [discriminate|lia]|]].
  - (* order of the heap left *)
    destruct Hwf as (Hcap & Hlen & Hwf). unfold pop in Hp.
    destruct (size_ h =? 0)%nat eqn:E; [apply Nat.eqb_eq in E; lia|].
    pose proof Hwf as (Hs & Hlive & Hnull).
    destruct (Hlive (size_ h - 1)%nat ltac:(lia)) as (y & Hy & Hyn).
    unfold load, store in Hp. rewrite Htop in Hp.
    cbn [mbind outcome_bind] in Hp. rewrite Hy in Hp.
    cbn [mbind outcome_bind] in Hp.
    rewrite decide_True in Hp by lia. cbn [mbind outcome_bind] in Hp.
    destruct (1 <? size_ h)%nat eqn:E1.
    + apply Nat.ltb_lt in E1.
      rewrite decide_True in Hp by (rewrite length_insert; lia).
      cbn [mbind outcome_bind] in Hp.
      set (c1 := <[0%nat := Some y]> (<[(size_ h - 1)%nat := None]> (heap h))) in *.
      assert (Hwfc : cells_wf (length pool) (size_ h - 1) c1).
      { split; [unfold c1; rewrite !length_insert; lia|]. split.
        - intros i Hi. unfold c1. destruct (decide (i = 0%nat)) as [->|Hne].
          + exists y. rewrite list_lookup_insert_eq
              by (rewrite length_insert; lia). auto.
          + rewrite list_lookup_insert_ne by congruence.
            rewrite list_lookup_insert_ne by lia. apply Hlive. lia.
        - intros i Hi Hi'. unfold c1 in *. rewrite !length_insert in Hi'.
          rewrite list_lookup_insert_ne by lia.
          destruct (decide (i = (size_ h - 1)%nat)) as [->|Hne].
          + apply list_lookup_insert_eq. lia.
          + rewrite list_lookup_insert_ne by congruence. apply Hnull; lia. }
      destruct (sift_down_loop_ordered pool (size_ h - 1) (S (size_ h - 1))
                  0%nat c1 ltac:(lia) ltac:(lia) Hwfc) as (c' & Hrun & Hord').
      { split.
        - intros i Hi Hne. pose proof (parent_spec i ltac:(lia)).
          unfold c1. rewrite !cell_priority_insert_ne by lia. apply Hord. lia.
        - intros j Hpos. lia. }
      unfold sift_down in Hp. rewrite Hrun in Hp.
      cbn [mbind outcome_bind] in Hp. injection Hp as <-.
      cbn [size_ heap]. exact Hord'.
    + apply Nat.ltb_ge in E1. cbn [mbind outcome_bind] in Hp.
      injection Hp as <-. cbn [size_ heap]. intros i Hi. lia.
  - (* the node returned is maximal *)
    intros x' nx y ny [= <-] Hnx Hy Hny.
    assert (Hy' : y ∈ heap_slots h).
    { rewrite Hperm. right. exact Hy. }
    destruct Hwf as (_ & _ & Hwf).
    destruct (elem_of_slots_of _ _ _ y Hwf Hy') as (j & Hj & Hcj).
    rewrite <- (cell_priority_slot pool (heap h) j y ny Hcj Hny).
    rewrite <- (cell_priority_slot pool (heap h) 0 x nx Htop Hnx).
    apply (heap_ordered_root pool (size_ h)); assumption.
Qed.

Lemma heap_ordered_write (pool : list Node) (n size : nat) (c : cells)
    (i : nat) (nd : Node) :
  cells_wf n size c -> (forall x, x ∈ slots_of c -> x <> i) ->
  heap_ordered pool size c -> heap_ordered (<[i := nd]> pool) size c.
Proof.
  intros (Hsz & Hlive & _) Hfresh Hord.
  assert (Heq : forall j, (j < size)%nat ->
            cell_priority (<[i := nd]> pool) c j = cell_priority pool c j).
  { intros j Hj. destruct (Hlive j Hj) as (x & Hx & _).
    unfold cell_priority. rewrite Hx.
    rewrite list_lookup_insert_ne; [reflexivity|].
    intros ->. apply (Hfresh x); [|reflexivity].
    unfold slots_of. apply list_elem_of_omap. exists (Some x).
    split; [eapply list_elem_of_lookup_2, Hx|reflexivity]. }
  intros j Hj. pose proof (parent_spec j ltac:(lia)).
  rewrite !Heq by lia. apply Hord, Hj.
Qed.

(** The loop of [get_highest_priority_node] on an ordered heap: the heap
    stays ordered; a null result leaves the heap empty; the node returned
    has a priority at least that of every node left; and every node deleted
    was found expired at a clock reading taken by the loop. *)
Lemma get_highest_priority_node_loop_ordered (numa : bool) (clk : N -> Z)
    (pool : list Node) (cap : nat) (fuel : nat) :
  forall t m r m' t' del,
    heap_wf (length pool) cap (nodes m) ->
    heap_ordered pool (size_ (nodes m)) (heap (nodes m)) ->
    (size_ (nodes m) <= fuel)%nat ->
    get_highest_priority_node_loop fuel numa clk pool t m
      = Ret (r, m', t', del) ->
    heap_ordered pool (size_ (nodes m')) (heap (nodes m')) /\
    (r = None -> size_ (nodes m') = 0%nat) /\
    (forall x nx y ny,
       r = Some x -> pool !! x = Some nx ->
       y ∈ heap_slots (nodes m') -> pool !! y = Some ny ->
       priority ny <= priority nx) /\
    (forall x, x ∈ del ->
       exists n u, pool !! x = Some n /\ (t <= u < t')%N /\
                   is_expired (now_ns clk u) n = true) /\
    (t' = t + N.of_nat (length del)
          + match r with Some _ => 1 | None => 0 end)%N.
Proof.
  induction fuel as [|fuel IH]; intros t m r m' t' del Hwf Hord Hfuel Hrun.
  - assert (Hz : size_ (nodes m) = 0%nat) by lia.
    cbn in Hrun. unfold empty in Hrun. rewrite Hz in Hrun. cbn in Hrun.
    injection Hrun as <- <- <- <-.
    split; [exact Hord|]. split; [auto|]. split; [intros; discriminate|].
    split; [intros x Hx; inversion Hx|cbn; lia].
  - cbn [get_highest_priority_node_loop] in Hrun. unfold empty in Hrun.
    destruct (size_ (nodes m) =? 0)%nat eqn:E.
    { apply Nat.eqb_eq in E. injection Hrun as <- <- <- <-.
      split; [exact Hord|]. split; [auto|]. split; [intros; discriminate|].
      split; [intros x Hx; inversion Hx|cbn; lia]. }
    apply Nat.eqb_neq in E.
    destruct (pop_spec pool cap (nodes m) Hwf)
      as [[Hz _]|(x & h1 & Hpop & Htop & Hwf1 & Hsz & Hperm)]; [lia|].
    destruct (pop_ordered pool cap (nodes m) Hwf Hord _ _ Hpop)
      as (Hord1 & _ & Hmax).
    rewrite Hpop in Hrun. cbn [mbind outcome_bind] in Hrun.
    destruct (pool !! x) as [n|] eqn:Hn; [|discriminate].
    destruct (is_expired (now_ns clk t) n) eqn:Hexp.
    + destruct numa; [discriminate|].
      destruct (get_highest_priority_node_loop fuel false clk pool (N.succ t)
                  (mkMidpoint h1)) as [[[[r1 m1] t1] del1]| | |] eqn:Hrec;
        try discriminate.
      cbn [mbind outcome_bind] in Hrun. injection Hrun as <- <- <- <-.
      destruct (IH (N.succ t) (mkMidpoint h1) _ _ _ _ Hwf1 Hord1
                  ltac:(cbn; lia) Hrec)
        as (Ho & Hnone & Hm & Hdel & Ht).
      split; [exact Ho|]. split; [exact Hnone|]. split; [exact Hm|].
      split; [|cbn [length]; lia].
      intros y Hy. apply elem_of_cons in Hy as [->|Hy].
      * exists n, t. split; [exact Hn|]. split; [lia|exact Hexp].
      * destruct (Hdel y Hy) as (n' & u & Hn' & Hu & He).
        exists n', u. split; [exact Hn'|]. split; [lia|exact He].
    + injection Hrun as <- <- <- <-.
      split; [exact Hord1|]. split; [discriminate|].
      split; [|split; [intros y Hy; inversion Hy|cbn; lia]].
      intros x' nx y ny [= <-] Hnx Hy Hny.
      apply (Hmax x nx y ny); auto.
Qed.

(** ** Induction over the states a sequence of calls reaches *)

Lemma run_invariant (clk : N -> Z)
    (P : list op -> list result -> RadialCircularList -> Prop) :
  (forall hist rs R s o r s',
     cache_inv clk hist R s -> P hist rs s -> valid_op o = true ->
     pool_index s + demand o < 2 ^ 64 ->
     step clk o s = Ret (r, s') ->
     P (hist ++ [o]) (rs ++ [r]) s') ->
  forall ops hist rs0 R s,
    cache_inv clk hist R s -> P hist rs0 s -> valid_ops ops = true ->
    total_demand hist + total_demand ops < 2 ^ 64 ->
    exists rs s',
      run clk ops s = Ret (rs, s') /\
      cache_inv clk (hist ++ ops) (R ++ all_returned rs) s' /\
      P (hist ++ ops) (rs0 ++ rs) s'.
Proof.
  intros Hstep ops. induction ops as [|o ops IH];
    intros hist rs0 R s Hinv HP Hvalid Hwrap.
  - exists [], s. split; [reflexivity|]. cbn. rewrite !app_nil_r. auto.
  - cbn [run]. cbn [valid_ops forallb] in Hvalid.
    apply andb_true_iff in Hvalid as [Hv Hvalid].
    change (total_demand (o :: ops)) with (demand o + total_demand ops) in Hwrap.
    pose proof (total_demand_nonneg ops) as Hnn.
    pose proof (inv_pool_idx _ _ _ _ Hinv) as Hidx.
    destruct (step_spec clk hist R s o Hinv Hv) as (r & s1 & Hs & Hinv1 & _).
    { lia. }
    pose proof (Hstep hist rs0 R s o r s1 Hinv HP Hv ltac:(lia) Hs) as HP1.
    rewrite Hs. ret_step.
    destruct (IH (hist ++ [o]) (rs0 ++ [r]) (R ++ returned r) s1 Hinv1 HP1 Hvalid)
      as (rs & s2 & Hrun & Hinv2 & HP2).
    { rewrite total_demand_snoc. lia. }
    rewrite Hrun. ret_step.
    exists (r :: rs), s2. split; [reflexivity|].
    rewrite <- (app_assoc hist [o] ops) in Hinv2, HP2.
    rewrite <- (app_assoc rs0 [r] rs) in HP2.
    split; [|exact HP2].
    unfold all_returned. rewrite bind_cons, app_assoc. exact Hinv2.
Qed.

(** A property [Q] of the pool and the key index that survives the placing
    of a record and the retrieval from a bucket holds in every state a
    sequence of calls reaches. *)
Section TableInvariant.

Variable clk : N -> Z.
Variable Q : list op -> list Node -> LockFreeHashTable -> Prop.

Hypothesis Q_mono : forall hist o pool tbl,
  Q hist pool tbl -> Q (hist ++ [o]) pool tbl.

Hypothesis Q_place :
  forall hist R cap pool tbl bound t index v k p e pool' q tbl1 ok tbl2,
    core_inv clk hist R cap pool tbl bound -> Q hist pool tbl ->
    0 <= index -> bound <= index -> (Z.to_nat index < length pool)%nat ->
    (exists o, o ∈ hist /\ (v, k, p, e) ∈ records o) ->
    write_node clk t pool index v p e = Ret pool' ->
    get_or_create k cap tbl = Ret (q, tbl1) ->
    add_node_at pool' q (Z.to_nat index) tbl1 = Ret (ok, tbl2) ->
    Q hist pool' tbl2.

Hypothesis Q_pop :
  forall hist R cap pool tbl bound k p m numa t r m' t' del,
    core_inv clk hist R cap pool tbl bound -> Q hist pool tbl ->
    get k tbl = Ret (Some p) -> mid_store tbl !! p = Some m ->
    get_highest_priority_node numa clk pool t m = Ret (r, m', t', del) ->
    Q hist pool (mkTable (buckets tbl) (<[p := m']> (mid_store tbl))).

Lemma insert_Q (hist : list op) (R : list slot) (s s' : RadialCircularList)
    (v : float) (k : string) (p : Z) (e : float) (b : bool) :
  cache_inv clk hist R s -> Q hist (node_pool s) (midpoints s) ->
  castable e = true -> pool_index s + 1 < 2 ^ 64 ->
  insert clk v k p e s = Ret (b, s') ->
  Q (hist ++ [Insert v k p e]) (node_pool s') (midpoints s').
Proof.
  intros [Hmax Hlen Htot Htp Hidx Hcore Hnuma] HQ Hcast Hwrap Hrun.
  apply (Q_mono _ (Insert v k p e)) in HQ.
  unfold insert in Hrun.
  destruct (max_nodes s <=? total_nodes s) eqn:E1.
  { injection Hrun as <- <-. exact HQ. }
  apply Z.leb_gt in E1.
  destruct (max_nodes s <=? pool_index s) eqn:E2.
  { injection Hrun as <- <-. exact HQ. }
  apply Z.leb_gt in E2.
  assert (Hcore' : core_inv clk (hist ++ [Insert v k p e]) R
                     (Z.to_nat (max_nodes s / 10)) (node_pool s)
                     (midpoints s) (pool_index s)).
  { eapply core_inv_mono; [| |exact Hcore]; [|lia].
    intros o Ho. apply elem_of_app. left. exact Ho. }
  assert (Hrec : exists o, o ∈ hist ++ [Insert v k p e] /\
                           (v, k, p, e) ∈ records o).
  { exists (Insert v k p e). split; [|left]. apply elem_of_app. right. left. }
  assert (Hrange : (Z.to_nat (pool_index s) < length (node_pool s))%nat)
    by (rewrite Hlen; lia).
  destruct (place_record clk _ R _ (node_pool s) (midpoints s)
              (pool_index s) (ticks s) (pool_index s) v k p e Hcore'
              ltac:(lia) ltac:(lia) Hrange Hcast Hrec)
    as (pool' & q & tbl1 & ok & tbl2 & Hw & Hg & Ha & _).
  rewrite Hw in Hrun. cbn [mbind outcome_bind] in Hrun.
  rewrite Hg in Hrun. cbn [mbind outcome_bind] in Hrun.
  rewrite Ha in Hrun. cbn [mbind outcome_bind] in Hrun.
  injection Hrun as <- <-. cbn [node_pool midpoints].
  apply (Q_place _ R _ (node_pool s) (midpoints s) (pool_index s) (ticks s)
           (pool_index s) v k p e pool' q tbl1 ok tbl2 Hcore' HQ);
    try assumption; lia.
Qed.

Lemma insert_batch_loop_Q (hist : list op) (R : list slot) (cap : nat)
    (start : Z) (batch : list item) :
  forall i pool tbl t pool' tbl' t',
    core_inv clk hist R cap pool tbl (start + i) -> Q hist pool tbl ->
    0 <= start -> 0 <= i ->
    start + i + Z.of_nat (length batch) <= Z.of_nat (length pool) ->
    start + i + Z.of_nat (length batch) < 2 ^ 64 ->
    forallb (fun it : item => castable it.2) batch = true ->
    (forall it, it ∈ batch -> exists o, o ∈ hist /\ it ∈ records o) ->
    insert_batch_loop clk cap start i batch pool tbl t
      = Ret (pool', tbl', t') ->
    Q hist pool' tbl'.
Proof.
  induction batch as [|[[[v k] p] e] rest IH];
    intros i pool tbl t pool' tbl' t' Hcore HQ Hs Hi Hfit Hwrap Hcast Hrec Hrun.
  - cbn in Hrun. injection Hrun as <- <- <-. exact HQ.
  - cbn [insert_batch_loop] in Hrun. cbn [length] in Hfit, Hwrap.
    cbn [forallb] in Hcast. apply andb_true_iff in Hcast as [Hc Hcast].
    rewrite (wrap64_small (start + i)) in Hrun by lia.
    assert (Hr : exists o, o ∈ hist /\ (v, k, p, e) ∈ records o)
      by (apply Hrec; left).
    destruct (place_record clk hist R cap pool tbl (start + i) t (start + i)
                v k p e Hcore ltac:(lia) ltac:(lia) ltac:(lia) Hc Hr)
      as (pool1 & q & tbl1 & ok & tbl2 & Hw & Hg & Ha & Hlen1 & Hcore1 & _).
    rewrite Hw in Hrun. cbn [mbind outcome_bind] in Hrun.
    rewrite Hg in Hrun. cbn [mbind outcome_bind] in Hrun.
    rewrite Ha in Hrun. cbn [mbind outcome_bind] in Hrun.
    apply (IH (i + 1) pool1 tbl2 (N.succ t) pool' tbl' t').
    + rewrite Z.add_assoc. exact Hcore1.
    + apply (Q_place hist R cap pool tbl (start + i) t (start + i) v k p e
               pool1 q tbl1 ok tbl2 Hcore HQ); try assumption; lia.
    + lia.
    + lia.
    + rewrite Hlen1. lia.
    + lia.
    + exact Hcast.
    + intros it Hit. apply Hrec. right. exact Hit.
    + exact Hrun.
Qed.

Lemma insert_batch_Q (hist : list op) (R : list slot)
    (s s' : RadialCircularList) (batch : list item) (b : bool) :
  cache_inv clk hist R s -> Q hist (node_pool s) (midpoints s) ->
  forallb (fun it : item => castable it.2) batch = true ->
  pool_index s + Z.of_nat (length batch) < 2 ^ 64 ->
  insert_batch clk batch s = Ret (b, s') ->
  Q (hist ++ [InsertBatch batch]) (node_pool s') (midpoints s').
Proof.
  intros [Hmax Hlen Htot Htp Hidx Hcore Hnuma] HQ Hcast Hwrap Hrun.
  apply (Q_mono _ (InsertBatch batch)) in HQ.
  set (n := Z.of_nat (length batch)) in *.
  assert (Hn : 0 <= n) by (unfold n; lia).
  unfold insert_batch in Hrun. fold n in Hrun.
  rewrite (wrap64_small n) in Hrun by lia.
  rewrite (wrap64_small (total_nodes s + n)) in Hrun by lia.
  rewrite (wrap64_small (pool_index s + n)) in Hrun by lia.
  destruct (max_nodes s <? total_nodes s + n) eqn:E1.
  { injection Hrun as <- <-. exact HQ. }
  destruct (max_nodes s <? pool_index s + n) eqn:E2.
  { injection Hrun as <- <-. exact HQ. }
  apply Z.ltb_ge in E1, E2.
  destruct (insert_batch_loop clk _ _ _ _ _ _ _) as [[[pool' tbl'] t']| | |]
    eqn:Hloop; try discriminate.
  cbn [mbind outcome_bind] in Hrun. injection Hrun as <- <-.
  cbn [node_pool midpoints].
  apply (insert_batch_loop_Q (hist ++ [InsertBatch batch]) R
           (Z.to_nat (max_nodes s / 10)) (pool_index s)
           batch 0 (node_pool s) (midpoints s) (ticks s) pool' tbl' t').
  - rewrite Z.add_0_r. eapply core_inv_mono; [| |exact Hcore]; [|lia].
    intros o Ho. apply elem_of_app. left. exact Ho.
  - exact HQ.
  - lia.
  - lia.
  - rewrite Hlen. fold n. lia.
  - fold n. lia.
  - exact Hcast.
  - intros it Hit. exists (InsertBatch batch). split; [|exact Hit].
    apply elem_of_app. right. left.
  - exact Hloop.
Qed.

Lemma get_highest_priority_Q (hist : list op) (R : list slot)
    (s s' : RadialCircularList) (k : string) (r : option slot) :
  cache_inv clk hist R s -> Q hist (node_pool s) (midpoints s) ->
  get_highest_priority clk k s = Ret (r, s') ->
  Q hist (node_pool s') (midpoints s').
Proof.
  intros Hinv HQ Hrun. unfold get_highest_priority in Hrun.
  destruct (get k (midpoints s)) as [[p|]| | |] eqn:Hget; try discriminate;
    cbn [mbind outcome_bind] in Hrun.
  2:{ injection Hrun as <- <-. exact HQ. }
  destruct (mid_store (midpoints s) !! p) as [m|] eqn:Hm; [|discriminate].
  destruct (get_highest_priority_node (numa_pool s) clk (node_pool s)
              (ticks s) m)
    as [[[[r1 m1] t1] del1]| | |] eqn:Hloop; try discriminate.
  cbn [mbind outcome_bind] in Hrun. injection Hrun as <- <-.
  cbn [node_pool midpoints].
  eapply Q_pop; eauto. exact (inv_core _ _ _ _ Hinv).
Qed.

Lemma get_highest_priority_batch_Q (hist : list op) (ks : list string) :
  forall R s rs s',
    cache_inv clk hist R s -> Q hist (node_pool s) (midpoints s) ->
    get_highest_priority_batch clk ks s = Ret (rs, s') ->
    Q hist (node_pool s') (midpoints s').
Proof.
  induction ks as [|k ks IH]; intros R s rs s' Hinv HQ Hrun.
  - cbn in Hrun. injection Hrun as <- <-. exact HQ.
  - cbn [get_highest_priority_batch] in Hrun.
    destruct (get_highest_priority_spec clk hist R s k Hinv)
      as (r & s1 & Hget & Hinv1 & _).
    rewrite Hget in Hrun. cbn [mbind outcome_bind] in Hrun.
    destruct (get_highest_priority_batch clk ks s1) as [[rs2 s2]| | |] eqn:Hb;
      try discriminate.
    cbn [mbind outcome_bind] in Hrun. injection Hrun as <- <-.
    apply (IH (R ++ option_list r) s1 rs2 s2 Hinv1); [|exact Hb].
    apply (get_highest_priority_Q hist R s s1 k r Hinv HQ Hget).
Qed.

Lemma step_Q (hist : list op) (R : list slot) (s s' : RadialCircularList)
    (o : op) (r : result) :
  cache_inv clk hist R s -> Q hist (node_pool s) (midpoints s) ->
  valid_op o = true -> pool_index s + demand o < 2 ^ 64 ->
  step clk o s = Ret (r, s') ->
  Q (hist ++ [o]) (node_pool s') (midpoints s').
Proof.
  intros Hinv HQ Hvalid Hwrap Hstep.
  destruct o as [v k p e|batch|k|ks]; cbn [step] in Hstep.
  - destruct (insert clk v k p e s) as [[b s1]| | |] eqn:E; try discriminate.
    cbn [mbind outcome_bind] in Hstep. injection Hstep as <- <-.
    cbn in Hvalid. rewrite andb_true_r in Hvalid.
    eapply insert_Q; eauto.
  - destruct (insert_batch clk batch s) as [[b s1]| | |] eqn:E;
      try discriminate.
    cbn [mbind outcome_bind] in Hstep. injection Hstep as <- <-.
    eapply insert_batch_Q; eauto.
  - destruct (get_highest_priority clk k s) as [[r1 s1]| | |] eqn:E;
      try discriminate.
    cbn [mbind outcome_bind] in Hstep. injection Hstep as <- <-.
    apply Q_mono. eapply get_highest_priority_Q; eauto.
  - destruct (get_highest_priority_batch clk ks s) as [[rs1 s1]| | |] eqn:E;
      try discriminate.
    cbn [mbind outcome_bind] in Hstep. injection Hstep as <- <-.
    apply Q_mono. eapply get_highest_priority_batch_Q; eauto.
Qed.

Lemma run_table_invariant (max : Z) (ops : list op) :
  0 <= max < 2 ^ 64 -> valid_ops ops = true -> total_demand ops < 2 ^ 64 ->
  Q [] (node_pool (RadialCircularList_new false clk max))
       (midpoints (RadialCircularList_new false clk max)) ->
  exists rs s,
    run clk ops (RadialCircularList_new false clk max) = Ret (rs, s) /\
    cache_inv clk ops (all_returned rs) s /\
    Q ops (node_pool s) (midpoints s).
Proof.
  intros Hmax Hvalid Hwrap HQ.
  destruct (run_invariant clk (fun hist _ s => Q hist (node_pool s) (midpoints s))
              ltac:(intros; eapply step_Q; eauto)
              ops [] [] [] _ (new_cache_inv clk max Hmax) HQ Hvalid)
    as (rs & s & Hrun & Hinv & HQ').
  { change (total_demand []) with 0. lia. }
  exists rs, s. auto.
Qed.

End TableInvariant.

(** ** What the three steps of placing a record do *)

Lemma write_node_inv (clk : N -> Z) (t : N) (pool pool' : list Node)
    (index : Z) (v : float) (p : Z) (e : float) :
  write_node clk t pool index v p e = Ret pool' ->
  exists ns,
    expiry_to_ns e = Ret ns /\
    (Z.to_nat index < length pool)%nat /\
    pool' = <[Z.to_nat index := mkNode v p (now_ns clk t) ns]> pool.
Proof.
  unfold write_node. intros H.
  destruct (decide (Z.to_nat index < length pool)%nat) as [Hlt|]; [|discriminate].
  destruct (expiry_to_ns e) as [ns| | |]; try discriminate.
  cbn in H. injection H as <-. exists ns. auto.
Qed.

Lemma get_or_create_inv (k : string) (cap : nat) (tbl tbl1 : LockFreeHashTable)
    (q : nat) :
  get_or_create k cap tbl = Ret (q, tbl1) ->
  exists chain,
    buckets tbl !! Z.to_nat (hash k) = Some chain /\
    ((find_key k chain = Some q /\ tbl1 = tbl) \/
     (find_key k chain = None /\ q = length (mid_store tbl) /\
      tbl1 = mkTable (<[Z.to_nat (hash k) := mkBucketNode k q :: chain]>
                        (buckets tbl))
                     (mid_store tbl ++ [MidpointNode_new cap]))).
Proof.
  unfold get_or_create, load_head. intros H.
  destruct (buckets tbl !! Z.to_nat (hash k)) as [chain|] eqn:Hc;
    [|discriminate].
  cbn [mbind outcome_bind] in H. exists chain. split; [reflexivity|].
  destruct (find_key k chain) as [p|] eqn:Hf; injection H as <- <-; auto.
Qed.

Lemma add_node_at_inv (pool : list Node) (q node : nat)
    (tbl tbl2 : LockFreeHashTable) (ok : bool) :
  add_node_at pool q node tbl = Ret (ok, tbl2) ->
  exists m h',
    mid_store tbl !! q = Some m /\
    push pool node (nodes m) = Ret (ok, h') /\
    tbl2 = mkTable (buckets tbl) (<[q := mkMidpoint h']> (mid_store tbl)).
Proof.
  unfold add_node_at, add_node. intros H.
  destruct (mid_store tbl !! q) as [m|] eqn:Hm; [|discriminate].
  destruct (push pool node (nodes m)) as [[b h']| | |] eqn:Hp;
    try discriminate.
  cbn in H. injection H as <- <-. exists m, h'. auto.
Qed.

Lemma find_key_None (k : string) (chain : list BucketNode) :
  find_key k chain = None <-> forall b, b ∈ chain -> bn_key b <> k.
Proof.
  induction chain as [|b chain IH]; cbn.
  - split; [intros _ b Hb; inversion Hb|reflexivity].
  - destruct (decide (bn_key b = k)) as [E|E].
    + split; [discriminate|]. intros H. exfalso. apply (H b); [left|exact E].
    + rewrite IH. split.
      * intros H b' Hb'. apply elem_of_cons in Hb' as [->|Hb']; auto.
      * intros H b' Hb'. apply H. right. exact Hb'.
Qed.

(** ** Ordered buckets in every reachable state *)

Lemma ordered_tbl_place (clk : N -> Z) (hist : list op) (R : list slot)
    (cap : nat) (pool : list Node) (tbl : LockFreeHashTable) (bound : Z)
    (t : N) (index : Z) (v : float) (k : string) (p : Z) (e : float)
    (pool' : list Node) (q : slot) (tbl1 : LockFreeHashTable) (ok : bool)
    (tbl2 : LockFreeHashTable) :
  core_inv clk hist R cap pool tbl bound -> ordered_tbl pool tbl ->
  0 <= index -> bound <= index -> (Z.to_nat index < length pool)%nat ->
  (exists o, o ∈ hist /\ (v, k, p, e) ∈ records o) ->
  write_node clk t pool index v p e = Ret pool' ->
  get_or_create k cap tbl = Ret (q, tbl1) ->
  add_node_at pool' q (Z.to_nat index) tbl1 = Ret (ok, tbl2) ->
  ordered_tbl pool' tbl2.
Proof.
  intros Hcore Hord H0 Hb Hidx Hrec Hw Hg Ha.
  destruct (write_node_inv _ _ _ _ _ _ _ _ Hw) as (ns & Hns & _ & ->).
  set (nd := mkNode v p (now_ns clk t) ns) in *.
  set (pool' := <[Z.to_nat index := nd]> pool) in *.
  assert (Hcore' : core_inv clk hist R cap pool' tbl bound).
  { apply core_inv_write; [lia|exact Hcore]. }
  assert (Hord' : ordered_tbl pool' tbl).
  { intros m Hm.
    destruct (core_table _ _ _ _ _ _ _ Hcore) as (_ & Hheaps & _).
    destruct (Hheaps m Hm) as (_ & _ & Hwf).
    apply (heap_ordered_write pool _ _ _ _ nd Hwf); [|apply Hord, Hm].
    intros x Hx ->.
    assert (Z.of_nat (Z.to_nat index) < bound); [|lia].
    apply (core_fresh _ _ _ _ _ _ _ Hcore), elem_of_app. left.
    apply list_elem_of_lookup in Hm as (j & Hj).
    eapply elem_of_all_slots; eauto. }
  destruct (get_or_create_spec clk hist R cap pool' tbl bound k Hcore')
    as (q' & tbl1' & Hg' & Hcore1 & _).
  rewrite Hg in Hg'. injection Hg' as <- <-.
  assert (Hord1 : ordered_tbl pool' tbl1).
  { destruct (get_or_create_inv _ _ _ _ _ Hg) as (chain & _ & [[_ ->]|(_ & _ & ->)]);
      [exact Hord'|].
    intros m Hm. cbn [mid_store] in Hm.
    apply elem_of_app in Hm as [Hm|Hm]; [apply Hord', Hm|].
    apply list_elem_of_singleton in Hm as ->. intros i Hi. cbn in Hi. lia. }
  destruct (add_node_at_inv _ _ _ _ _ _ Ha) as (m & h' & Hm & Hpush & ->).
  assert (Hin : m ∈ mid_store tbl1) by (eapply list_elem_of_lookup_2, Hm).
  destruct (core_table _ _ _ _ _ _ _ Hcore1) as (_ & Hheaps & _).
  unfold pool' in Hheaps. rewrite length_insert in Hheaps.
  destruct (push_ordered pool' cap (Z.to_nat index) (nodes m))
    as (h2 & Hpush2 & Hord2 & _).
  { unfold pool'. rewrite length_insert. apply Hheaps, Hin. }
  { unfold pool'. rewrite length_insert. exact Hidx. }
  { apply Hord1, Hin. }
  rewrite Hpush in Hpush2. injection Hpush2 as _ <-.
  intros m2 Hm2. cbn [mid_store] in Hm2.
  apply elem_of_insert_inv in Hm2 as [->|Hm2]; [exact Hord2|apply Hord1, Hm2].
Qed.

Lemma ordered_tbl_pop (clk : N -> Z) (hist : list op) (R : list slot)
    (cap : nat) (pool : list Node) (tbl : LockFreeHashTable) (bound : Z)
    (k : string) (p : slot) (m : MidpointNode) (numa : bool) (t : N)
    (r : option slot) (m' : MidpointNode) (t' : N) (del : list slot) :
  core_inv clk hist R cap pool tbl bound -> ordered_tbl pool tbl ->
  get k tbl = Ret (Some p) -> mid_store tbl !! p = Some m ->
  get_highest_priority_node numa clk pool t m = Ret (r, m', t', del) ->
  ordered_tbl pool (mkTable (buckets tbl) (<[p := m']> (mid_store tbl))).
Proof.
  intros Hcore Hord _ Hm Hrun.
  assert (Hin : m ∈ mid_store tbl) by (eapply list_elem_of_lookup_2, Hm).
  destruct (core_table _ _ _ _ _ _ _ Hcore) as (_ & Hheaps & _).
  destruct (get_highest_priority_node_loop_ordered numa clk pool cap _ _ _ _ _ _ _
              (Hheaps m Hin) (Hord m Hin) (le_n _) Hrun) as (Hord' & _).
  intros m2 Hm2. cbn [mid_store] in Hm2.
  apply elem_of_insert_inv in Hm2 as [->|Hm2]; [exact Hord'|apply Hord, Hm2].
Qed.

Lemma run_ordered (clk : N -> Z) (max : Z) (ops : list op) :
  0 <= max < 2 ^ 64 -> valid_ops ops = true -> total_demand ops < 2 ^ 64 ->
  exists rs s,
    run clk ops (RadialCircularList_new false clk max) = Ret (rs, s) /\
    cache_inv clk ops (all_returned rs) s /\
    ordered_tbl (node_pool s) (midpoints s).
Proof.
  intros Hmax Hvalid Hwrap.
  apply (run_table_invariant clk (fun _ => ordered_tbl)); try assumption.
  - auto.
  - intros. eapply ordered_tbl_place; eauto.
  - intros. eapply ordered_tbl_pop; eauto.
  - intros m Hm. cbn in Hm. inversion Hm.
Qed.

(** ** Retrieval in priority order *)


Lemma get_same_buckets (k : string) (tbl tbl' : LockFreeHashTable) :
  buckets tbl' = buckets tbl -> get k tbl' = get k tbl.
Proof. intros H. unfold get, load_head. rewrite H. reflexivity. Qed.

Lemma retrieval_facts (clk : N -> Z) (hist : list op) (R : list slot)
    (s s' : RadialCircularList) (k : string) (r : option slot) :
  cache_inv clk hist R s -> ordered_tbl (node_pool s) (midpoints s) ->
  get_highest_priority clk k s = Ret (r, s') ->
  node_pool s' = node_pool s /\
  (forall x, r = Some x ->
     exists p m, get k (midpoints s) = Ret (Some p) /\
                 mid_store (midpoints s) !! p = Some m /\
                 x ∈ heap_slots (nodes m)) /\
  (forall p m',
     get k (midpoints s') = Ret (Some p) ->
     mid_store (midpoints s') !! p = Some m' ->
     (r = None -> size_ (nodes m') = 0%nat) /\
     (forall x nx y ny,
        r = Some x -> node_pool s' !! x = Some nx ->
        y ∈ heap_slots (nodes m') -> node_pool s' !! y = Some ny ->
        priority ny <= priority nx)).
Proof.
  intros Hinv Hord Hrun.
  destruct (get_highest_priority_inv _ _ _ _ _ Hrun)
    as [(Hget & -> & ->)|(p & m & m' & t' & del & Hget & Hm & Hloop & ->)].
  { split; [reflexivity|]. split; [intros; discriminate|].
    intros p m' Hget'. congruence. }
  cbn [node_pool midpoints]. split; [reflexivity|].
  assert (Hin : m ∈ mid_store (midpoints s))
    by (eapply list_elem_of_lookup_2, Hm).
  destruct (core_table _ _ _ _ _ _ _ (inv_core _ _ _ _ Hinv))
    as (_ & Hheaps & _).
  pose proof (Hheaps m Hin) as Hwf.
  destruct (get_highest_priority_node_loop_ordered _ clk (node_pool s) _ _ _ _
              _ _ _ _ Hwf (Hord m Hin) (le_n _) Hloop)
    as (_ & Hnone & Hmax & _).
  destruct (get_highest_priority_node_loop_spec clk (node_pool s) _
              (size_ (nodes m)) (ticks s) m Hwf (le_n _))
    as (r1 & m1 & t1 & del1 & Hloop1 & _ & Hperm & _).
  unfold get_highest_priority_node in Hloop.
  rewrite (inv_numa _ _ _ _ Hinv) in Hloop. rewrite Hloop in Hloop1.
  injection Hloop1 as <- <- <- <-.
  split.
  - intros x ->. exists p, m. split; [exact Hget|]. split; [exact Hm|].
    rewrite Hperm, !elem_of_app. right. left. left.
  - intros p' m2 Hget' Hm2.
    rewrite (get_same_buckets k (midpoints s) _) in Hget' by reflexivity.
    rewrite Hget in Hget'. injection Hget' as <-.
    cbn [mid_store] in Hm2.
    rewrite list_lookup_insert_eq in Hm2 by (eapply lookup_lt_Some, Hm).
    injection Hm2 as <-. split; [exact Hnone|exact Hmax].
Qed.

(** X14: on a cache built without NUMA (its nodes came from [new], so that
    the [delete] of an expired node is defined), in every state a sequence
    of calls reaches, [get_highest_priority] returns, from the bucket of
    the key, a node whose priority is at least that of every node the
    bucket still holds; when it returns a null pointer the bucket of the
    key, if there is one, is left empty. *)
Theorem retrieval_returns_highest_priority (clk : N -> Z) (max : Z)
    (ops : list op) (k : string) :
  0 <= max < 2 ^ 64 -> valid_ops ops = true -> total_demand ops < 2 ^ 64 ->
  exists rs s r s',
    run clk ops (RadialCircularList_new false clk max) = Ret (rs, s) /\
    get_highest_priority clk k s = Ret (r, s') /\
    forall p m',
      get k (midpoints s') = Ret (Some p) ->
      mid_store (midpoints s') !! p = Some m' ->
      (r = None -> size_ (nodes m') = 0%nat) /\
      (forall x nx y ny,
         r = Some x -> node_pool s' !! x = Some nx ->
         y ∈ heap_slots (nodes m') -> node_pool s' !! y = Some ny ->
         priority ny <= priority nx).
Proof.
  intros Hmax Hvalid Hwrap.
  destruct (run_ordered clk max ops Hmax Hvalid Hwrap)
    as (rs & s & Hrun & Hinv & Hord).
  destruct (get_highest_priority_spec clk _ _ s k Hinv) as (r & s' & Hget & _).
  exists rs, s, r, s'. split; [exact Hrun|]. split; [exact Hget|].
  apply (retrieval_facts clk _ _ s s' k r Hinv Hord Hget).
Qed.

Lemma retrieval_returns_highest_priority_witness :
  exists rs s r s',
    run (fun t => Z.of_N t)
      [Insert 100 "AAPL" 1 60; Insert 101 "AAPL" 3 60;
       Insert 100.5 "AAPL" 2 60]
      (RadialCircularList_new false (fun t => Z.of_N t) 30) = Ret (rs, s) /\
    get_highest_priority (fun t => Z.of_N t) "AAPL" s = Ret (r, s') /\
    forall p m',
      get "AAPL" (midpoints s') = Ret (Some p) ->
      mid_store (midpoints s') !! p = Some m' ->
      (r = None -> size_ (nodes m') = 0%nat) /\
      (forall x nx y ny,
         r = Some x -> node_pool s' !! x = Some nx ->
         y ∈ heap_slots (nodes m') -> node_pool s' !! y = Some ny ->
         priority ny <= priority nx).
Proof.
  apply (retrieval_returns_highest_priority (fun t => Z.of_N t) 30).
  - lia.
  - reflexivity.
  - reflexivity.
Defined.

(** A retrieval that returns on either cache returns the same on the cache
    built without NUMA. *)
Lemma get_highest_priority_reached (clk : N -> Z) (hist : list op)
    (R : list slot) (s s1 : RadialCircularList) (k : string)
    (r : option slot) :
  cache_inv clk hist R (with_numa false s) ->
  get_highest_priority clk k s = Ret (r, s1) ->
  get_highest_priority clk k (with_numa false s)
  = Ret (r, with_numa false s1).
Proof.
  intros Hinv Hget.
  destruct (get_highest_priority_spec clk _ _ _ k Hinv)
    as (r0 & s0 & Hget0 & _).
  destruct (get_highest_priority_with_numa clk k (with_numa false s) s0 r0
              eq_refl Hget0) as (Hn0 & del & _ & Hs & Hu).
  assert (E0 : with_numa false s0 = s0)
    by (rewrite <- Hn0 at 1; apply with_numa_same).
  destruct (numa_pool s) eqn:Hn.
  - change (with_numa true (with_numa false s)) with (with_numa true s)
      in Hs, Hu.
    assert (Es : with_numa true s = s)
      by (rewrite <- Hn; apply with_numa_same).
    rewrite Es in Hs, Hu.
    destruct del as [|x del].
    + rewrite (Hs eq_refl) in Hget. injection Hget as <- <-.
      change (with_numa false (with_numa true s0)) with (with_numa false s0).
      rewrite E0. exact Hget0.
    + rewrite Hu in Hget by discriminate. discriminate.
  - rewrite <- Hn, with_numa_same in Hget0. rewrite Hget0 in Hget.
    injection Hget as <- <-. rewrite E0. rewrite <- Hn, with_numa_same.
    exact Hget0.
Qed.

Lemma successive_retrievals (clk : N -> Z) (max : Z)
    (ops : list op) (k : string) (rs : list result)
    (s s1 s2 : RadialCircularList) (x y : slot) (nx ny : Node) :
  0 <= max < 2 ^ 64 -> valid_ops ops = true -> total_demand ops < 2 ^ 64 ->
  run clk ops (RadialCircularList_new false clk max) = Ret (rs, s) ->
  get_highest_priority clk k s = Ret (Some x, s1) ->
  get_highest_priority clk k s1 = Ret (Some y, s2) ->
  node_pool s2 !! x = Some nx -> node_pool s2 !! y = Some ny ->
  priority ny <= priority nx.
Proof.
  intros Hmax Hvalid Hwrap Hrun Hg1 Hg2 Hnx Hny.
  destruct (run_ordered clk max ops Hmax Hvalid Hwrap)
    as (rs' & s' & Hrun' & Hinv & Hord).
  rewrite Hrun in Hrun'. injection Hrun' as <- <-.
  destruct (get_highest_priority_spec clk _ _ s k Hinv)
    as (r & s1' & Hg1' & Hinv1 & _).
  rewrite Hg1 in Hg1'. injection Hg1' as <- <-.
  destruct (retrieval_facts clk _ _ s s1 k _ Hinv Hord Hg1) as (Hp1 & _ & Hafter).
  assert (Hord1 : ordered_tbl (node_pool s1) (midpoints s1)).
  { apply (get_highest_priority_Q clk (fun _ => ordered_tbl)) with
      (hist := ops) (R := all_returned rs) (s := s) (k := k) (r := Some x);
      try assumption.
    intros. eapply ordered_tbl_pop; eauto. }
  destruct (retrieval_facts clk _ _ s1 s2 k _ Hinv1 Hord1 Hg2)
    as (Hp2 & Hfrom & _).
  destruct (Hfrom y eq_refl) as (p & m & Hget & Hm & Hy).
  rewrite Hp2 in Hnx, Hny.
  destruct (Hafter p m Hget Hm) as (_ & Hle).
  apply (Hle x nx y ny); auto.
Qed.

(** X15: two retrievals on one key with no call in between return nodes in
    non-increasing order of priority, on a cache built with or without
    NUMA. *)
Theorem successive_retrievals_descend (numa : bool) (clk : N -> Z)
    (max : Z) (ops : list op) (k : string) (rs : list result)
    (s s1 s2 : RadialCircularList) (x y : slot) (nx ny : Node) :
  0 <= max < 2 ^ 64 -> valid_ops ops = true -> total_demand ops < 2 ^ 64 ->
  run clk ops (RadialCircularList_new numa clk max) = Ret (rs, s) ->
  get_highest_priority clk k s = Ret (Some x, s1) ->
  get_highest_priority clk k s1 = Ret (Some y, s2) ->
  node_pool s2 !! x = Some nx -> node_pool s2 !! y = Some ny ->
  priority ny <= priority nx.
Proof.
  intros Hmax Hvalid Hwrap Hrun Hg1 Hg2 Hnx Hny.
  destruct (run_reached numa clk max ops rs s Hmax Hvalid Hwrap Hrun)
    as (Hrun0 & Hinv & _).
  pose proof (get_highest_priority_reached clk _ _ s s1 k _ Hinv Hg1) as Hg1'.
  destruct (get_highest_priority_spec clk _ _ _ k Hinv)
    as (r & s1' & Hg & Hinv1 & _).
  rewrite Hg1' in Hg. injection Hg as <- <-.
  pose proof (get_highest_priority_reached clk _ _ s1 s2 k _ Hinv1 Hg2)
    as Hg2'.
  exact (successive_retrievals clk max ops k rs _ _ _ x y nx ny Hmax Hvalid
           Hwrap Hrun0 Hg1' Hg2' Hnx Hny).
Qed.

(** Three records under one key: the second retrieval returns the record
    of priority 2 after the one of priority 3. *)
Lemma successive_retrievals_descend_witness :
  priority (mkNode 100.5 2 32 60000000000)
  <= priority (mkNode 101 3 31 60000000000).
Proof.
  eapply (successive_retrievals_descend true (fun t => Z.of_N t) 30
            [Insert 100 "AAPL" 1 60; Insert 101 "AAPL" 3 60;
             Insert 100.5 "AAPL" 2 60] "AAPL" _ _ _ _ 1%nat 2%nat).
  - lia.
  - reflexivity.
  - reflexivity.
  - vm_compute. reflexivity.
  - vm_compute. reflexivity.
  - vm_compute. reflexivity.
  - vm_compute. reflexivity.
  - vm_compute. reflexivity.
Defined.

(** ** The key index, one thread at a time: one bucket per key *)

Lemma find_key_NoDup (chain : list BucketNode) (b : BucketNode) :
  NoDup (bn_key <$> chain) -> b ∈ chain ->
  find_key (bn_key b) chain = Some (bn_value b).
Proof.
  induction chain as [|c chain IH]; intros Hnd Hb; [inversion Hb|].
  cbn in Hnd. apply NoDup_cons in Hnd as [Hc Hnd]. cbn.
  apply elem_of_cons in Hb as [->|Hb].
  - rewrite decide_True by reflexivity. reflexivity.
  - rewrite decide_False; [apply IH; assumption|].
    intros E. apply Hc. rewrite E. apply list_elem_of_fmap_2, Hb.
Qed.

Lemma keys_place (clk : N -> Z) (hist : list op) (R : list slot)
    (cap : nat) (pool : list Node) (tbl : LockFreeHashTable) (bound : Z)
    (t : N) (index : Z) (v : float) (k : string) (p : Z) (e : float)
    (pool' : list Node) (q : slot) (tbl1 : LockFreeHashTable) (ok : bool)
    (tbl2 : LockFreeHashTable) :
  core_inv clk hist R cap pool tbl bound ->
  keys_placed tbl /\ keys_inserted hist tbl ->
  0 <= index -> bound <= index -> (Z.to_nat index < length pool)%nat ->
  (exists o, o ∈ hist /\ (v, k, p, e) ∈ records o) ->
  write_node clk t pool index v p e = Ret pool' ->
  get_or_create k cap tbl = Ret (q, tbl1) ->
  add_node_at pool' q (Z.to_nat index) tbl1 = Ret (ok, tbl2) ->
  keys_placed tbl2 /\ keys_inserted hist tbl2.
Proof.
  intros _ [Hpl Hin] _ _ _ (o & Ho & Hrec) _ Hg Ha.
  destruct (add_node_at_inv _ _ _ _ _ _ Ha) as (m & h' & _ & _ & ->).
  unfold keys_placed, keys_inserted, table_nodes. cbn [buckets].
  destruct (get_or_create_inv _ _ _ _ _ Hg)
    as (chain & Hc & [[_ ->]|(Hnone & _ & ->)]); [auto|].
  cbn [buckets]. split.
  - intros idx chain' Hl.
    destruct (decide (idx = Z.to_nat (hash k))) as [->|Hne].
    + rewrite list_lookup_insert_eq in Hl by (eapply lookup_lt_Some, Hc).
      injection Hl as <-. destruct (Hpl _ _ Hc) as [Hnd Hsh]. split.
      * cbn. apply NoDup_cons. split; [|exact Hnd].
        intros Hk. apply list_elem_of_fmap in Hk as (b & Hkb & Hb).
        apply (proj1 (find_key_None k chain) Hnone b Hb). auto.
      * intros b Hb. apply elem_of_cons in Hb as [->|Hb]; [reflexivity|].
        apply Hsh, Hb.
    + rewrite list_lookup_insert_ne in Hl by congruence. apply Hpl, Hl.
  - intros b Hb. apply (elem_of_join_insert_cons _ _ _ _ _ Hc) in Hb as [->|Hb].
    + exists o, v, p, e. auto.
    + apply Hin, Hb.
Qed.

Lemma run_keys (clk : N -> Z) (max : Z) (ops : list op) :
  0 <= max < 2 ^ 64 -> valid_ops ops = true -> total_demand ops < 2 ^ 64 ->
  exists rs s,
    run clk ops (RadialCircularList_new false clk max) = Ret (rs, s) /\
    cache_inv clk ops (all_returned rs) s /\
    (keys_placed (midpoints s) /\ keys_inserted ops (midpoints s)).
Proof.
  intros Hmax Hvalid Hwrap.
  apply (run_table_invariant clk
           (fun hist _ tbl => keys_placed tbl /\ keys_inserted hist tbl));
    try assumption.
  - intros hist o _ tbl [Hpl Hin]. split; [exact Hpl|].
    intros b Hb. destruct (Hin b Hb) as (o' & v & p & e & Ho' & Hr).
    exists o', v, p, e. split; [|exact Hr]. apply elem_of_app. auto.
  - intros. eapply keys_place; eauto.
  - intros hist R cap pool tbl bound k p m numa t r m' t' del _ H _ _ _.
    exact H.
  - split.
    + intros idx chain Hl. cbn in Hl.
      apply lookup_replicate in Hl as [-> _]. split; [constructor|].
      intros b Hb. inversion Hb.
    + intros b Hb. unfold table_nodes in Hb. cbn in Hb.
      apply list_elem_of_join in Hb as (l & Hb & Hl).
      apply elem_of_replicate in Hl as [-> _]. inversion Hb.
Qed.

(** X4: in every state a sequence of calls reaches on a cache built
    without NUMA, the key index holds at most one bucket node per key, and
    [get] finds every bucket node by its key. *)
Theorem one_bucket_per_key (clk : N -> Z) (max : Z) (ops : list op) :
  0 <= max < 2 ^ 64 -> valid_ops ops = true -> total_demand ops < 2 ^ 64 ->
  exists rs s,
    run clk ops (RadialCircularList_new false clk max) = Ret (rs, s) /\
    (forall b b', b ∈ table_nodes (midpoints s) ->
                  b' ∈ table_nodes (midpoints s) ->
                  bn_key b = bn_key b' -> b = b') /\
    (forall b, b ∈ table_nodes (midpoints s) ->
               get (bn_key b) (midpoints s) = Ret (Some (bn_value b))).
Proof.
  intros Hmax Hvalid Hwrap.
  destruct (run_keys clk max ops Hmax Hvalid Hwrap)
    as (rs & s & Hrun & _ & Hpl & _).
  exists rs, s. split; [exact Hrun|].
  assert (Hget : forall b, b ∈ table_nodes (midpoints s) ->
                 get (bn_key b) (midpoints s) = Ret (Some (bn_value b))).
  { intros b Hb. unfold table_nodes in Hb.
    apply list_elem_of_join in Hb as (chain & Hb & Hchain).
    apply list_elem_of_lookup in Hchain as (idx & Hl).
    destruct (Hpl idx chain Hl) as [Hnd Hsh].
    unfold get, load_head. rewrite (Hsh b Hb), Hl. ret_step.
    rewrite (find_key_NoDup chain b Hnd Hb). reflexivity. }
  split; [|exact Hget].
  intros b b' Hb Hb' Hk.
  pose proof (Hget b Hb) as G. pose proof (Hget b' Hb') as G'.
  rewrite Hk in G. rewrite G in G'. injection G' as Hv.
  destruct b, b'. cbn in *. congruence.
Qed.

Lemma one_bucket_per_key_witness :
  exists rs s,
    run (fun t => Z.of_N t)
      [Insert 100 "AAPL" 1 60; Insert 7 "MSFT" 9 60;
       InsertBatch [(101%float, "AAPL", 3, 60%float);
                    (102%float, "GOOG", 4, 60%float)];
       GetHighestPriority "AAPL"]
      (RadialCircularList_new false (fun t => Z.of_N t) 30) = Ret (rs, s) /\
    (forall b b', b ∈ table_nodes (midpoints s) ->
                  b' ∈ table_nodes (midpoints s) ->
                  bn_key b = bn_key b' -> b = b') /\
    (forall b, b ∈ table_nodes (midpoints s) ->
               get (bn_key b) (midpoints s) = Ret (Some (bn_value b))).
Proof.
  apply (one_bucket_per_key (fun t => Z.of_N t) 30).
  - lia.
  - reflexivity.
  - reflexivity.
Defined.

(** X5: a key under which no call asked to insert has no bucket:
    [get_highest_priority] returns a null pointer for it and leaves the
    cache as it was (no bucket is created, the clock is not read).  The
    calls before are made on a cache built without NUMA. *)
Theorem unknown_key_retrieval (clk : N -> Z) (max : Z) (ops : list op)
    (k : string) :
  0 <= max < 2 ^ 64 -> valid_ops ops = true -> total_demand ops < 2 ^ 64 ->
  (forall o it, o ∈ ops -> it ∈ records o -> it.1.1.2 <> k) ->
  exists rs s,
    run clk ops (RadialCircularList_new false clk max) = Ret (rs, s) /\
    get k (midpoints s) = Ret None /\
    get_highest_priority clk k s = Ret (None, s).
Proof.
  intros Hmax Hvalid Hwrap Hfresh.
  destruct (run_keys clk max ops Hmax Hvalid Hwrap)
    as (rs & s & Hrun & Hinv & _ & Hin).
  exists rs, s. split; [exact Hrun|].
  assert (Hget : get k (midpoints s) = Ret None).
  { destruct (load_head_wf _ _ (midpoints s) k
                (core_table _ _ _ _ _ _ _ (inv_core _ _ _ _ Hinv)))
      as (chain & Hload & Hchain).
    unfold get. rewrite Hload. ret_step. f_equal.
    apply find_key_None. intros b Hb Hk.
    destruct (Hin b) as (o & v & p & e & Ho & Hr).
    { eapply elem_of_table_nodes; eauto. }
    apply (Hfresh o _ Ho Hr). cbn. exact Hk. }
  split; [exact Hget|].
  unfold get_highest_priority. rewrite Hget. reflexivity.
Qed.

Lemma unknown_key_retrieval_witness :
  exists rs s,
    run (fun t => Z.of_N t) [Insert 100 "AAPL" 1 60]
      (RadialCircularList_new false (fun t => Z.of_N t) 30) = Ret (rs, s) /\
    get "NOPE" (midpoints s) = Ret None /\
    get_highest_priority (fun t => Z.of_N t) "NOPE" s = Ret (None, s).
Proof.
  apply (unknown_key_retrieval (fun t => Z.of_N t) 30).
  - lia.
  - reflexivity.
  - reflexivity.
  - intros o it Ho Hit. apply list_elem_of_singleton in Ho as ->.
    apply list_elem_of_singleton in Hit as ->. cbn. discriminate.
Defined.

(** X3: on a key index with its 64 shards, [get_or_create] returns a bucket
    that [get] then finds under the same key; a second [get_or_create]
    returns the same bucket and changes nothing; the buckets of the other
    keys are found as before; and a bucket that [get] already found is the
    one returned, with the index unchanged. *)
Theorem get_or_create_then_get (k : string) (cap cap' : nat)
    (tbl : LockFreeHashTable) :
  length (buckets tbl) = Z.to_nat BUCKETS ->
  exists p tbl',
    get_or_create k cap tbl = Ret (p, tbl') /\
    get k tbl' = Ret (Some p) /\
    get_or_create k cap' tbl' = Ret (p, tbl') /\
    (forall k', k' <> k -> get k' tbl' = get k' tbl) /\
    (forall p0, get k tbl = Ret (Some p0) -> p = p0 /\ tbl' = tbl) /\
    length (buckets tbl') = Z.to_nat BUCKETS.
Proof.
  intros Hlen.
  pose proof (hash_range k) as Hr. unfold BUCKETS in *.
  destruct (lookup_lt_is_Some_2 (buckets tbl) (Z.to_nat (hash k))) as [chain Hc].
  { rewrite Hlen. lia. }
  unfold get_or_create at 1. unfold load_head. rewrite Hc. ret_step.
  destruct (find_key k chain) as [p|] eqn:Hf.
  - exists p, tbl. split; [reflexivity|]. split.
    { unfold get, load_head. rewrite Hc. ret_step. rewrite Hf. reflexivity. }
    split; [apply (get_or_create_existing k cap' tbl chain p Hc Hf)|].
    split; [reflexivity|]. split; [|exact Hlen].
    intros p0 Hg. unfold get, load_head in Hg. rewrite Hc in Hg.
    cbn in Hg. rewrite Hf in Hg. injection Hg as <-. auto.
  - set (p := length (mid_store tbl)).
    set (tbl' := mkTable _ _).
    assert (Hc' : buckets tbl' !! Z.to_nat (hash k)
                  = Some (mkBucketNode k p :: chain)).
    { unfold tbl'. cbn [buckets]. apply list_lookup_insert_eq.
      eapply lookup_lt_Some, Hc. }
    assert (Hf' : find_key k (mkBucketNode k p :: chain) = Some p).
    { cbn. rewrite decide_True by reflexivity. reflexivity. }
    exists p, tbl'. split; [reflexivity|]. split.
    { unfold get, load_head. rewrite Hc'. ret_step. rewrite Hf'. reflexivity. }
    split; [apply (get_or_create_existing k cap' tbl' _ p Hc' Hf')|].
    split; [|split].
    + intros k' Hne. unfold get, load_head.
      destruct (decide (Z.to_nat (hash k') = Z.to_nat (hash k))) as [E|E].
      * rewrite E, Hc', Hc. ret_step. cbn.
        rewrite decide_False by congruence. reflexivity.
      * unfold tbl'. cbn [buckets].
        rewrite list_lookup_insert_ne by congruence. reflexivity.
    + intros p0 Hg. unfold get, load_head in Hg. rewrite Hc in Hg.
      cbn in Hg. rewrite Hf in Hg. discriminate.
    + unfold tbl'. cbn [buckets]. rewrite length_insert. exact Hlen.
Qed.

Lemma get_or_create_then_get_witness :
  exists p tbl',
    get_or_create "AAPL" 100 (LockFreeHashTable_new 100) = Ret (p, tbl') /\
    get "AAPL" tbl' = Ret (Some p) /\
    get_or_create "AAPL" 7 tbl' = Ret (p, tbl') /\
    (forall k', k' <> "AAPL" ->
       get k' tbl' = get k' (LockFreeHashTable_new 100)) /\
    (forall p0, get "AAPL" (LockFreeHashTable_new 100) = Ret (Some p0) ->
       p = p0 /\ tbl' = LockFreeHashTable_new 100) /\
    length (buckets tbl') = Z.to_nat BUCKETS.
Proof.
  apply (get_or_create_then_get "AAPL" 100 7 (LockFreeHashTable_new 100)).
  reflexivity.
Defined.

(** ** The heap, one thread at a time: the contract of [push] and [pop] *)

(** X1: on a well-formed, ordered heap [push] returns true exactly when the
    heap is not full; it then holds one node more, the pushed one, and is
    ordered again; a full heap is left as it is. *)
Theorem push_contract (pool : list Node) (cap : nat) (node : slot)
    (h : LockFreeHeap) :
  heap_wf (length pool) cap h -> (node < length pool)%nat ->
  heap_ordered pool (size_ h) (heap h) ->
  exists h',
    push pool node h = Ret (bool_decide (size_ h < cap)%nat, h') /\
    heap_wf (length pool) cap h' /\
    heap_ordered pool (size_ h') (heap h') /\
    ((size_ h < cap)%nat ->
       size_ h' = S (size_ h) /\ heap_slots h' ≡ₚ node :: heap_slots h) /\
    ((cap <= size_ h)%nat -> h' = h).
Proof.
  intros Hwf Hnode Hord.
  destruct (push_ordered pool cap node h Hwf Hnode Hord)
    as (h' & Hpush & Hord' & Hgrow & Hfull).
  destruct (push_spec pool cap node h Hwf Hnode) as (h2 & Hpush2 & Hwf' & Hperm).
  rewrite Hpush in Hpush2. injection Hpush2 as _ <-.
  exists h'. split; [exact Hpush|]. split; [exact Hwf'|].
  split; [exact Hord'|]. split; [|exact Hfull].
  intros Hlt. split; [apply Hgrow, Hlt|].
  rewrite Hperm. destruct (Nat.leb_spec cap (size_ h)); [lia|reflexivity].
Qed.

(** A heap of capacity 2 holding the node of priority 1, and the push of the
    node of priority 3. *)
Lemma push_contract_witness :
  exists h',
    push [mkNode 100 1 0 60; mkNode 101 3 0 60] 1
      (mkHeap [Some 0%nat; None] 1 2)
    = Ret (bool_decide (1 < 2)%nat, h') /\
    heap_wf 2 2 h' /\
    heap_ordered [mkNode 100 1 0 60; mkNode 101 3 0 60] (size_ h') (heap h') /\
    ((1 < 2)%nat ->
       size_ h' = 2%nat /\
       heap_slots h' ≡ₚ 1%nat :: heap_slots (mkHeap [Some 0%nat; None] 1 2)) /\
    ((2 <= 1)%nat -> h' = mkHeap [Some 0%nat; None] 1 2).
Proof.
  apply (push_contract [mkNode 100 1 0 60; mkNode 101 3 0 60] 2 1
           (mkHeap [Some 0%nat; None] 1 2)).
  - split; [reflexivity|]. split; [reflexivity|]. split; [cbn; lia|]. split.
    + intros i Hi. cbn in Hi. assert (i = 0)%nat as -> by lia.
      exists 0%nat. split; [reflexivity|cbn; lia].
    + intros i Hi Hi'. cbn in Hi, Hi'. assert (i = 1)%nat as -> by lia.
      reflexivity.
  - cbn. lia.
  - intros i Hi. cbn in Hi. lia.
Defined.

(** X2: on a well-formed, ordered heap [pop] returns a null pointer exactly
    when the heap is empty, and leaves it as it is; otherwise it returns the
    node of the top cell, whose priority is at least that of every node
    left, and the heap left is ordered and holds the other nodes. *)
Theorem pop_contract (pool : list Node) (cap : nat) (h : LockFreeHeap) :
  heap_wf (length pool) cap h ->
  heap_ordered pool (size_ h) (heap h) ->
  exists r h',
    pop pool h = Ret (r, h') /\
    heap_wf (length pool) cap h' /\
    heap_ordered pool (size_ h') (heap h') /\
    (r = None <-> size_ h = 0%nat) /\
    (r = None -> h' = h) /\
    (forall x, r = Some x ->
       heap h !! 0%nat = Some (Some x) /\
       S (size_ h') = size_ h /\
       heap_slots h ≡ₚ x :: heap_slots h' /\
       forall nx y ny,
         pool !! x = Some nx -> y ∈ heap_slots h' -> pool !! y = Some ny ->
         priority ny <= priority nx).
Proof.
  intros Hwf Hord.
  destruct (pop_spec pool cap h Hwf)
    as [[Hz Hp]|(x & h1 & Hp & Htop & Hwf1 & Hsz & Hperm)].
  - exists None, h. split; [exact Hp|]. split; [exact Hwf|].
    split; [exact Hord|]. split; [tauto|]. split; [auto|]. intros; discriminate.
  - destruct (pop_ordered pool cap h Hwf Hord _ _ Hp) as (Hord1 & Hiff & Hmax).
    exists (Some x), h1. split; [exact Hp|]. split; [exact Hwf1|].
    split; [exact Hord1|]. split; [exact Hiff|]. split; [discriminate|].
    intros x' [= <-]. split; [exact Htop|]. split; [exact Hsz|].
    split; [exact Hperm|]. intros nx y ny. apply Hmax. reflexivity.
Qed.

(** A heap holding the nodes of priorities 3 and 1. *)
Lemma pop_contract_witness :
  exists r h',
    pop [mkNode 100 1 0 60; mkNode 101 3 0 60]
      (mkHeap [Some 1%nat; Some 0%nat] 2 2) = Ret (r, h') /\
    heap_wf 2 2 h' /\
    heap_ordered [mkNode 100 1 0 60; mkNode 101 3 0 60] (size_ h') (heap h') /\
    (r = None <-> 2%nat = 0%nat) /\
    (r = None -> h' = mkHeap [Some 1%nat; Some 0%nat] 2 2) /\
    (forall x, r = Some x ->
       [Some 1%nat; Some 0%nat] !! 0%nat = Some (Some x) /\
       S (size_ h') = 2%nat /\
       heap_slots (mkHeap [Some 1%nat; Some 0%nat] 2 2) ≡ₚ x :: heap_slots h' /\
       forall nx y ny,
         [mkNode 100 1 0 60; mkNode 101 3 0 60] !! x = Some nx ->
         y ∈ heap_slots h' ->
         [mkNode 100 1 0 60; mkNode 101 3 0 60] !! y = Some ny ->
         priority ny <= priority nx).
Proof.
  apply (pop_contract [mkNode 100 1 0 60; mkNode 101 3 0 60] 2
           (mkHeap [Some 1%nat; Some 0%nat] 2 2)).
  - split; [reflexivity|]. split; [reflexivity|]. split; [cbn; lia|]. split.
    + intros i Hi. cbn in Hi.
      destruct i as [|[|i]]; [exists 1%nat|exists 0%nat|lia];
        (split; [reflexivity|cbn; lia]).
    + intros i Hi Hi'. cbn in Hi, Hi'. lia.
  - intros i Hi. cbn in Hi. assert (i = 1)%nat as -> by lia.
    vm_compute. discriminate.
Defined.

(** ** What a call does to the nodes: held, returned, deleted *)


(** Placing one record: the three steps shared by [insert] and the loop of
    [insert_batch].  The bucket of the key gains the slot written when its
    heap has room, and nothing else changes in any bucket; the pool changes
    at that slot only. *)
Lemma place_slots (clk : N -> Z) (hist : list op) (R : list slot)
    (cap : nat) (pool pool' : list Node) (tbl tbl1 tbl2 : LockFreeHashTable)
    (bound : Z) (t : N) (index : Z) (v : float) (k : string) (prio : Z)
    (e : float) (q : nat) (ok : bool) :
  core_inv clk hist R cap pool tbl bound ->
  0 <= index -> bound <= index ->
  write_node clk t pool index v prio e = Ret pool' ->
  get_or_create k cap tbl = Ret (q, tbl1) ->
  add_node_at pool' q (Z.to_nat index) tbl1 = Ret (ok, tbl2) ->
  all_slots tbl2 ≡ₚ (if ok then [Z.to_nat index] else []) ++ all_slots tbl /\
  (forall x, x <> Z.to_nat index -> pool' !! x = pool !! x) /\
  length pool' = length pool.
Proof.
  intros Hcore H0 Hbound Hw Hg Ha.
  destruct (write_node_inv _ _ _ _ _ _ _ _ Hw) as (ns & Hns & Hidx & ->).
  split; [|split; [|apply length_insert]].
  2:{ intros x Hx. apply list_lookup_insert_ne. congruence. }
  assert (Hcore' : core_inv clk hist R cap
                     (<[Z.to_nat index := mkNode v prio (now_ns clk t) ns]> pool)
                     tbl bound).
  { apply core_inv_write; [lia|exact Hcore]. }
  destruct (get_or_create_spec clk hist R cap _ tbl bound k Hcore')
    as (q' & tbl1' & Hg' & Hcore1 & _).
  rewrite Hg in Hg'. injection Hg' as <- <-.
  assert (Hs1 : all_slots tbl1 = all_slots tbl).
  { destruct (get_or_create_inv _ _ _ _ _ Hg)
      as (chain & _ & [[_ ->]|(_ & _ & ->)]); [reflexivity|].
    unfold all_slots. cbn [mid_store]. rewrite bind_app, bind_cons.
    change (nodes (MidpointNode_new cap)) with (LockFreeHeap_new cap).
    rewrite heap_slots_new. cbn. rewrite !app_nil_r. reflexivity. }
  destruct (add_node_at_inv _ _ _ _ _ _ Ha) as (m & h' & Hm & Hpush & ->).
  pose proof (core_table _ _ _ _ _ _ _ Hcore1) as (_ & Hheaps & _).
  assert (Hwf : heap_wf (length (<[Z.to_nat index
                           := mkNode v prio (now_ns clk t) ns]> pool))
                  cap (nodes m)).
  { apply Hheaps. eapply list_elem_of_lookup_2, Hm. }
  destruct (push_spec _ cap (Z.to_nat index) (nodes m) Hwf)
    as (h2 & Hpush2 & _ & Hperm).
  { rewrite length_insert. exact Hidx. }
  rewrite Hpush in Hpush2. injection Hpush2 as -> <-.
  pose proof (all_slots_insert tbl1 q m (mkMidpoint h') Hm) as Hall.
  cbn [nodes] in Hall. rewrite Hperm, Hs1 in Hall.
  apply (Permutation_app_inv_r (heap_slots (nodes m))).
  rewrite Hall. destruct (cap <=? size_ (nodes m))%nat; cbn [negb];
    solve_Permutation.
Qed.

Lemma insert_batch_loop_slots (clk : N -> Z) (hist : list op)
    (R : list slot) (cap : nat) (start : Z) (batch : list item) :
  forall i pool tbl t pool' tbl' t',
    core_inv clk hist R cap pool tbl (start + i) ->
    0 <= start -> 0 <= i ->
    start + i + Z.of_nat (length batch) <= Z.of_nat (length pool) ->
    start + i + Z.of_nat (length batch) < 2 ^ 64 ->
    forallb (fun it : item => castable it.2) batch = true ->
    (forall it, it ∈ batch -> exists o, o ∈ hist /\ it ∈ records o) ->
    insert_batch_loop clk cap start i batch pool tbl t
      = Ret (pool', tbl', t') ->
    (exists new, all_slots tbl' ≡ₚ new ++ all_slots tbl /\
                 forall x, x ∈ new -> start + i <= Z.of_nat x) /\
    (forall x, Z.of_nat x < start + i -> pool' !! x = pool !! x) /\
    (t <= t')%N.
Proof.
  induction batch as [|[[[v k] p] e] rest IH];
    intros i pool tbl t pool' tbl' t' Hcore Hs Hi Hfit Hwrap Hcast Hrec Hrun.
  - cbn in Hrun. injection Hrun as <- <- <-. split; [|split; [auto|lia]].
    exists []. split; [reflexivity|]. intros x Hx. inversion Hx.
  - cbn [insert_batch_loop] in Hrun. cbn [length] in Hfit, Hwrap.
    cbn [forallb] in Hcast. apply andb_true_iff in Hcast as [Hc Hcast].
    rewrite (wrap64_small (start + i)) in Hrun by lia.
    destruct (place_record clk hist R cap pool tbl (start + i) t (start + i)
                v k p e Hcore)
      as (pool1 & q & tbl1 & ok & tbl2 & Hw & Hg & Ha & Hlen' & Hcore' & _).
    { lia. } { lia. } { lia. } { exact Hc. }
    { apply Hrec. left. }
    destruct (place_slots clk hist R cap pool pool1 tbl tbl1 tbl2 (start + i)
                t (start + i) v k p e q ok Hcore ltac:(lia) ltac:(lia)
                Hw Hg Ha) as (Hperm & Hpool & _).
    rewrite Hw in Hrun. cbn [mbind outcome_bind] in Hrun.
    rewrite Hg in Hrun. cbn [mbind outcome_bind] in Hrun.
    rewrite Ha in Hrun. cbn [mbind outcome_bind] in Hrun.
    replace (start + i + 1) with (start + (i + 1)) in Hcore' by lia.
    destruct (IH (i + 1) pool1 tbl2 (N.succ t) pool' tbl' t' Hcore' Hs
                ltac:(lia) ltac:(rewrite Hlen'; lia) ltac:(lia) Hcast
                ltac:(intros it Hit; apply Hrec; right; exact Hit) Hrun)
      as ((new & Hnew & Hb) & Hpool' & Ht).
    split; [|split; [|lia]].
    + exists (new ++ (if ok then [Z.to_nat (start + i)] else [])).
      split.
      * rewrite Hnew, Hperm. solve_Permutation.
      * intros x Hx. apply elem_of_app in Hx as [Hx|Hx].
        -- specialize (Hb x Hx). lia.
        -- destruct ok; [|inversion Hx].
           apply list_elem_of_singleton in Hx as ->. lia.
    + intros x Hx. rewrite Hpool' by lia. apply Hpool. lia.
Qed.

(** The nodes the loop of [get_highest_priority_node] deletes were found
    expired at a reading of the clock made by the loop, one reading per node
    popped. *)
Lemma get_highest_priority_node_loop_deleted (numa : bool) (clk : N -> Z)
    (pool : list Node) (cap : nat) (fuel : nat) :
  forall t m r m' t' del,
    heap_wf (length pool) cap (nodes m) ->
    get_highest_priority_node_loop fuel numa clk pool t m
      = Ret (r, m', t', del) ->
    (forall x, x ∈ del ->
       exists n u, pool !! x = Some n /\ (t <= u < t')%N /\
                   is_expired (now_ns clk u) n = true) /\
    (t' = t + N.of_nat (length del)
          + match r with Some _ => 1 | None => 0 end)%N.
Proof.
  induction fuel as [|fuel IH]; intros t m r m' t' del Hwf Hrun.
  - cbn in Hrun. unfold empty in Hrun.
    destruct (size_ (nodes m) =? 0)%nat; [|discriminate].
    injection Hrun as <- <- <- <-.
    split; [intros x Hx; inversion Hx|cbn; lia].
  - cbn [get_highest_priority_node_loop] in Hrun. unfold empty in Hrun.
    destruct (size_ (nodes m) =? 0)%nat eqn:E.
    { injection Hrun as <- <- <- <-.
      split; [intros x Hx; inversion Hx|cbn; lia]. }
    apply Nat.eqb_neq in E.
    destruct (pop_spec pool cap (nodes m) Hwf)
      as [[Hz _]|(x & h1 & Hpop & Htop & Hwf1 & Hsz & Hperm)]; [lia|].
    rewrite Hpop in Hrun. cbn [mbind outcome_bind] in Hrun.
    destruct (pool !! x) as [n|] eqn:Hn; [|discriminate].
    destruct (is_expired (now_ns clk t) n) eqn:Hexp.
    + destruct numa; [discriminate|].
      destruct (get_highest_priority_node_loop fuel false clk pool (N.succ t)
                  (mkMidpoint h1)) as [[[[r1 m1] t1] del1]| | |] eqn:Hrec;
        try discriminate.
      cbn [mbind outcome_bind] in Hrun. injection Hrun as <- <- <- <-.
      destruct (IH (N.succ t) (mkMidpoint h1) _ _ _ _ Hwf1 Hrec)
        as (Hdel & Ht).
      split; [|cbn [length]; lia].
      intros y Hy. apply elem_of_cons in Hy as [->|Hy].
      * exists n, t. split; [exact Hn|]. split; [lia|exact Hexp].
      * destruct (Hdel y Hy) as (n' & u & Hn' & Hu & He).
        exists n', u. split; [exact Hn'|]. split; [lia|exact He].
    + injection Hrun as <- <- <- <-.
      split; [intros y Hy; inversion Hy|cbn; lia].
Qed.

(** The readings of the loop of [get_highest_priority_node]: the node it
    deletes in its [j]-th iteration is expired at the [j]-th reading it
    takes, and the node it returns is not expired at the reading after
    those. *)
Lemma get_highest_priority_node_loop_readings (numa : bool) (clk : N -> Z)
    (pool : list Node) (fuel : nat) :
  forall t m r m' t' del,
    get_highest_priority_node_loop fuel numa clk pool t m
      = Ret (r, m', t', del) ->
    (forall j x, del !! j = Some x ->
       exists n, pool !! x = Some n /\
                 is_expired (now_ns clk (t + N.of_nat j)) n = true) /\
    (forall x, r = Some x ->
       exists n, pool !! x = Some n /\
                 is_expired (now_ns clk (t + N.of_nat (length del))) n
                 = false) /\
    (t' = t + N.of_nat (length del)
          + match r with Some _ => 1 | None => 0 end)%N.
Proof.
  induction fuel as [|fuel IH]; intros t m r m' t' del Hrun.
  - cbn in Hrun. destruct (empty (nodes m)); [|discriminate].
    injection Hrun as <- <- <- <-.
    split; [intros j x Hj; inversion Hj|]. split; [discriminate|cbn; lia].
  - cbn [get_highest_priority_node_loop] in Hrun.
    destruct (empty (nodes m)).
    { injection Hrun as <- <- <- <-.
      split; [intros j x Hj; inversion Hj|]. split; [discriminate|cbn; lia]. }
    destruct (pop pool (nodes m)) as [[[i|] h]| | |]; try discriminate;
      cbn [mbind outcome_bind] in Hrun; try discriminate.
    destruct (pool !! i) as [n|] eqn:Hn; [|discriminate].
    destruct (is_expired (now_ns clk t) n) eqn:Hexp.
    + destruct numa; [discriminate|].
      destruct (get_highest_priority_node_loop fuel false clk pool (N.succ t)
                  (mkMidpoint h)) as [[[[r1 m1] t1] del1]| | |] eqn:Hrec;
        try discriminate.
      cbn [mbind outcome_bind] in Hrun. injection Hrun as <- <- <- <-.
      destruct (IH (N.succ t) (mkMidpoint h) _ _ _ _ Hrec) as (Hdel & Hr & Ht).
      split; [|split; [|cbn [length]; lia]].
      * intros [|j] x Hj.
        -- injection Hj as <-. exists n. rewrite N.add_0_r. auto.
        -- destruct (Hdel j x Hj) as (n' & Hn' & He). exists n'.
           split; [exact Hn'|].
           replace (t + N.of_nat (S j))%N with (N.succ t + N.of_nat j)%N
             by lia.
           exact He.
      * intros x Hx. destruct (Hr x Hx) as (n' & Hn' & He). exists n'.
        split; [exact Hn'|]. cbn [length].
        replace (t + N.of_nat (S (length del1)))%N
          with (N.succ t + N.of_nat (length del1))%N by lia.
        exact He.
    + injection Hrun as <- <- <- <-.
      split; [intros j x Hj; inversion Hj|]. split; [|cbn; lia].
      intros x [= <-]. exists n. cbn [length]. rewrite N.add_0_r. auto.
Qed.

(** A retrieval moves nodes out of the bucket of its key: those it deleted
    and the one it returned. *)
Lemma get_highest_priority_slots (clk : N -> Z) (hist : list op)
    (R : list slot) (s s' : RadialCircularList) (k : string)
    (r : option slot) :
  cache_inv clk hist R s ->
  get_highest_priority clk k s = Ret (r, s') ->
  exists del,
    freed s' = freed s ++ del /\
    all_slots (midpoints s) ≡ₚ
      del ++ option_list r ++ all_slots (midpoints s') /\
    (forall x, x ∈ del ->
       exists n u, node_pool s !! x = Some n /\ (ticks s <= u < ticks s')%N /\
                   is_expired (now_ns clk u) n = true) /\
    (ticks s' = ticks s + N.of_nat (length del)
                + match r with Some _ => 1 | None => 0 end)%N /\
    max_nodes s' = max_nodes s /\ total_nodes s' = total_nodes s /\
    pool_index s' = pool_index s /\ node_pool s' = node_pool s.
Proof.
  intros Hinv Hrun.
  destruct (get_highest_priority_inv _ _ _ _ _ Hrun)
    as [(Hget & -> & ->)|(p & m & m' & t' & del & Hget & Hm & Hloop & ->)].
  { exists []. rewrite app_nil_r. split; [reflexivity|].
    split; [reflexivity|]. split; [intros x Hx; inversion Hx|].
    split; [cbn; lia|]. auto. }
  exists del. cbn [freed midpoints ticks max_nodes total_nodes pool_index
                   node_pool].
  split; [reflexivity|].
  pose proof (inv_core _ _ _ _ Hinv) as Hcore.
  pose proof (core_table _ _ _ _ _ _ _ Hcore) as (_ & Hheaps & _).
  assert (Hwf : heap_wf (length (node_pool s))
                  (Z.to_nat (max_nodes s / 10)) (nodes m)).
  { apply Hheaps. eapply list_elem_of_lookup_2, Hm. }
  unfold get_highest_priority_node in Hloop.
  rewrite (inv_numa _ _ _ _ Hinv) in Hloop.
  destruct (get_highest_priority_node_loop_spec clk (node_pool s) _ _
              (ticks s) m Hwf (le_n _))
    as (r2 & m2 & t2 & del2 & Hloop2 & Hwf2 & Hperm & _).
  pose proof Hloop as Hloop'.
  rewrite Hloop2 in Hloop'. injection Hloop' as -> -> -> ->.
  destruct (get_highest_priority_node_loop_deleted _ clk (node_pool s) _ _
              _ _ _ _ _ _ Hwf Hloop) as (Hdel & Ht).
  split; [|split; [exact Hdel|split; [exact Ht|auto]]].
  pose proof (all_slots_insert (midpoints s) p m m' Hm) as Hall.
  rewrite Hperm in Hall.
  apply (Permutation_app_inv_l (heap_slots (nodes m'))).
  rewrite <- Hall. solve_Permutation.
Qed.

Lemma get_highest_priority_batch_slots (clk : N -> Z) (hist : list op)
    (ks : list string) :
  forall R s rs s',
    cache_inv clk hist R s ->
    get_highest_priority_batch clk ks s = Ret (rs, s') ->
    exists del,
      freed s' = freed s ++ del /\
      all_slots (midpoints s) ≡ₚ del ++ omap id rs ++ all_slots (midpoints s') /\
      (forall x, x ∈ del ->
         exists n u, node_pool s !! x = Some n /\ (ticks s <= u < ticks s')%N /\
                     is_expired (now_ns clk u) n = true) /\
      (ticks s' = ticks s + N.of_nat (length del)
                  + N.of_nat (length (omap id rs)))%N /\
      max_nodes s' = max_nodes s /\ total_nodes s' = total_nodes s /\
      pool_index s' = pool_index s /\ node_pool s' = node_pool s /\
      length rs = length ks.
Proof.
  induction ks as [|k ks IH]; intros R s rs s' Hinv Hrun.
  - cbn in Hrun. injection Hrun as <- <-. exists []. rewrite app_nil_r.
    split; [reflexivity|]. split; [reflexivity|].
    split; [intros x Hx; inversion Hx|]. split; [cbn; lia|]. auto 10.
  - cbn [get_highest_priority_batch] in Hrun.
    destruct (get_highest_priority_spec clk hist R s k Hinv)
      as (r & s1 & Hget & Hinv1 & _).
    rewrite Hget in Hrun. cbn [mbind outcome_bind] in Hrun.
    destruct (get_highest_priority_batch clk ks s1) as [[rs1 s2]| | |] eqn:Hb;
      try discriminate.
    cbn [mbind outcome_bind] in Hrun. injection Hrun as <- <-.
    destruct (get_highest_priority_slots clk hist R s s1 k r Hinv Hget)
      as (del1 & Hf1 & Hp1 & He1 & Ht1 & Hm1 & Htot1 & Hi1 & Hn1).
    destruct (IH _ s1 rs1 s2 Hinv1 Hb)
      as (del2 & Hf2 & Hp2 & He2 & Ht2 & Hm2 & Htot2 & Hi2 & Hn2 & Hlen).
    exists (del1 ++ del2).
    split; [rewrite Hf2, Hf1, app_assoc; reflexivity|].
    split; [|split; [|split]].
    + rewrite Hp1, Hp2. destruct r; cbn [omap option_list id]; solve_Permutation.
    + intros x Hx. apply elem_of_app in Hx as [Hx|Hx].
      * destruct (He1 x Hx) as (n & u & Hn & Hu & He).
        exists n, u. split; [exact Hn|]. split; [lia|exact He].
      * destruct (He2 x Hx) as (n & u & Hn & Hu & He).
        exists n, u. rewrite <- Hn1. split; [exact Hn|]. split; [lia|exact He].
    + rewrite length_app.
      destruct r as [x|];
        [change (omap id (Some x :: rs1)) with (x :: omap id rs1)
        |change (omap id (None :: rs1)) with (omap id rs1)];
        cbn [length]; lia.
    + cbn [length]. repeat split; congruence.
Qed.

(** The ledger of one call.  The nodes held by the buckets afterwards,
    together with the nodes the call deleted and returned, are the nodes
    held before and the slots the call claimed; the pool is unchanged below
    the pool index, which does not decrease; the nodes deleted were found
    expired at a reading of the clock made by the call; and once the pool
    index has reached [max_nodes] no call claims a slot or changes
    [total_nodes]. *)
Lemma step_ledger (clk : N -> Z) (hist : list op) (R : list slot)
    (s s' : RadialCircularList) (o : op) (r : result) :
  cache_inv clk hist R s -> valid_op o = true ->
  pool_index s + demand o < 2 ^ 64 ->
  step clk o s = Ret (r, s') ->
  exists new del,
    freed s' = freed s ++ del /\
    all_slots (midpoints s') ++ del ++ returned r
      ≡ₚ new ++ all_slots (midpoints s) /\
    (forall x, x ∈ new -> pool_index s <= Z.of_nat x) /\
    (new = [] \/ del ++ returned r = []) /\
    pool_index s <= pool_index s' /\
    (forall x, Z.of_nat x < pool_index s ->
       node_pool s' !! x = node_pool s !! x) /\
    (ticks s <= ticks s')%N /\
    (forall x, x ∈ del ->
       exists n u, node_pool s !! x = Some n /\ (ticks s <= u < ticks s')%N /\
                   is_expired (now_ns clk u) n = true) /\
    (max_nodes s <= pool_index s ->
       new = [] /\ total_nodes s' = total_nodes s).
Proof.
  intros Hinv Hvalid Hwrap Hstep.
  pose proof Hinv as [Hmax Hlen Htot Htp Hidx Hcore Hnuma].
  destruct o as [v k p e|batch|k|ks]; cbn [step] in Hstep; cbn [demand] in Hwrap.
  - destruct (insert clk v k p e s) as [[b s1]| | |] eqn:Hrun; try discriminate.
    cbn [mbind outcome_bind] in Hstep. injection Hstep as <- <-.
    cbn [returned].
    destruct (insert_inv _ _ _ _ _ _ _ _ Hrun)
      as [(_ & _ & ->)|[(_ & _ & _ & ->)|
          (E1 & E2 & pool & q & tbl1 & tbl2 & Hw & Hg & Ha & ->)]];
      cbn [freed midpoints pool_index node_pool ticks total_nodes].
    + exists [], []. rewrite !app_nil_r. split; [reflexivity|].
      split; [reflexivity|]. split; [intros x Hx; inversion Hx|].
      split; [auto|]. split; [lia|]. split; [auto|]. split; [lia|].
      split; [intros x Hx; inversion Hx|auto].
    + exists [], []. rewrite !app_nil_r. split; [reflexivity|].
      split; [reflexivity|]. split; [intros x Hx; inversion Hx|].
      split; [auto|]. rewrite wrap64_small by lia.
      split; [lia|]. split; [auto|]. split; [lia|].
      split; [intros x Hx; inversion Hx|auto].
    + destruct (place_slots clk hist R _ _ pool _ tbl1 tbl2 (pool_index s)
                  (ticks s) (pool_index s) v k p e q b Hcore ltac:(lia)
                  ltac:(lia) Hw Hg Ha) as (Hperm & Hpool & _).
      exists (if b then [Z.to_nat (pool_index s)] else []), [].
      rewrite !app_nil_r. split; [reflexivity|]. split; [exact Hperm|].
      split.
      { intros x Hx. destruct b; [|inversion Hx].
        apply list_elem_of_singleton in Hx as ->. lia. }
      split; [auto|]. rewrite wrap64_small by lia. split; [lia|].
      split; [intros x Hx; apply Hpool; lia|]. split; [lia|].
      split; [intros x Hx; inversion Hx|lia].
  - destruct (insert_batch clk batch s) as [[b s1]| | |] eqn:Hrun;
      try discriminate.
    cbn [mbind outcome_bind] in Hstep. injection Hstep as <- <-.
    cbn [returned].
    pose proof (insert_batch_inv _ _ _ _ _ _ eq_refl Hrun) as Hcases.
    rewrite (wrap64_small (Z.of_nat (length batch))) in Hcases by lia.
    set (n := Z.of_nat (length batch)) in *.
    assert (Hn : 0 <= n) by (unfold n; lia).
    destruct Hcases
      as [(_ & _ & ->)|[(_ & _ & _ & ->)|
          (E1 & E2 & _ & pool & tbl & t & Hl & ->)]];
      cbn [freed midpoints pool_index node_pool ticks total_nodes].
    + exists [], []. rewrite !app_nil_r. split; [reflexivity|].
      split; [reflexivity|]. split; [intros x Hx; inversion Hx|].
      split; [auto|]. split; [lia|]. split; [auto|]. split; [lia|].
      split; [intros x Hx; inversion Hx|auto].
    + exists [], []. rewrite !app_nil_r. split; [reflexivity|].
      split; [reflexivity|]. split; [intros x Hx; inversion Hx|].
      split; [auto|]. rewrite wrap64_small by lia.
      split; [lia|]. split; [auto|]. split; [lia|].
      split; [intros x Hx; inversion Hx|auto].
    + rewrite (wrap64_small (pool_index s + n)) in * by lia.
      rewrite (wrap64_small (total_nodes s + n)) in * by lia.
      assert (Hsub : forall o, o ∈ hist -> o ∈ hist ++ [InsertBatch batch]).
      { intros o Ho. apply elem_of_app. left. exact Ho. }
      destruct (insert_batch_loop_slots clk (hist ++ [InsertBatch batch]) R
                  (Z.to_nat (max_nodes s / 10)) (pool_index s) batch 0
                  (node_pool s) (midpoints s) (ticks s) pool tbl t)
        as ((new & Hnew & Hb) & Hpool & Ht).
      { rewrite Z.add_0_r.
        apply (core_inv_mono clk hist _ R _ _ _ (pool_index s) _ Hsub);
          [lia|exact Hcore]. }
      { lia. } { lia. } { fold n. rewrite Hlen. lia. } { fold n. lia. }
      { exact Hvalid. }
      { intros it Hit. exists (InsertBatch batch).
        split; [apply elem_of_app; right; left|exact Hit]. }
      { exact Hl. }
      destruct batch as [|it rest].
      * cbn in Hl. injection Hl as <- <- <-.
        exists [], []. rewrite !app_nil_r. split; [reflexivity|].
        split; [reflexivity|]. split; [intros x Hx; inversion Hx|].
        split; [auto|]. split; [lia|]. split; [auto|]. split; [lia|].
        split; [intros x Hx; inversion Hx|].
        intros _. split; [reflexivity|]. unfold n. cbn. lia.
      * exists new, []. rewrite !app_nil_r. split; [reflexivity|].
        split; [exact Hnew|].
        split; [intros x Hx; specialize (Hb x Hx); lia|].
        split; [auto|]. split; [lia|].
        split; [intros x Hx; apply Hpool; lia|]. split; [exact Ht|].
        split; [intros x Hx; inversion Hx|].
        intros Hfull. unfold n in E2. cbn [length] in E2. lia.
  - destruct (get_highest_priority clk k s) as [[r1 s1]| | |] eqn:Hrun;
      try discriminate.
    cbn [mbind outcome_bind] in Hstep. injection Hstep as <- <-.
    cbn [returned].
    destruct (get_highest_priority_slots clk hist R s s1 k r1 Hinv Hrun)
      as (del & Hf & Hp & He & Ht & _ & Htot' & Hi & Hn).
    exists [], del. split; [exact Hf|]. split.
    { cbn [app]. rewrite Hp. solve_Permutation. }
    split; [intros x Hx; inversion Hx|]. split; [auto|].
    split; [lia|]. split; [intros x _; rewrite Hn; reflexivity|].
    split; [lia|]. split; [exact He|auto].
  - destruct (get_highest_priority_batch clk ks s) as [[rs1 s1]| | |] eqn:Hrun;
      try discriminate.
    cbn [mbind outcome_bind] in Hstep. injection Hstep as <- <-.
    cbn [returned].
    destruct (get_highest_priority_batch_slots clk hist ks R s rs1 s1 Hinv Hrun)
      as (del & Hf & Hp & He & Ht & _ & Htot' & Hi & Hn & _).
    exists [], del. split; [exact Hf|]. split.
    { cbn [app]. rewrite Hp. solve_Permutation. }
    split; [intros x Hx; inversion Hx|]. split; [auto|].
    split; [lia|]. split; [intros x _; rewrite Hn; reflexivity|].
    split; [lia|]. split; [exact He|auto].
Qed.

(** ** The nodes deleted by the retrievals *)

Lemma all_returned_snoc (rs : list result) (r : result) :
  all_returned (rs ++ [r]) = all_returned rs ++ returned r.
Proof.
  unfold all_returned. rewrite bind_app, bind_cons. cbn.
  rewrite app_nil_r. reflexivity.
Qed.

(** The invariant of the deleted nodes: they are distinct from each other,
    from the nodes held by the buckets and from the nodes returned; they lie
    below the pool index; and each was found expired at a reading of the
    clock. *)
Lemma run_ledger (clk : N -> Z) (max : Z) (ops : list op) :
  0 <= max < 2 ^ 64 -> valid_ops ops = true -> total_demand ops < 2 ^ 64 ->
  exists rs s,
    run clk ops (RadialCircularList_new false clk max) = Ret (rs, s) /\
    cache_inv clk ops (all_returned rs) s /\
    NoDup (all_slots (midpoints s) ++ all_returned rs ++ freed s) /\
    (forall x, x ∈ all_returned rs ++ freed s -> Z.of_nat x < pool_index s) /\
    (forall x, x ∈ freed s ->
       exists n u, node_pool s !! x = Some n /\ (u < ticks s)%N /\
                   is_expired (now_ns clk u) n = true).
Proof.
  intros Hmax Hvalid Hwrap.
  pose (P := fun (hist : list op) (rs : list result) (s : RadialCircularList) =>
    NoDup (all_slots (midpoints s) ++ all_returned rs ++ freed s) /\
    (forall x, x ∈ all_returned rs ++ freed s -> Z.of_nat x < pool_index s) /\
    (forall x, x ∈ freed s ->
       exists n u, node_pool s !! x = Some n /\ (u < ticks s)%N /\
                   is_expired (now_ns clk u) n = true)).
  destruct (run_invariant clk P) with (ops := ops) (hist := @nil op)
    (rs0 := @nil result) (R := @nil slot) (s := RadialCircularList_new false clk max)
    as (rs & s & Hrun & Hinv & HP).
  - intros hist rs R s o r s' Hinv (Hnd & Hb & He) Hv Hw Hstep.
    destruct (step_ledger clk hist R s s' o r Hinv Hv Hw Hstep)
      as (new & del & Hf & Hperm & Hnew & Hcase & Hidx & Hpool & Ht & Hdel & _).
    destruct (step_spec clk hist R s o Hinv Hv Hw)
      as (r2 & s2 & Hstep2 & Hinv' & _).
    rewrite Hstep in Hstep2. injection Hstep2 as <- <-.
    pose proof (inv_core _ _ _ _ Hinv) as Hcore.
    pose proof (inv_core _ _ _ _ Hinv') as Hcore'.
    assert (Hold : forall x, x ∈ all_slots (midpoints s) ->
                             Z.of_nat x < pool_index s).
    { intros x Hx. apply (core_fresh _ _ _ _ _ _ _ Hcore).
      apply elem_of_app. left. exact Hx. }
    assert (Hout : forall x, x ∈ del ++ returned r ->
                             x ∈ all_slots (midpoints s)).
    { intros x Hx. destruct Hcase as [->|E]; [|rewrite E in Hx; inversion Hx].
      cbn [app] in Hperm. rewrite <- Hperm. apply elem_of_app. right. exact Hx. }
    assert (Hndnew : NoDup new).
    { destruct Hcase as [->|E]; [constructor|].
      rewrite E, app_nil_r in Hperm.
      pose proof (core_nodup _ _ _ _ _ _ _ Hcore') as Hn.
      apply NoDup_app in Hn as (Hn & _). rewrite Hperm in Hn.
      apply NoDup_app in Hn as (Hn & _). exact Hn. }
    unfold P. rewrite all_returned_snoc, Hf. split; [|split].
    + assert (Hp : all_slots (midpoints s') ++
                     (all_returned rs ++ returned r) ++ freed s ++ del
                   ≡ₚ new ++ all_slots (midpoints s) ++ all_returned rs
                        ++ freed s).
      { rewrite (app_assoc new), <- Hperm. solve_Permutation. }
      rewrite Hp. apply NoDup_app. split; [exact Hndnew|]. split; [|exact Hnd].
      intros x Hx Hx'. specialize (Hnew x Hx).
      apply elem_of_app in Hx' as [Hx'|Hx'].
      * specialize (Hold x Hx'). lia.
      * specialize (Hb x Hx'). lia.
    + intros x Hx.
      assert (Hx' : x ∈ all_returned rs ++ freed s \/ x ∈ del ++ returned r).
      { rewrite !elem_of_app in Hx. rewrite !elem_of_app. tauto. }
      destruct Hx' as [Hx'|Hx'].
      * specialize (Hb x Hx'). lia.
      * specialize (Hold x (Hout x Hx')). lia.
    + intros x Hx. apply elem_of_app in Hx as [Hx|Hx].
      * destruct (He x Hx) as (n & u & Hn & Hu & Hexp).
        exists n, u. rewrite Hpool; [|apply Hb, elem_of_app; right; exact Hx].
        split; [exact Hn|]. split; [lia|exact Hexp].
      * destruct (Hdel x Hx) as (n & u & Hn & Hu & Hexp).
        exists n, u. rewrite Hpool.
        2:{ apply Hold, Hout, elem_of_app. left. exact Hx. }
        split; [exact Hn|]. split; [lia|exact Hexp].
  - apply new_cache_inv, Hmax.
  - unfold P. cbn. split; [constructor|].
    split; intros x Hx; inversion Hx.
  - exact Hvalid.
  - change (total_demand []) with 0. lia.
  - cbn [app] in *. exists rs, s. split; [exact Hrun|].
    split; [exact Hinv|]. exact HP.
Qed.

(** X19: on a cache built without NUMA (its nodes came from [new], so that
    the [delete] of an expired node is defined), over any sequence of
    calls, no node is deleted twice by the retrievals, and a node deleted
    by a retrieval is held by no bucket afterwards and is none of the nodes
    returned to the caller: the buckets keep no pointer to a node that was
    deleted. *)
Theorem deleted_nodes_not_kept (clk : N -> Z) (max : Z) (ops : list op) :
  0 <= max < 2 ^ 64 -> valid_ops ops = true -> total_demand ops < 2 ^ 64 ->
  exists rs s,
    run clk ops (RadialCircularList_new false clk max) = Ret (rs, s) /\
    NoDup (freed s) /\
    (forall x, x ∈ freed s ->
       (x ∉ all_slots (midpoints s)) /\ (x ∉ all_returned rs)).
Proof.
  intros Hmax Hvalid Hwrap.
  destruct (run_ledger clk max ops Hmax Hvalid Hwrap)
    as (rs & s & Hrun & _ & Hnd & _).
  exists rs, s. split; [exact Hrun|].
  apply NoDup_app in Hnd as (_ & Hd1 & Hnd).
  apply NoDup_app in Hnd as (_ & Hd2 & Hnd).
  split; [exact Hnd|]. intros x Hx. split.
  - intros Hin. apply (Hd1 x Hin). apply elem_of_app. right. exact Hx.
  - intros Hin. exact (Hd2 x Hin Hx).
Qed.

(** A record that has expired when it is retrieved, on a clock that
    advances by 100 s at every reading. *)
Lemma deleted_nodes_not_kept_witness :
  exists rs s,
    run (fun t => Z.of_N t * 100000000000)
      [Insert 100 "AAPL" 1 60; Insert 101 "AAPL" 3 60;
       GetHighestPriority "AAPL"]
      (RadialCircularList_new false (fun t => Z.of_N t * 100000000000) 20)
    = Ret (rs, s) /\
    NoDup (freed s) /\
    (forall x, x ∈ freed s ->
       (x ∉ all_slots (midpoints s)) /\ (x ∉ all_returned rs)).
Proof.
  apply (deleted_nodes_not_kept (fun t => Z.of_N t * 100000000000) 20
           [Insert 100 "AAPL" 1 60; Insert 101 "AAPL" 3 60;
            GetHighestPriority "AAPL"]).
  - lia.
  - reflexivity.
  - reflexivity.
Defined.

(** The bucket node that [get] found. *)
Lemma get_Some_bucket (n cap : nat) (tbl : LockFreeHashTable) (k : string)
    (p : nat) :
  table_wf n cap tbl -> get k tbl = Ret (Some p) ->
  exists b, b ∈ table_nodes tbl /\ bn_key b = k /\ bn_value b = p.
Proof.
  intros Ht Hget. unfold get in Hget.
  destruct (load_head_wf _ _ tbl k Ht) as (chain & Hload & Hchain).
  rewrite Hload in Hget. cbn [mbind outcome_bind] in Hget.
  injection Hget as Hf.
  destruct (find_key_Some _ _ _ Hf) as (b & Hb & Hk & Hv).
  exists b. split; [eapply elem_of_table_nodes; eauto|auto].
Qed.

(** X18: nothing but expired records is deleted (cache built without NUMA).
    In every state a sequence of calls reaches, a call of
    [get_highest_priority k] returns; the node it deletes in its [j]-th
    iteration holds a record inserted under [k] that is expired at the
    reading of the clock taken in that iteration, the [j]-th reading of the
    call; the node it returns is not expired at the reading after those;
    and the call takes no other reading.  [insert] and [insert_batch]
    delete nothing.  ([get_highest_priority_batch] makes these calls one
    after the other.) *)
Theorem only_expired_nodes_deleted (clk : N -> Z) (max : Z) (ops : list op)
    (k : string) :
  0 <= max < 2 ^ 64 -> valid_ops ops = true -> total_demand ops < 2 ^ 64 ->
  exists rs s r s' del,
    run clk ops (RadialCircularList_new false clk max) = Ret (rs, s) /\
    get_highest_priority clk k s = Ret (r, s') /\
    freed s' = freed s ++ del /\
    (forall j x, del !! j = Some x ->
       exists n, node_pool s !! x = Some n /\
                 inserted_under clk ops k n /\
                 is_expired (now_ns clk (ticks s + N.of_nat j)) n = true) /\
    (forall x, r = Some x ->
       exists n, node_pool s !! x = Some n /\
                 is_expired
                   (now_ns clk (ticks s + N.of_nat (length del))) n
                 = false) /\
    (ticks s' = ticks s + N.of_nat (length del)
                + match r with Some _ => 1 | None => 0 end)%N /\
    (forall v k' p e b s1,
       insert clk v k' p e s = Ret (b, s1) -> freed s1 = freed s) /\
    (forall batch b s1,
       insert_batch clk batch s = Ret (b, s1) -> freed s1 = freed s).
Proof.
  intros Hmax Hvalid Hwrap.
  destruct (run_spec clk ops [] [] _ (new_cache_inv clk max Hmax) Hvalid)
    as (rs & s & Hrun & Hinv & _).
  { change (total_demand []) with 0. lia. }
  cbn [app] in Hinv.
  destruct (get_highest_priority_spec clk _ _ s k Hinv) as (r & s' & Hget & _).
  assert (Hins : forall v k' p e b s1,
            insert clk v k' p e s = Ret (b, s1) -> freed s1 = freed s).
  { intros v k' p e b s1 H.
    destruct (insert_inv _ _ _ _ _ _ _ _ H)
      as [(_ & _ & ->)|[(_ & _ & _ & ->)|
          (_ & _ & pool & q & tbl1 & tbl2 & _ & _ & _ & ->)]]; reflexivity. }
  assert (Hbat : forall batch b s1,
            insert_batch clk batch s = Ret (b, s1) -> freed s1 = freed s).
  { intros batch b s1 H.
    destruct (insert_batch_inv _ _ _ _ _ _ eq_refl H)
      as [(_ & _ & ->)|[(_ & _ & _ & ->)|
          (_ & _ & _ & pool & tbl & t & _ & ->)]]; reflexivity. }
  destruct (get_highest_priority_inv _ _ _ _ _ Hget)
    as [(Hnone & -> & ->)|(p & m & m' & t' & del & Hgk & Hm & Hloop & ->)].
  { exists rs, s, None, s, []. split; [exact Hrun|]. split; [exact Hget|].
    rewrite app_nil_r. split; [reflexivity|].
    split; [intros j x Hj; inversion Hj|]. split; [discriminate|].
    split; [cbn; lia|]. split; [exact Hins|exact Hbat]. }
  pose proof (inv_core _ _ _ _ Hinv) as Hcore.
  pose proof (core_table _ _ _ _ _ _ _ Hcore) as Htbl.
  pose proof Htbl as (_ & Hheaps & _).
  assert (Hwf : heap_wf (length (node_pool s))
                  (Z.to_nat (max_nodes s / 10)) (nodes m)).
  { apply Hheaps. eapply list_elem_of_lookup_2, Hm. }
  destruct (get_Some_bucket _ _ _ _ _ Htbl Hgk) as (b & Hb & Hk & Hv).
  unfold get_highest_priority_node in Hloop.
  destruct (get_highest_priority_node_loop_readings _ clk (node_pool s) _
              _ _ _ _ _ _ Hloop) as (Hdel & Hr & Ht).
  rewrite (inv_numa _ _ _ _ Hinv) in Hloop.
  destruct (get_highest_priority_node_loop_spec clk (node_pool s) _ _
              (ticks s) m Hwf (le_n _))
    as (r2 & m2 & t2 & del2 & Hloop2 & _ & Hperm & _).
  rewrite Hloop in Hloop2. injection Hloop2 as <- <- <- <-.
  eexists rs, s, r, _, del. split; [exact Hrun|]. split; [exact Hget|].
  cbn [freed ticks]. split; [reflexivity|].
  split; [|split; [exact Hr|split; [exact Ht|split; [exact Hins|exact Hbat]]]].
  intros j x Hj. destruct (Hdel j x Hj) as (n & Hn & He).
  exists n. split; [exact Hn|]. split; [|exact He].
  destruct (core_owner _ _ _ _ _ _ _ Hcore b m x Hb) as (n' & Hn' & Hown).
  - rewrite Hv. exact Hm.
  - rewrite Hperm. apply elem_of_app. left.
    eapply list_elem_of_lookup_2, Hj.
  - rewrite Hk in Hown. congruence.
Qed.

(** Two records under one key and a retrieval 100 s later on the clock:
    both are deleted. *)
Lemma only_expired_nodes_deleted_witness :
  exists rs s r s' del,
    run (fun t => Z.of_N t * 100000000000)
      [Insert 100 "AAPL" 1 60; Insert 101 "AAPL" 3 60]
      (RadialCircularList_new false (fun t => Z.of_N t * 100000000000) 20)
    = Ret (rs, s) /\
    get_highest_priority (fun t => Z.of_N t * 100000000000) "AAPL" s
    = Ret (r, s') /\
    freed s' = freed s ++ del /\
    (forall j x, del !! j = Some x ->
       exists n, node_pool s !! x = Some n /\
                 inserted_under (fun t => Z.of_N t * 100000000000)
                   [Insert 100 "AAPL" 1 60; Insert 101 "AAPL" 3 60] "AAPL" n /\
                 is_expired
                   (now_ns (fun t => Z.of_N t * 100000000000)
                      (ticks s + N.of_nat j)) n = true) /\
    (forall x, r = Some x ->
       exists n, node_pool s !! x = Some n /\
                 is_expired
                   (now_ns (fun t => Z.of_N t * 100000000000)
                      (ticks s + N.of_nat (length del))) n
                 = false) /\
    (ticks s' = ticks s + N.of_nat (length del)
                + match r with Some _ => 1 | None => 0 end)%N /\
    (forall v k' p e b s1,
       insert (fun t => Z.of_N t * 100000000000) v k' p e s = Ret (b, s1) ->
       freed s1 = freed s) /\
    (forall batch b s1,
       insert_batch (fun t => Z.of_N t * 100000000000) batch s = Ret (b, s1) ->
       freed s1 = freed s).
Proof.
  apply (only_expired_nodes_deleted (fun t => Z.of_N t * 100000000000) 20
           [Insert 100 "AAPL" 1 60; Insert 101 "AAPL" 3 60] "AAPL").
  - lia.
  - reflexivity.
  - reflexivity.
Defined.

(** ** The destructor *)

Lemma delete_pool_twice (pool : list slot) :
  forall deleted x, x ∈ pool -> x ∈ deleted -> delete_pool pool deleted = UB.
Proof.
  induction pool as [|y pool IH]; intros deleted x Hx Hd; [inversion Hx|].
  cbn [delete_pool]. unfold delete_node.
  destruct (decide (y ∈ deleted)) as [|Hy]; [reflexivity|].
  cbn [mbind outcome_bind]. apply elem_of_cons in Hx as [->|Hx]; [tauto|].
  apply (IH _ x Hx). apply elem_of_app. left. exact Hd.
Qed.

Lemma delete_pool_once (pool : list slot) :
  forall deleted,
    NoDup (deleted ++ pool) -> delete_pool pool deleted = Ret (deleted ++ pool).
Proof.
  induction pool as [|y pool IH]; intros deleted Hnd.
  - cbn. rewrite app_nil_r. reflexivity.
  - cbn [delete_pool]. unfold delete_node.
    apply NoDup_app in Hnd as Hnd'. destruct Hnd' as (_ & Hdisj & _).
    rewrite decide_False.
    2:{ intros Hy. apply (Hdisj y Hy). left. }
    cbn [mbind outcome_bind]. rewrite IH; rewrite <- app_assoc; [reflexivity|].
    exact Hnd.
Qed.

(** X20: after any sequence of calls on a cache built without NUMA,
    destroying the cache deletes every node of the pool once if no
    retrieval has deleted a node; if a retrieval has deleted an expired
    node, the destructor deletes that node a second time, which is
    undefined. *)
Theorem destructor_deletes_twice (clk : N -> Z) (max : Z) (ops : list op) :
  0 <= max < 2 ^ 64 -> valid_ops ops = true -> total_demand ops < 2 ^ 64 ->
  exists rs s,
    run clk ops (RadialCircularList_new false clk max) = Ret (rs, s) /\
    (freed s = [] ->
       RadialCircularList_destroy s = Ret (seq 0 (Z.to_nat max))) /\
    (freed s <> [] -> RadialCircularList_destroy s = UB).
Proof.
  intros Hmax Hvalid Hwrap.
  destruct (run_ledger clk max ops Hmax Hvalid Hwrap)
    as (rs & s & Hrun & Hinv & _ & _ & He).
  exists rs, s. split; [exact Hrun|]. unfold RadialCircularList_destroy.
  split.
  - intros ->. rewrite delete_pool_once; cbn [app].
    + rewrite (inv_pool_len _ _ _ _ Hinv).
      destruct (run_spec clk ops [] [] _ (new_cache_inv clk max Hmax) Hvalid)
        as (rs2 & s2 & Hrun2 & _ & Hm).
      { change (total_demand []) with 0. lia. }
      rewrite Hrun in Hrun2. injection Hrun2 as <- <-. rewrite Hm.
      reflexivity.
    + apply NoDup_seq.
  - intros Hne. destruct (freed s) as [|x l] eqn:Hf; [congruence|].
    destruct (He x ltac:(left)) as (n & _ & Hn & _).
    apply (delete_pool_twice _ _ x); [|left].
    apply elem_of_seq. apply lookup_lt_Some in Hn. lia.
Qed.

Lemma destructor_deletes_twice_witness :
  exists rs s,
    run (fun t => Z.of_N t * 100000000000)
      [Insert 100 "AAPL" 1 60; GetHighestPriority "AAPL"]
      (RadialCircularList_new false (fun t => Z.of_N t * 100000000000) 10)
    = Ret (rs, s) /\
    (freed s = [] -> RadialCircularList_destroy s = Ret (seq 0 (Z.to_nat 10))) /\
    (freed s <> [] -> RadialCircularList_destroy s = UB).
Proof.
  apply (destructor_deletes_twice (fun t => Z.of_N t * 100000000000) 10
           [Insert 100 "AAPL" 1 60; GetHighestPriority "AAPL"]).
  - lia.
  - reflexivity.
  - reflexivity.
Defined.

(** One insert and one retrieval, 100 s later on the clock, of a record that
    lives 60 s: the retrieval deletes the node and returns a null pointer,
    and the destructor is undefined. *)
Lemma destructor_after_expired_retrieval :
  exists s,
    run (fun t => Z.of_N t * 100000000000)
      [Insert 100 "AAPL" 1 60; GetHighestPriority "AAPL"]
      (RadialCircularList_new false (fun t => Z.of_N t * 100000000000) 10)
    = Ret ([RBool true; RNode None], s) /\
    freed s = [0%nat] /\
    RadialCircularList_destroy s = UB.
Proof.
  eexists. split; [vm_compute; reflexivity|].
  split; vm_compute; reflexivity.
Qed.

(** ** [total_nodes] and the pool index over a sequence of calls *)

Lemma total_credited_snoc (ops : list op) :
  forall rs o r,
    length rs = length ops ->
    total_credited (ops ++ [o]) (rs ++ [r]) = total_credited ops rs + credited o r.
Proof.
  induction ops as [|o' ops IH]; intros [|r' rs] o r Hlen;
    try discriminate; cbn [app total_credited].
  - lia.
  - rewrite IH by (cbn in Hlen; lia). lia.
Qed.

(** X13: on a cache built without NUMA, [total_nodes] is the number of
    inserts that returned true plus the sizes of the batches whose
    [insert_batch] returned true; no retrieval and no deletion of an
    expired node takes anything off it.  So over the life of a cache these
    successes add up to at most [max_nodes]. *)
Theorem total_nodes_counts_successes (clk : N -> Z) (max : Z)
    (ops : list op) :
  0 <= max < 2 ^ 64 -> valid_ops ops = true -> total_demand ops < 2 ^ 64 ->
  exists rs s,
    run clk ops (RadialCircularList_new false clk max) = Ret (rs, s) /\
    length rs = length ops /\
    total_nodes s = total_credited ops rs /\
    total_credited ops rs <= max.
Proof.
  intros Hmax Hvalid Hwrap.
  pose (P := fun (hist : list op) (rs : list result) (s : RadialCircularList) =>
    length rs = length hist /\ total_nodes s = total_credited hist rs /\
    max_nodes s = max).
  destruct (run_invariant clk P) with (ops := ops) (hist := @nil op)
    (rs0 := @nil result) (R := @nil slot) (s := RadialCircularList_new false clk max)
    as (rs & s & Hrun & Hinv & Hlen & Htot & Hm).
  - intros hist rs R s o r s' Hinv (Hlen & Htot & Hm) Hv Hw Hstep.
    unfold P. rewrite !length_app, total_credited_snoc by exact Hlen.
    split; [cbn; lia|].
    destruct o as [v k p e|batch|k|ks]; cbn [step] in Hstep.
    + cbn in Hv. rewrite andb_true_r in Hv.
      destruct (insert_spec clk hist R s v k p e Hinv Hv Hw)
        as (b & s1 & Hrun & _ & Hm' & _ & Ht & _).
      rewrite Hrun in Hstep. cbn [mbind outcome_bind] in Hstep.
      injection Hstep as <- <-. split; [|congruence].
      rewrite Ht, Htot. destruct b; cbn [credited]; lia.
    + destruct (insert_batch_spec clk hist R s batch Hinv Hv Hw)
        as (b & s1 & Hrun & _ & Hm' & _ & Ht).
      rewrite Hrun in Hstep. cbn [mbind outcome_bind] in Hstep.
      injection Hstep as <- <-. split; [|congruence].
      rewrite Ht, Htot. destruct b; cbn [credited]; lia.
    + destruct (get_highest_priority_spec clk hist R s k Hinv)
        as (r1 & s1 & Hrun & _ & Hm' & Ht & _).
      rewrite Hrun in Hstep. cbn [mbind outcome_bind] in Hstep.
      injection Hstep as <- <-. split; [|congruence].
      rewrite Ht, Htot. cbn [credited]. lia.
    + destruct (get_highest_priority_batch clk ks s) as [[rs1 s1]| | |] eqn:Hrun;
        try discriminate.
      cbn [mbind outcome_bind] in Hstep. injection Hstep as <- <-.
      destruct (get_highest_priority_batch_slots clk hist ks R s rs1 s1
                  Hinv Hrun) as (_ & _ & _ & _ & _ & Hm' & Ht & _).
      split; [|congruence]. rewrite Ht, Htot. cbn [credited]. lia.
  - apply new_cache_inv, Hmax.
  - unfold P. cbn. auto.
  - exact Hvalid.
  - change (total_demand []) with 0. lia.
  - cbn [app] in *. exists rs, s. split; [exact Hrun|].
    split; [exact Hlen|]. split; [exact Htot|].
    pose proof (inv_total _ _ _ _ Hinv). lia.
Qed.

(** Eleven inserts into a cache of capacity 10, with a retrieval in
    between. *)
Lemma total_nodes_counts_successes_witness :
  exists rs s,
    run (fun t => Z.of_N t)
      (replicate 6 (Insert 100 "AAPL" 1 60) ++ [GetHighestPriority "AAPL"] ++
       replicate 5 (Insert 101 "MSFT" 2 60))
      (RadialCircularList_new false (fun t => Z.of_N t) 10) = Ret (rs, s) /\
    length rs = 12%nat /\
    total_nodes s
    = total_credited
        (replicate 6 (Insert 100 "AAPL" 1 60) ++ [GetHighestPriority "AAPL"] ++
         replicate 5 (Insert 101 "MSFT" 2 60)) rs /\
    total_credited
      (replicate 6 (Insert 100 "AAPL" 1 60) ++ [GetHighestPriority "AAPL"] ++
       replicate 5 (Insert 101 "MSFT" 2 60)) rs <= 10.
Proof.
  apply (total_nodes_counts_successes (fun t => Z.of_N t) 10
           (replicate 6 (Insert 100 "AAPL" 1 60) ++ [GetHighestPriority "AAPL"]
            ++ replicate 5 (Insert 101 "MSFT" 2 60))).
  - lia.
  - reflexivity.
  - reflexivity.
Defined.

(** A call made when the pool index has reached [max_nodes] is refused. *)
Lemma step_exhausted (clk : N -> Z) (hist : list op) (R : list slot)
    (s s' : RadialCircularList) (o : op) (r : result) :
  cache_inv clk hist R s -> pool_index s + demand o < 2 ^ 64 ->
  max_nodes s <= pool_index s ->
  step clk o s = Ret (r, s') -> refused o r.
Proof.
  intros Hinv Hw Hfull Hstep.
  pose proof Hinv as [Hmax Hlen Htot Htp Hidx Hcore Hnuma].
  destruct o as [v k p e|batch|k|ks]; cbn [step] in Hstep; cbn [demand] in Hw;
    cbn [refused]; try exact I.
  - destruct (insert clk v k p e s) as [[b s1]| | |] eqn:Hrun; try discriminate.
    cbn [mbind outcome_bind] in Hstep. injection Hstep as <- <-.
    destruct (insert_inv _ _ _ _ _ _ _ _ Hrun)
      as [(_ & -> & _)|[(_ & _ & -> & _)|(_ & E2 & _)]]; [reflexivity..|lia].
  - destruct batch as [|it rest]; [exact I|].
    destruct (insert_batch clk (it :: rest) s) as [[b s1]| | |] eqn:Hrun;
      try discriminate.
    cbn [mbind outcome_bind] in Hstep. injection Hstep as <- <-.
    pose proof (insert_batch_inv _ _ _ _ _ _ eq_refl Hrun) as Hcases.
    rewrite (wrap64_small (Z.of_nat (length (it :: rest)))) in Hcases by lia.
    destruct Hcases as [(_ & -> & _)|[(_ & _ & -> & _)|(_ & E2 & _)]];
      [reflexivity..|].
    rewrite wrap64_small in E2 by lia. cbn [length] in E2. lia.
Qed.

(** X12: once the pool index of a cache built without NUMA has reached
    [max_nodes], the cache accepts nothing more: whatever calls follow,
    every [insert] and every [insert_batch] of at least one record returns
    false, [total_nodes] stays as it is and the buckets gain no node.
    Retrievals free no slot. *)
Theorem pool_exhaustion_is_permanent (clk : N -> Z) (max : Z)
    (ops1 ops2 : list op) (rs1 : list result) (s1 : RadialCircularList) :
  0 <= max < 2 ^ 64 -> valid_ops (ops1 ++ ops2) = true ->
  total_demand (ops1 ++ ops2) < 2 ^ 64 ->
  run clk ops1 (RadialCircularList_new false clk max) = Ret (rs1, s1) ->
  max <= pool_index s1 ->
  exists rs2 s2,
    run clk ops2 s1 = Ret (rs2, s2) /\
    Forall2 refused ops2 rs2 /\
    total_nodes s2 = total_nodes s1 /\
    (forall x, x ∈ all_slots (midpoints s2) -> x ∈ all_slots (midpoints s1)) /\
    max <= pool_index s2.
Proof.
  intros Hmax Hvalid Hwrap Hrun1 Hfull.
  unfold valid_ops in Hvalid. rewrite forallb_app in Hvalid.
  apply andb_true_iff in Hvalid as [Hv1 Hv2].
  rewrite total_demand_app in Hwrap.
  pose proof (total_demand_nonneg ops2) as Hnn.
  destruct (run_spec clk ops1 [] [] _ (new_cache_inv clk max Hmax) Hv1)
    as (rs & s & Hrun & Hinv1 & Hm1).
  { change (total_demand []) with 0. lia. }
  rewrite Hrun1 in Hrun. injection Hrun as <- <-. cbn [app] in Hinv1.
  change (max_nodes (RadialCircularList_new false clk max)) with max in Hm1.
  pose (P := fun (hist : list op) (rs : list result) (s : RadialCircularList) =>
    max_nodes s = max /\ max <= pool_index s /\
    total_nodes s = total_nodes s1 /\
    (forall x, x ∈ all_slots (midpoints s) -> x ∈ all_slots (midpoints s1)) /\
    exists done, hist = ops1 ++ done /\ Forall2 refused done rs).
  destruct (run_invariant clk P) with (ops := ops2) (hist := ops1)
    (rs0 := @nil result) (R := all_returned rs1) (s := s1)
    as (rs2 & s2 & Hrun2 & Hinv2 & Hm2 & Hfull2 & Htot2 & Hsub2 & done & Hd & Hall).
  - intros hist rs R s o r s' Hinv (Hm & Hf & Htot & Hsub & done & -> & Hall)
      Hv Hw Hstep.
    destruct (step_ledger clk _ R s s' o r Hinv Hv Hw Hstep)
      as (new & del & _ & Hperm & _ & _ & Hidx & _ & _ & _ & Hex).
    destruct (Hex ltac:(lia)) as (-> & Htot').
    destruct (step_spec clk _ R s o Hinv Hv Hw) as (r2 & s2 & Hstep2 & _ & Hm').
    rewrite Hstep in Hstep2. injection Hstep2 as <- <-.
    unfold P. split; [congruence|]. split; [lia|]. split; [congruence|].
    split.
    + intros x Hx. apply Hsub. cbn [app] in Hperm. rewrite <- Hperm.
      apply elem_of_app. left. exact Hx.
    + exists (done ++ [o]). split; [rewrite app_assoc; reflexivity|].
      apply Forall2_app; [exact Hall|]. constructor; [|constructor].
      apply (step_exhausted clk _ R s s' o r Hinv Hw ltac:(lia) Hstep).
  - exact Hinv1.
  - unfold P. split; [exact Hm1|]. split; [exact Hfull|]. split; [reflexivity|].
    split; [auto|]. exists []. rewrite app_nil_r. split; [reflexivity|constructor].
  - exact Hv2.
  - lia.
  - exists rs2, s2. split; [exact Hrun2|]. cbn [app] in Hall.
    apply app_inv_head in Hd as <-. auto.
Qed.

(** A cache of capacity 10, whose buckets hold one node each: ten inserts
    under one key use up the pool, the first one alone succeeding; then a
    retrieval returns that node, and the inserts and the batch that follow
    are refused. *)
Lemma pool_exhaustion_is_permanent_witness :
  exists rs2 s2,
    run (fun t => Z.of_N t)
      [GetHighestPriority "AAPL"; Insert 101 "AAPL" 2 60;
       InsertBatch [(102%float, "MSFT", 3, 60%float)]; Insert 103 "MSFT" 4 60]
      (mkCache
         (mkTable (<[11%nat := [mkBucketNode "AAPL" 0]]>
                     (replicate 64 []))
                  [mkMidpoint (mkHeap [Some 0%nat] 1 1)])
         10 1
         (map (fun t => mkNode 100 1 (10 + Z.of_nat t) 60000000000) (seq 0 10))
         10 20 [] false)
    = Ret (rs2, s2) /\
    Forall2 refused
      [GetHighestPriority "AAPL"; Insert 101 "AAPL" 2 60;
       InsertBatch [(102%float, "MSFT", 3, 60%float)]; Insert 103 "MSFT" 4 60]
      rs2 /\
    total_nodes s2 = 1 /\
    (forall x, x ∈ all_slots (midpoints s2) -> x ∈ [0%nat]) /\
    10 <= pool_index s2.
Proof.
  apply (pool_exhaustion_is_permanent (fun t => Z.of_N t) 10
           (replicate 10 (Insert 100 "AAPL" 1 60))
           [GetHighestPriority "AAPL"; Insert 101 "AAPL" 2 60;
            InsertBatch [(102%float, "MSFT", 3, 60%float)];
            Insert 103 "MSFT" 4 60]
           (RBool true :: replicate 9 (RBool false))).
  - lia.
  - reflexivity.
  - reflexivity.
  - vm_compute. reflexivity.
  - cbn. lia.
Defined.

(** ** What one [insert] does *)

Lemma push_size (pool : list Node) (node : slot) (h h' : LockFreeHeap)
    (b : bool) :
  push pool node h = Ret (b, h') ->
  b = negb (capacity h <=? size_ h)%nat /\
  size_ h' = (if b then S (size_ h) else size_ h).
Proof.
  unfold push. intros H. destruct (capacity h <=? size_ h)%nat.
  { injection H as <- <-. auto. }
  destruct (store (heap h) (size_ h) (Some node)) as [c1| | |];
    try discriminate.
  cbn [mbind outcome_bind] in H.
  destruct (sift_up pool (size_ h) c1) as [c2| | |]; try discriminate.
  cbn [mbind outcome_bind] in H. injection H as <- <-.
  split; [reflexivity|]. cbn [size_]. lia.
Qed.

(** The bucket of the key after the second and third step of placing a
    record: it gained the node exactly when it had room. *)
Lemma place_bucket (n cap : nat) (pool : list Node) (k : string)
    (tbl tbl1 tbl2 : LockFreeHashTable) (q node : nat) (ok : bool) :
  table_wf n cap tbl -> (node < length pool)%nat -> length pool = n ->
  get_or_create k cap tbl = Ret (q, tbl1) ->
  add_node_at pool q node tbl1 = Ret (ok, tbl2) ->
  ok = negb (cap <=? bucket_size k tbl)%nat /\
  bucket_size k tbl2
  = (if ok then S (bucket_size k tbl) else bucket_size k tbl) /\
  (ok = true ->
     exists m2, get k tbl2 = Ret (Some q) /\ mid_store tbl2 !! q = Some m2 /\
                node ∈ heap_slots (nodes m2)).
Proof.
  intros (Hlen & Hheaps & _) Hnode Hn Hg Ha.
  destruct (add_node_at_inv _ _ _ _ _ _ Ha) as (m & h' & Hm & Hpush & ->).
  destruct (push_size _ _ _ _ _ Hpush) as (Hok & Hsz).
  assert (Hfacts : get k tbl1 = Ret (Some q) /\
                   bucket_size k tbl = size_ (nodes m) /\
                   heap_wf n cap (nodes m)).
  { destruct (get_or_create_inv _ _ _ _ _ Hg)
      as (chain & Hc & [[Hf ->]|(Hf & -> & ->)]).
    - assert (Hget : get k tbl = Ret (Some q)).
      { unfold get, load_head. rewrite Hc. cbn. rewrite Hf. reflexivity. }
      split; [exact Hget|]. unfold bucket_size. rewrite Hget, Hm.
      split; [reflexivity|]. apply Hheaps. eapply list_elem_of_lookup_2, Hm.
    - cbn [mid_store] in Hm.
      rewrite lookup_app_r, Nat.sub_diag in Hm by lia.
      injection Hm as <-. split; [|split].
      + unfold get, load_head. cbn [buckets].
        rewrite list_lookup_insert_eq by (eapply lookup_lt_Some, Hc).
        cbn. rewrite decide_True by reflexivity. reflexivity.
      + unfold bucket_size, get, load_head. rewrite Hc. cbn. rewrite Hf.
        reflexivity.
      + apply heap_wf_new. }
  destruct Hfacts as (Hget & Hbs & Hwf).
  pose proof Hwf as (Hcap & _).
  assert (Hget2 : get k (mkTable (buckets tbl1)
                           (<[q := mkMidpoint h']> (mid_store tbl1)))
                  = Ret (Some q)).
  { rewrite <- Hget. apply get_same_buckets. reflexivity. }
  assert (Hm2 : mid_store (mkTable (buckets tbl1)
                             (<[q := mkMidpoint h']> (mid_store tbl1))) !! q
                = Some (mkMidpoint h')).
  { cbn [mid_store]. apply list_lookup_insert_eq. eapply lookup_lt_Some, Hm. }
  split; [rewrite Hbs, <- Hcap; exact Hok|]. split.
  - unfold bucket_size at 1. rewrite Hget2, Hm2. cbn [nodes].
    rewrite Hbs. exact Hsz.
  - intros ->. exists (mkMidpoint h'). split; [exact Hget2|].
    split; [exact Hm2|]. cbn [nodes].
    rewrite <- Hn in Hwf.
    destruct (push_spec pool cap node (nodes m) Hwf Hnode)
      as (h2 & Hpush2 & _ & Hperm).
    rewrite Hpush in Hpush2. injection Hpush2 as Hb <-.
    rewrite Hperm. destruct (cap <=? size_ (nodes m))%nat; [discriminate|].
    left.
Qed.

(** [insert] in a state reached by calls: the result and what it leaves. *)
Lemma insert_cases (clk : N -> Z) (hist : list op) (R : list slot)
    (s : RadialCircularList) (v : float) (k : string) (p : Z) (e : float) :
  cache_inv clk hist R s -> castable e = true ->
  pool_index s + 1 < 2 ^ 64 ->
  exists b s',
    insert clk v k p e s = Ret (b, s') /\
    (b = true <->
       total_nodes s < max_nodes s /\ pool_index s < max_nodes s /\
       (bucket_size k (midpoints s) < Z.to_nat (max_nodes s / 10))%nat) /\
    (total_nodes s < max_nodes s -> pool_index s < max_nodes s ->
       pool_index s' = pool_index s + 1 /\
       total_nodes s' = (if b then total_nodes s + 1 else total_nodes s) /\
       bucket_size k (midpoints s')
       = (if b then S (bucket_size k (midpoints s))
          else bucket_size k (midpoints s)) /\
       all_slots (midpoints s')
         ≡ₚ (if b then [Z.to_nat (pool_index s)] else [])
            ++ all_slots (midpoints s) /\
       (exists n, node_pool s' !! Z.to_nat (pool_index s) = Some n /\
                  value n = v /\ priority n = p /\
                  timestamp_ns n = now_ns clk (ticks s) /\
                  expiry_to_ns e = Ret (expiry_time_ns n)) /\
       (b = true ->
          exists q m, get k (midpoints s') = Ret (Some q) /\
                      mid_store (midpoints s') !! q = Some m /\
                      Z.to_nat (pool_index s) ∈ heap_slots (nodes m))).
Proof.
  intros Hinv Hcast Hwrap.
  pose proof Hinv as [Hmax Hlen Htot Htp Hidx Hcore Hnuma].
  destruct (insert_spec clk hist R s v k p e Hinv Hcast Hwrap)
    as (b & s' & Hins & _ & _ & Hpi & Hti & _).
  exists b, s'. split; [exact Hins|].
  destruct (insert_inv _ _ _ _ _ _ _ _ Hins)
    as [(E1 & -> & _)|[(_ & E2 & -> & _)|
        (E1 & E2 & pool & q & tbl1 & tbl2 & Hw & Hg & Ha & ->)]].
  { split; [split; [discriminate|lia]|lia]. }
  { split; [split; [discriminate|lia]|lia]. }
  destruct (place_slots clk hist R _ _ pool _ tbl1 tbl2 (pool_index s)
              (ticks s) (pool_index s) v k p e q b Hcore ltac:(lia)
              ltac:(lia) Hw Hg Ha) as (Hperm & _ & Hlen').
  destruct (write_node_inv _ _ _ _ _ _ _ _ Hw) as (ns & Hns & Hlt & Hpool).
  destruct (place_bucket (length (node_pool s)) _ pool k (midpoints s) tbl1 tbl2
              q (Z.to_nat (pool_index s)) b
              (core_table _ _ _ _ _ _ _ Hcore) ltac:(lia) Hlen' Hg Ha)
    as (Hb & Hsz & Hin).
  split.
  - rewrite Hb. destruct (Nat.leb_spec (Z.to_nat (max_nodes s / 10))
                            (bucket_size k (midpoints s))); cbn [negb].
    + split; [discriminate|lia].
    + split; [auto|reflexivity].
  - intros _ _. cbn [pool_index total_nodes midpoints node_pool].
    rewrite wrap64_small by lia. split; [reflexivity|].
    split; [destruct b; [apply wrap64_small; lia|reflexivity]|].
    split; [exact Hsz|]. split; [exact Hperm|]. split.
    + exists (mkNode v p (now_ns clk (ticks s)) ns). rewrite Hpool.
      split; [apply list_lookup_insert_eq; exact Hlt|]. auto.
    + intros Hbt. destruct (Hin Hbt) as (m2 & Hget & Hm2 & Hx).
      exists q, m2. auto.
Qed.

(** X8: in every state a sequence of calls reaches on a cache built
    without NUMA, [insert] returns true exactly when [total_nodes] and the pool index are below [max_nodes] and
    the bucket of the key holds fewer than [max_nodes / 10] nodes; it then
    has written the record into the slot at the pool index, added that slot
    to the bucket of the key and to no other, and added one to
    [total_nodes] and to the pool index. *)
Theorem insert_succeeds_iff_room (clk : N -> Z) (max : Z) (ops : list op)
    (v : float) (k : string) (p : Z) (e : float) :
  0 <= max < 2 ^ 64 -> valid_ops ops = true -> castable e = true ->
  total_demand ops + 1 < 2 ^ 64 ->
  exists rs s b s',
    run clk ops (RadialCircularList_new false clk max) = Ret (rs, s) /\
    insert clk v k p e s = Ret (b, s') /\
    (b = true <->
       total_nodes s < max /\ pool_index s < max /\
       (bucket_size k (midpoints s) < Z.to_nat (max / 10))%nat) /\
    (b = true ->
       total_nodes s' = total_nodes s + 1 /\
       pool_index s' = pool_index s + 1 /\
       bucket_size k (midpoints s') = S (bucket_size k (midpoints s)) /\
       all_slots (midpoints s')
         ≡ₚ Z.to_nat (pool_index s) :: all_slots (midpoints s) /\
       exists n, node_pool s' !! Z.to_nat (pool_index s) = Some n /\
                 value n = v /\ priority n = p /\
                 timestamp_ns n = now_ns clk (ticks s) /\
                 expiry_to_ns e = Ret (expiry_time_ns n)).
Proof.
  intros Hmax Hvalid Hcast Hwrap.
  destruct (run_spec clk ops [] [] _ (new_cache_inv clk max Hmax) Hvalid)
    as (rs & s & Hrun & Hinv & Hm).
  { change (total_demand []) with 0. lia. }
  change (max_nodes (RadialCircularList_new false clk max)) with max in Hm.
  cbn [app] in Hinv. pose proof (inv_pool_idx _ _ _ _ Hinv) as Hidx.
  destruct (insert_cases clk _ _ s v k p e Hinv Hcast ltac:(lia))
    as (b & s' & Hins & Hiff & Heff).
  rewrite Hm in Hiff, Heff.
  exists rs, s, b, s'. split; [exact Hrun|]. split; [exact Hins|].
  split; [exact Hiff|]. intros ->.
  destruct Hiff as [Hiff _]. destruct (Hiff eq_refl) as (E1 & E2 & _).
  destruct (Heff E1 E2) as (Hpi & Hti & Hbs & Hperm & Hn & _).
  auto 10.
Qed.

Lemma insert_succeeds_iff_room_witness :
  exists rs s b s',
    run (fun t => Z.of_N t) [Insert 100 "AAPL" 1 60; Insert 101 "MSFT" 3 60]
      (RadialCircularList_new false (fun t => Z.of_N t) 20) = Ret (rs, s) /\
    insert (fun t => Z.of_N t) 100.5 "AAPL" 2 60 s = Ret (b, s') /\
    (b = true <->
       total_nodes s < 20 /\ pool_index s < 20 /\
       (bucket_size "AAPL" (midpoints s) < Z.to_nat (20 / 10))%nat) /\
    (b = true ->
       total_nodes s' = total_nodes s + 1 /\
       pool_index s' = pool_index s + 1 /\
       bucket_size "AAPL" (midpoints s')
       = S (bucket_size "AAPL" (midpoints s)) /\
       all_slots (midpoints s')
         ≡ₚ Z.to_nat (pool_index s) :: all_slots (midpoints s) /\
       exists n, node_pool s' !! Z.to_nat (pool_index s) = Some n /\
                 value n = 100.5%float /\ priority n = 2 /\
                 timestamp_ns n = now_ns (fun t => Z.of_N t) (ticks s) /\
                 expiry_to_ns 60 = Ret (expiry_time_ns n)).
Proof.
  apply (insert_succeeds_iff_room (fun t => Z.of_N t) 20
           [Insert 100 "AAPL" 1 60; Insert 101 "MSFT" 3 60]
           100.5 "AAPL" 2 60).
  - lia.
  - reflexivity.
  - reflexivity.
  - cbn. lia.
Defined.

Lemma insert_into_full_bucket (clk : N -> Z) (max : Z)
    (ops : list op) (v : float) (k : string) (p : Z) (e : float)
    (rs : list result) (s : RadialCircularList) :
  0 <= max < 2 ^ 64 -> valid_ops ops = true -> castable e = true ->
  total_demand ops + 1 < 2 ^ 64 ->
  run clk ops (RadialCircularList_new false clk max) = Ret (rs, s) ->
  total_nodes s < max -> pool_index s < max ->
  (Z.to_nat (max / 10) <= bucket_size k (midpoints s))%nat ->
  exists s',
    insert clk v k p e s = Ret (false, s') /\
    pool_index s' = pool_index s + 1 /\
    total_nodes s' = total_nodes s /\
    (exists n, node_pool s' !! Z.to_nat (pool_index s) = Some n /\
               value n = v /\ priority n = p) /\
    (Z.to_nat (pool_index s) ∉ all_slots (midpoints s')) /\
    all_slots (midpoints s') ≡ₚ all_slots (midpoints s) /\
    bucket_size k (midpoints s') = bucket_size k (midpoints s).
Proof.
  intros Hmax Hvalid Hcast Hwrap Hrun E1 E2 Hfull.
  destruct (run_spec clk ops [] [] _ (new_cache_inv clk max Hmax) Hvalid)
    as (rs2 & s2 & Hrun2 & Hinv & Hm).
  { change (total_demand []) with 0. lia. }
  rewrite Hrun in Hrun2. injection Hrun2 as <- <-.
  change (max_nodes (RadialCircularList_new false clk max)) with max in Hm.
  cbn [app] in Hinv. pose proof (inv_pool_idx _ _ _ _ Hinv) as Hidx.
  destruct (insert_cases clk _ _ s v k p e Hinv Hcast ltac:(lia))
    as (b & s' & Hins & Hiff & Heff).
  rewrite Hm in Hiff, Heff.
  destruct b.
  { destruct Hiff as [Hiff _]. destruct (Hiff eq_refl) as (_ & _ & Hlt). lia. }
  destruct (Heff E1 E2) as (Hpi & Hti & Hbs & Hperm & (n & Hn & Hv & Hp & _) & _).
  cbn [app] in Hperm.
  exists s'. split; [exact Hins|]. split; [exact Hpi|]. split; [exact Hti|].
  split; [exists n; auto|]. split; [|split; [exact Hperm|exact Hbs]].
  rewrite Hperm. intros Hin.
  pose proof (core_fresh _ _ _ _ _ _ _ (inv_core _ _ _ _ Hinv)
                (Z.to_nat (pool_index s))
                ltac:(apply elem_of_app; left; exact Hin)). lia.
Qed.

(** X9: an [insert] that passes both capacity checks and finds the bucket of
    its key full returns false after it has claimed a pool slot: the pool
    index has advanced by one, the record is written in the slot, no bucket
    holds the slot, and [total_nodes] is as before.  Since the pool index
    never goes back, the slot is lost to the cache.  This holds on a cache
    built with or without NUMA. *)
Theorem insert_into_full_bucket_loses_slot (numa : bool) (clk : N -> Z)
    (max : Z) (ops : list op) (v : float) (k : string) (p : Z) (e : float)
    (rs : list result) (s : RadialCircularList) :
  0 <= max < 2 ^ 64 -> valid_ops ops = true -> castable e = true ->
  total_demand ops + 1 < 2 ^ 64 ->
  run clk ops (RadialCircularList_new numa clk max) = Ret (rs, s) ->
  total_nodes s < max -> pool_index s < max ->
  (Z.to_nat (max / 10) <= bucket_size k (midpoints s))%nat ->
  exists s',
    insert clk v k p e s = Ret (false, s') /\
    pool_index s' = pool_index s + 1 /\
    total_nodes s' = total_nodes s /\
    (exists n, node_pool s' !! Z.to_nat (pool_index s) = Some n /\
               value n = v /\ priority n = p) /\
    (Z.to_nat (pool_index s) ∉ all_slots (midpoints s')) /\
    all_slots (midpoints s') ≡ₚ all_slots (midpoints s) /\
    bucket_size k (midpoints s') = bucket_size k (midpoints s).
Proof.
  intros Hmax Hvalid Hcast Hwrap Hrun E1 E2 Hfull.
  destruct (run_reached numa clk max ops rs s Hmax Hvalid ltac:(lia) Hrun)
    as (Hrun0 & _).
  destruct (insert_into_full_bucket clk max ops v k p e rs (with_numa false s)
              Hmax Hvalid Hcast Hwrap Hrun0 E1 E2 Hfull)
    as (s0 & Hins & Hrest).
  destruct (insert_with_numa clk v k p e (numa_pool s) _ _ _ Hins)
    as (Hs & _ & _).
  change (with_numa (numa_pool s) (with_numa false s))
    with (with_numa (numa_pool s) s) in Hs.
  rewrite with_numa_same in Hs.
  exists (with_numa (numa_pool s) s0). split; [exact Hs|exact Hrest].
Qed.

(** A cache of capacity 10, whose buckets hold one node each, after one
    insert under "AAPL": the second insert under that key. *)
Lemma insert_into_full_bucket_loses_slot_witness :
  exists rs s,
    run (fun t => Z.of_N t) [Insert 100 "AAPL" 1 60]
      (RadialCircularList_new true (fun t => Z.of_N t) 10) = Ret (rs, s) /\
    exists s',
      insert (fun t => Z.of_N t) 101 "AAPL" 3 60 s = Ret (false, s') /\
      pool_index s' = pool_index s + 1 /\
      total_nodes s' = total_nodes s /\
      (exists n, node_pool s' !! Z.to_nat (pool_index s) = Some n /\
                 value n = 101%float /\ priority n = 3) /\
      (Z.to_nat (pool_index s) ∉ all_slots (midpoints s')) /\
      all_slots (midpoints s') ≡ₚ all_slots (midpoints s) /\
      bucket_size "AAPL" (midpoints s') = bucket_size "AAPL" (midpoints s).
Proof.
  eexists _, _. split; [vm_compute; reflexivity|].
  eapply (insert_into_full_bucket_loses_slot true (fun t => Z.of_N t) 10
            [Insert 100 "AAPL" 1 60] 101 "AAPL" 3 60).
  - lia.
  - reflexivity.
  - reflexivity.
  - cbn. lia.
  - vm_compute. reflexivity.
  - cbn. lia.
  - cbn. lia.
  - vm_compute. lia.
Defined.

(** ** From an insert to the next retrieval *)

Lemma run_snoc_inv (clk : N -> Z) (o : op) (ops : list op) :
  forall s0 rs' s',
    run clk (ops ++ [o]) s0 = Ret (rs', s') ->
    exists rs s r,
      run clk ops s0 = Ret (rs, s) /\ step clk o s = Ret (r, s') /\
      rs' = rs ++ [r].
Proof.
  induction ops as [|o' ops IH]; intros s0 rs' s' H.
  - cbn [app run] in H.
    destruct (step clk o s0) as [[r s1]| | |] eqn:Hs; try discriminate.
    cbn [mbind outcome_bind] in H. injection H as <- <-.
    exists [], s0, r. auto.
  - cbn [app run] in H.
    destruct (step clk o' s0) as [[r1 s1]| | |] eqn:Hs; try discriminate.
    cbn [mbind outcome_bind] in H.
    destruct (run clk (ops ++ [o]) s1) as [[rs2 s2]| | |] eqn:Hr;
      try discriminate.
    cbn [mbind outcome_bind] in H. injection H as <- <-.
    destruct (IH _ _ _ Hr) as (rs & s & r & Hrun & Hstep & ->).
    exists (r1 :: rs), s, r. cbn [run]. rewrite Hs. cbn [mbind outcome_bind].
    rewrite Hrun. cbn [mbind outcome_bind]. auto.
Qed.

(** X16: a record is not missed by the retrieval that follows its insert,
    on a cache built without NUMA (its nodes came from [new], so that the
    [delete] of an expired node is defined).  After an [insert] that
    returned true, [get_highest_priority] on the same key returns a node
    whose priority is at least that of the record, unless the retrieval
    found the record expired at one of its own readings of the clock. *)
Theorem retrieval_after_insert (clk : N -> Z) (max : Z) (ops : list op)
    (v : float) (k : string) (p : Z) (e : float) :
  0 <= max < 2 ^ 64 -> valid_ops ops = true -> castable e = true ->
  total_demand ops + 1 < 2 ^ 64 ->
  exists rs s b s1 r s2,
    run clk ops (RadialCircularList_new false clk max) = Ret (rs, s) /\
    insert clk v k p e s = Ret (b, s1) /\
    get_highest_priority clk k s1 = Ret (r, s2) /\
    (b = true ->
       (exists x n, r = Some x /\ node_pool s2 !! x = Some n /\
                    p <= priority n) \/
       (exists n u, node_pool s2 !! Z.to_nat (pool_index s) = Some n /\
                    value n = v /\ priority n = p /\
                    (ticks s1 <= u < ticks s2)%N /\
                    is_expired (now_ns clk u) n = true)).
Proof.
  intros Hmax Hvalid Hcast Hwrap.
  assert (Hvalid' : valid_ops (ops ++ [Insert v k p e]) = true).
  { unfold valid_ops. rewrite forallb_app, andb_true_iff. split; [exact Hvalid|].
    cbn. rewrite Hcast. reflexivity. }
  assert (Hwrap' : total_demand (ops ++ [Insert v k p e]) < 2 ^ 64).
  { rewrite total_demand_snoc. cbn [demand]. lia. }
  destruct (run_ordered clk max _ Hmax Hvalid' Hwrap')
    as (rs' & s1 & Hrun' & Hinv1 & Hord1).
  destruct (run_snoc_inv _ _ _ _ _ _ Hrun') as (rs & s & r0 & Hrun & Hstep & ->).
  destruct (run_spec clk ops [] [] _ (new_cache_inv clk max Hmax) Hvalid)
    as (rs2 & s2 & Hrun2 & Hinv & _).
  { change (total_demand []) with 0. lia. }
  rewrite Hrun in Hrun2. injection Hrun2 as <- <-. cbn [app] in Hinv.
  pose proof (inv_pool_idx _ _ _ _ Hinv) as Hidx.
  destruct (insert_cases clk _ _ s v k p e Hinv Hcast ltac:(lia))
    as (b & s1' & Hins & Hiff & Heff).
  cbn [step] in Hstep. rewrite Hins in Hstep. cbn [mbind outcome_bind] in Hstep.
  injection Hstep as <- ->.
  destruct (get_highest_priority_spec clk _ _ s1 k Hinv1)
    as (r & s2 & Hget & Hinv2 & _ & _ & _ & Hpool & _ & Hres).
  exists rs, s, b, s1, r, s2. split; [exact Hrun|]. split; [exact Hins|].
  split; [exact Hget|]. intros ->.
  destruct Hiff as [Hiff _]. destruct (Hiff eq_refl) as (E1 & E2 & _).
  destruct (Heff E1 E2)
    as (_ & _ & _ & _ & (n & Hn & Hv & Hp & _) & Hin).
  destruct (Hin eq_refl) as (q & m & Hgk & Hm & Hx).
  set (i := Z.to_nat (pool_index s)) in *.
  destruct (retrieval_facts clk _ _ s1 s2 k r Hinv1 Hord1 Hget)
    as (_ & _ & Hleft).
  destruct (get_highest_priority_inv _ _ _ _ _ Hget)
    as [(Hnone & _)|(q' & m0 & m' & t' & del & Hgk' & Hm0 & Hloop & Hs2)];
    [congruence|].
  rewrite Hgk in Hgk'. injection Hgk' as <-.
  rewrite Hm in Hm0. injection Hm0 as <-.
  pose proof (core_table _ _ _ _ _ _ _ (inv_core _ _ _ _ Hinv1))
    as (_ & Hheaps & _).
  assert (Hwf : heap_wf (length (node_pool s1))
                  (Z.to_nat (max_nodes s1 / 10)) (nodes m)).
  { apply Hheaps. eapply list_elem_of_lookup_2, Hm. }
  unfold get_highest_priority_node in Hloop.
  rewrite (inv_numa _ _ _ _ Hinv1) in Hloop.
  destruct (get_highest_priority_node_loop_spec clk (node_pool s1) _ _
              (ticks s1) m Hwf (le_n _))
    as (r2 & m2 & t2 & del2 & Hloop2 & Hwf2 & Hperm & _).
  pose proof Hloop as Hloop'.
  rewrite Hloop2 in Hloop'. injection Hloop' as -> -> -> ->.
  destruct (get_highest_priority_node_loop_deleted _ clk (node_pool s1) _ _
              _ _ _ _ _ _ Hwf Hloop) as (Hdel & _).
  assert (Ht2 : ticks s2 = t') by (rewrite Hs2; reflexivity).
  assert (Hgk2 : get k (midpoints s2) = Ret (Some q)).
  { rewrite <- Hgk, Hs2. apply get_same_buckets. reflexivity. }
  assert (Hm2 : mid_store (midpoints s2) !! q = Some m').
  { rewrite Hs2. cbn [midpoints mid_store]. apply list_lookup_insert_eq.
    eapply lookup_lt_Some, Hm. }
  destruct (Hleft q m' Hgk2 Hm2) as (Hempty & Hmaxp).
  rewrite Hperm in Hx. rewrite !elem_of_app in Hx.
  destruct Hx as [Hx|[Hx|Hx]].
  - right. destruct (Hdel i Hx) as (n' & u & Hn' & Hu & He).
    rewrite Hn in Hn'. injection Hn' as <-.
    exists n, u. rewrite Hpool, Ht2. auto.
  - left. destruct r as [x|]; [|inversion Hx].
    apply list_elem_of_singleton in Hx as <-.
    exists i, n. rewrite Hpool. split; [reflexivity|]. split; [exact Hn|lia].
  - left. destruct r as [x|].
    + destruct (Hres x eq_refl) as (nx & Hnx & _).
      exists x, nx. rewrite Hpool. split; [reflexivity|]. split; [exact Hnx|].
      rewrite <- Hp. apply (Hmaxp x nx i n eq_refl); rewrite ?Hpool; auto.
    + exfalso. specialize (Hempty eq_refl).
      destruct Hwf2 as (_ & _ & Hcells).
      destruct (elem_of_slots_of _ _ _ _ Hcells Hx) as (j & Hj & _). lia.
Qed.

Lemma retrieval_after_insert_witness :
  exists rs s b s1 r s2,
    run (fun t => Z.of_N t) [Insert 100 "AAPL" 1 60; Insert 101 "AAPL" 3 60]
      (RadialCircularList_new false (fun t => Z.of_N t) 30) = Ret (rs, s) /\
    insert (fun t => Z.of_N t) 100.5 "AAPL" 2 60 s = Ret (b, s1) /\
    get_highest_priority (fun t => Z.of_N t) "AAPL" s1 = Ret (r, s2) /\
    (b = true ->
       (exists x n, r = Some x /\ node_pool s2 !! x = Some n /\
                    2 <= priority n) \/
       (exists n u, node_pool s2 !! Z.to_nat (pool_index s) = Some n /\
                    value n = 100.5%float /\ priority n = 2 /\
                    (ticks s1 <= u < ticks s2)%N /\
                    is_expired (now_ns (fun t => Z.of_N t) u) n = true)).
Proof.
  apply (retrieval_after_insert (fun t => Z.of_N t) 30
           [Insert 100 "AAPL" 1 60; Insert 101 "AAPL" 3 60]
           100.5 "AAPL" 2 60).
  - lia.
  - reflexivity.
  - reflexivity.
  - cbn. lia.
Defined.

(** ** The batch retrieval *)

(** [get_highest_priority_batch] makes the calls of [get_highest_priority]
    on its keys, one after the other: the states it goes through are states
    that sequences of calls reach. *)
Lemma get_highest_priority_batch_run (clk : N -> Z) (ks : list string)
    (s : RadialCircularList) :
  run clk (map GetHighestPriority ks) s
  = ('(rs, s') ← get_highest_priority_batch clk ks s; Ret (map RNode rs, s')).
Proof.
  revert s. induction ks as [|k ks IH]; intros s; [reflexivity|].
  cbn [map run step get_highest_priority_batch].
  destruct (get_highest_priority clk k s) as [[r s1]| | |];
    cbn [mbind outcome_bind]; try reflexivity.
  rewrite IH.
  destruct (get_highest_priority_batch clk ks s1) as [[rs s2]| | |];
    reflexivity.
Qed.

(** ** Two calls of [get_or_create], one after the other *)

Lemma exec_app (k1 k2 : string) (a b : list bool) :
  forall st,
    Race.exec k1 k2 (a ++ b) st = Race.exec k1 k2 b (Race.exec k1 k2 a st).
Proof.
  induction a as [|who a IH]; intros [[sh p1] p2]; [reflexivity|].
  cbn [app Race.exec]. destruct who.
  - destruct (Race.thread_step k2 sh p2) as [sh' p2']. apply IH.
  - destruct (Race.thread_step k1 sh p1) as [sh' p1']. apply IH.
Qed.

(** A thread that has returned takes no further step. *)
Lemma exec_returned_first (k1 k2 : string) (n : nat) (sh : Race.shared)
    (b : nat) (p2 : Race.pc) :
  Race.exec k1 k2 (replicate n false) (sh, Race.Done b, p2)
  = (sh, Race.Done b, p2).
Proof. induction n as [|n IH]; [reflexivity|exact IH]. Qed.

Lemma exec_returned_second (k1 k2 : string) (n : nat) (sh : Race.shared)
    (p1 : Race.pc) (b : nat) :
  Race.exec k1 k2 (replicate n true) (sh, p1, Race.Done b)
  = (sh, p1, Race.Done b).
Proof. induction n as [|n IH]; [reflexivity|exact IH]. Qed.

(** The six steps of a call that finds the shard of its key empty, and the
    two steps of a call that finds the key at the head of its shard. *)
Lemma exec_first_call (k : string) (p2 : Race.pc) :
  Race.exec k k (replicate 6 false) (Race.init, Race.Start, p2)
  = (Race.mkShared (<[Z.to_nat (hash k) := Some 0%nat]> (Race.heads Race.init))
       [Race.mkNode k None],
     Race.Done 0, p2).
Proof.
  pose proof (hash_range k) as Hr. unfold BUCKETS in Hr.
  assert (Hh : Race.heads Race.init !! Z.to_nat (hash k) = Some None).
  { apply lookup_replicate_2. unfold BUCKETS. lia. }
  cbn [replicate Race.exec Race.thread_step]. rewrite Hh.
  cbn [Race.exec Race.thread_step Race.heads Race.objs length app].
  rewrite Hh. cbn [Race.exec Race.thread_step Race.heads Race.objs].
  rewrite Hh. rewrite decide_True by reflexivity. reflexivity.
Qed.

Lemma exec_second_call (k : string) (heads : list (option nat))
    (p1 : Race.pc) :
  (Z.to_nat (hash k) < length heads)%nat ->
  Race.exec k k (replicate 2 true)
    (Race.mkShared (<[Z.to_nat (hash k) := Some 0%nat]> heads)
       [Race.mkNode k None], p1, Race.Start)
  = (Race.mkShared (<[Z.to_nat (hash k) := Some 0%nat]> heads)
       [Race.mkNode k None], p1, Race.Done 0).
Proof.
  intros Hlt.
  cbn [replicate Race.exec Race.thread_step Race.heads].
  rewrite list_lookup_insert_eq by exact Hlt.
  cbn [Race.exec Race.thread_step Race.objs lookup list_lookup Race.key].
  rewrite decide_True by reflexivity. reflexivity.
Qed.

(** X6: when a call of [get_or_create] on an empty index has returned before
    a second call on the same key starts, the second call returns the bucket
    of the first and allocates nothing: the shard of the key ends with one
    reachable bucket node.  The schedule runs the first thread for [n1]
    steps and then the second for [n2]; six and two steps are what the calls
    need, and a thread that has returned takes no further step. *)
Theorem get_or_create_one_after_the_other (k : string) (n1 n2 : nat) :
  (6 <= n1)%nat -> (2 <= n2)%nat ->
  exists sh,
    Race.exec k k (replicate n1 false ++ replicate n2 true)
      (Race.init, Race.Start, Race.Start)
    = (sh, Race.Done 0, Race.Done 0) /\
    Race.objs sh = [Race.mkNode k None] /\
    Race.reachable_keys k sh = [k].
Proof.
  intros H1 H2.
  pose proof (hash_range k) as Hr. unfold BUCKETS in Hr.
  replace n1 with (6 + (n1 - 6))%nat by lia.
  replace n2 with (2 + (n2 - 2))%nat by lia.
  rewrite !replicate_add, !exec_app.
  rewrite exec_first_call, exec_returned_first.
  rewrite exec_second_call.
  2:{ unfold Race.init. cbn [Race.heads]. rewrite length_replicate.
      unfold BUCKETS. lia. }
  rewrite exec_returned_second.
  eexists. split; [reflexivity|]. split; [reflexivity|].
  unfold Race.reachable_keys. cbn [Race.heads Race.objs].
  rewrite list_lookup_insert_eq.
  2:{ unfold Race.init. cbn [Race.heads]. rewrite length_replicate.
      unfold BUCKETS. lia. }
  reflexivity.
Qed.

Lemma get_or_create_one_after_the_other_witness :
  exists sh,
    Race.exec "AAPL" "AAPL" (replicate 6 false ++ replicate 3 true)
      (Race.init, Race.Start, Race.Start)
    = (sh, Race.Done 0, Race.Done 0) /\
    Race.objs sh = [Race.mkNode "AAPL" None] /\
    Race.reachable_keys "AAPL" sh = ["AAPL"].
Proof.
  apply (get_or_create_one_after_the_other "AAPL" 6 3); lia.
Defined.

(** ** A batch refused at the pool check *)

(** X11: an [insert_batch] that passes the check on [total_nodes] and fails
    the check on the pool index returns false and places nothing, but keeps
    the pool index it has advanced by the size of the batch; the index is
    then above [max_nodes], and every later [insert] returns false, whatever
    room [total_nodes] and the buckets still show.  This holds on a cache
    built with or without NUMA. *)
Theorem refused_batch_closes_cache (numa : bool) (clk : N -> Z) (max : Z)
    (ops : list op) (batch : list item) (rs : list result)
    (s : RadialCircularList) :
  0 <= max < 2 ^ 64 -> valid_ops ops = true ->
  total_demand ops + Z.of_nat (length batch) < 2 ^ 64 ->
  run clk ops (RadialCircularList_new numa clk max) = Ret (rs, s) ->
  total_nodes s + Z.of_nat (length batch) <= max ->
  max < pool_index s + Z.of_nat (length batch) ->
  exists s',
    insert_batch clk batch s = Ret (false, s') /\
    pool_index s' = pool_index s + Z.of_nat (length batch) /\
    midpoints s' = midpoints s /\ node_pool s' = node_pool s /\
    total_nodes s' = total_nodes s /\
    forall v k p e,
      exists s'', insert clk v k p e s' = Ret (false, s'') /\
                  midpoints s'' = midpoints s /\
                  total_nodes s'' = total_nodes s.
Proof.
  intros Hmax Hvalid Hwrap Hrun E1 E2.
  destruct (run_reached numa clk max ops rs s Hmax Hvalid ltac:(lia) Hrun)
    as (_ & Hinv & Hm & _).
  destruct Hinv as [_ _ Htot _ Hidx _ _].
  cbn [with_numa total_nodes pool_index] in Htot, Hidx.
  set (n := Z.of_nat (length batch)) in *.
  assert (Hn : 0 <= n) by (unfold n; lia).
  unfold insert_batch. fold n. rewrite Hm.
  rewrite (wrap64_small n) by lia.
  rewrite (wrap64_small (total_nodes s + n)) by lia.
  rewrite (wrap64_small (pool_index s + n)) by lia.
  destruct (Z.ltb_spec max (total_nodes s + n)) as [|_]; [lia|].
  destruct (Z.ltb_spec max (pool_index s + n)) as [_|]; [|lia].
  eexists. split; [reflexivity|]. cbn [pool_index midpoints node_pool total_nodes].
  split; [reflexivity|]. split; [reflexivity|]. split; [reflexivity|].
  split; [reflexivity|]. intros v k p e.
  unfold insert. cbn [max_nodes total_nodes pool_index].
  destruct (max <=? total_nodes s); [eexists; split; [reflexivity|auto]|].
  destruct (Z.leb_spec max (pool_index s + n)) as [_|]; [|lia].
  eexists. split; [reflexivity|]. auto.
Qed.

(** A cache of capacity 20, whose buckets hold two nodes each: the third
    insert under "AAPL" loses its slot, so that two records are counted and
    three slots are claimed; a batch of 18 records is then refused at the
    pool check. *)
Lemma refused_batch_closes_cache_witness :
  exists rs s,
    run (fun t => Z.of_N t)
      [Insert 100 "AAPL" 1 60; Insert 101 "AAPL" 3 60; Insert 100.5 "AAPL" 2 60]
      (RadialCircularList_new true (fun t => Z.of_N t) 20) = Ret (rs, s) /\
    exists s',
      insert_batch (fun t => Z.of_N t)
        (replicate 18 (102%float, "MSFT", 1, 60%float)) s = Ret (false, s') /\
      pool_index s' = pool_index s + Z.of_nat 18 /\
      midpoints s' = midpoints s /\ node_pool s' = node_pool s /\
      total_nodes s' = total_nodes s /\
      forall v k p e,
        exists s'', insert (fun t => Z.of_N t) v k p e s' = Ret (false, s'') /\
                    midpoints s'' = midpoints s /\
                    total_nodes s'' = total_nodes s.
Proof.
  eexists _, _. split; [vm_compute; reflexivity|].
  eapply (refused_batch_closes_cache true (fun t => Z.of_N t) 20
            [Insert 100 "AAPL" 1 60; Insert 101 "AAPL" 3 60;
             Insert 100.5 "AAPL" 2 60]
            (replicate 18 (102%float, "MSFT", 1, 60%float))).
  - lia.
  - reflexivity.
  - cbn. lia.
  - vm_compute. reflexivity.
  - cbn. lia.
  - cbn. lia.
Defined.

(** ** The lifetime cast and the clock *)

Lemma expiry_to_ns_uncastable (e : float) :
  castable e = false -> expiry_to_ns e = UB.
Proof.
  unfold castable, expiry_to_ns, double_to_uint64.
  destruct (Prim2SF (e * 1000000000)) as [[]|[]| |[] m ex]; try reflexivity;
    try discriminate.
  - destruct (_ =? 0); [discriminate|reflexivity].
  - destruct (_ <? 2 ^ 64); [discriminate|reflexivity].
Qed.

(** X10: an [insert] whose lifetime, in nanoseconds, has no [uint64_t] value
    (it is negative, not a number, infinite, or 2^64 ns and more) is
    undefined when it passes both capacity checks, because the cast is made
    when the fields of the node are written; when a capacity check fails the
    call returns false before the cast.  This holds on a cache built with
    or without NUMA. *)
Theorem insert_uncastable_expiry (numa : bool) (clk : N -> Z) (max : Z)
    (ops : list op) (v : float) (k : string) (p : Z) (e : float)
    (rs : list result) (s : RadialCircularList) :
  0 <= max < 2 ^ 64 -> valid_ops ops = true -> total_demand ops < 2 ^ 64 ->
  run clk ops (RadialCircularList_new numa clk max) = Ret (rs, s) ->
  castable e = false ->
  (total_nodes s < max -> pool_index s < max ->
     insert clk v k p e s = UB) /\
  (max <= total_nodes s \/ max <= pool_index s ->
     exists s', insert clk v k p e s = Ret (false, s')).
Proof.
  intros Hmax Hvalid Hwrap Hrun Hcast.
  destruct (run_reached numa clk max ops rs s Hmax Hvalid Hwrap Hrun)
    as (_ & Hinv & Hm & _).
  destruct Hinv as [_ Hlen _ _ Hidx _ _].
  cbn [with_numa max_nodes node_pool pool_index] in Hlen, Hidx.
  unfold insert. rewrite Hm. split.
  - intros E1 E2.
    destruct (Z.leb_spec max (total_nodes s)) as [|_]; [lia|].
    destruct (Z.leb_spec max (pool_index s)) as [|_]; [lia|].
    unfold write_node. rewrite decide_True by lia.
    rewrite (expiry_to_ns_uncastable e Hcast). reflexivity.
  - intros E.
    destruct (Z.leb_spec max (total_nodes s)); [eexists; reflexivity|].
    destruct (Z.leb_spec max (pool_index s)); [eexists; reflexivity|lia].
Qed.

(** A lifetime of -1 s. *)
Lemma insert_uncastable_expiry_witness :
  exists rs s,
    run (fun t => Z.of_N t) [Insert 100 "AAPL" 1 60]
      (RadialCircularList_new true (fun t => Z.of_N t) 20) = Ret (rs, s) /\
    (total_nodes s < 20 -> pool_index s < 20 ->
       insert (fun t => Z.of_N t) 101 "AAPL" 3 (-1) s = UB) /\
    (20 <= total_nodes s \/ 20 <= pool_index s ->
       exists s', insert (fun t => Z.of_N t) 101 "AAPL" 3 (-1) s
                  = Ret (false, s')).
Proof.
  eexists _, _. split; [vm_compute; reflexivity|].
  eapply (insert_uncastable_expiry true (fun t => Z.of_N t) 20
            [Insert 100 "AAPL" 1 60] 101 "AAPL" 3 (-1)).
  - lia.
  - reflexivity.
  - reflexivity.
  - vm_compute. reflexivity.
  - reflexivity.
Defined.

(** X21: [is_expired] subtracts in [uint64_t].  When the clock reads earlier
    than the stamp of the node, by [d] ns, the difference wraps to
    2^64 - [d], and the node is expired unless its lifetime is at least
    that: a reading of a clock that went back expires every record of an
    ordinary lifetime. *)
Theorem is_expired_clock_went_back (now : Z) (n : Node) :
  0 <= now < timestamp_ns n -> timestamp_ns n < 2 ^ 64 ->
  (is_expired now n = true <->
   expiry_time_ns n < 2 ^ 64 - (timestamp_ns n - now)).
Proof.
  intros H1 H2. rewrite is_expired_iff.
  assert (E : wrap64 (now - timestamp_ns n) = now - timestamp_ns n + 2 ^ 64).
  { unfold wrap64. symmetry. apply (Z.mod_unique _ _ (-1)); lia. }
  rewrite E. lia.
Qed.

Lemma is_expired_clock_went_back_witness :
  is_expired 5 (mkNode 100 1 10 60000000000) = true <->
  expiry_time_ns (mkNode 100 1 10 60000000000)
  < 2 ^ 64 - (timestamp_ns (mkNode 100 1 10 60000000000) - 5).
Proof.
  apply (is_expired_clock_went_back 5 (mkNode 100 1 10 60000000000)).
  - cbn. lia.
  - cbn. lia.
Defined.

(** ** Two threads inside [get_or_create]: every interleaving *)

(** A step of a thread keeps the shared index valid, leaves the thread at a
    valid program point, and keeps valid the program point of any other
    thread. *)
Lemma thread_step_ok (k : string) (sh sh' : Race.shared) (p p' : Race.pc) :
  shared_ok sh -> pc_ok k sh p ->
  Race.thread_step k sh p = (sh', p') ->
  shared_ok sh' /\ pc_ok k sh' p' /\
  (forall k' q, pc_ok k' sh q -> pc_ok k' sh' q).
Proof.
  intros (Hlen & Hheads & Hnext) Hp Hstep.
  pose proof (hash_range k) as Hr.
  assert (Hidx : (Z.to_nat (hash k) < length (Race.heads sh))%nat).
  { rewrite Hlen. lia. }
  destruct (lookup_lt_is_Some_2 _ _ Hidx) as [cur Hcur].
  assert (Hsame : forall k' q, pc_ok k' sh q -> pc_ok k' sh q) by auto.
  destruct p as [|[h|]| |n|n head|n head|b|]; cbn [Race.thread_step] in Hstep;
    cbn [pc_ok] in Hp.
  - rewrite Hcur in Hstep. injection Hstep as <- <-.
    split; [repeat split; assumption|]. split; [|exact Hsame].
    intros h ->. eapply Hheads, Hcur.
  - destruct (lookup_lt_is_Some_2 _ _ (Hp h eq_refl)) as [nd Hnd].
    rewrite Hnd in Hstep.
    destruct (decide (Race.key nd = k)) as [Hk|Hk]; injection Hstep as <- <-;
      (split; [repeat split; assumption|]); (split; [|exact Hsame]).
    + exists nd. auto.
    + intros h' Hh'. eapply Hnext; eauto.
  - injection Hstep as <- <-.
    split; [repeat split; assumption|]. split; [exact I|exact Hsame].
  - injection Hstep as <- <-.
    assert (Hgrow : forall m nd, Race.objs sh !! m = Some nd ->
              (Race.objs sh ++ [Race.mkNode k None]) !! m = Some nd).
    { intros m nd Hm. rewrite lookup_app_l; [exact Hm|].
      eapply lookup_lt_Some, Hm. }
    split; [|split].
    + split; [exact Hlen|]. cbn [Race.heads Race.objs]. split.
      * intros i h Hi. rewrite length_app. specialize (Hheads i h Hi). lia.
      * intros h nd h' Hnd Hn. rewrite length_app.
        apply lookup_app_Some in Hnd as [Hnd|[_ Hnd]].
        -- specialize (Hnext h nd h' Hnd Hn). lia.
        -- destruct (h - length (Race.objs sh))%nat; [|discriminate].
           injection Hnd as <-. discriminate.
    + cbn [pc_ok]. exists (Race.mkNode k None). cbn [Race.objs].
      split; [|reflexivity]. rewrite lookup_app_r, Nat.sub_diag by lia.
      reflexivity.
    + intros k' q Hq.
      assert (Hv : forall head, valid_ptr sh head ->
                valid_ptr (Race.mkShared (Race.heads sh)
                             (Race.objs sh ++ [Race.mkNode k None])) head).
      { intros head Hh h ->. cbn [Race.objs]. rewrite length_app.
        specialize (Hh h eq_refl). lia. }
      assert (Hk : forall m, holds_key sh k' m ->
                holds_key (Race.mkShared (Race.heads sh)
                             (Race.objs sh ++ [Race.mkNode k None])) k' m).
      { intros m (nd & Hm & Hkey). exists nd. split; [apply Hgrow, Hm|exact Hkey]. }
      destruct q; cbn [pc_ok] in *; auto.
      * destruct Hq. auto.
      * destruct Hq. auto.
  - rewrite Hcur in Hstep. injection Hstep as <- <-.
    split; [repeat split; assumption|]. split; [|exact Hsame].
    cbn [pc_ok]. split; [exact Hp|]. intros h ->. eapply Hheads, Hcur.
  - injection Hstep as <- <-. destruct Hp as ((nd & Hn & Hkey) & Hhead).
    assert (Hlt : (n < length (Race.objs sh))%nat)
      by (eapply lookup_lt_Some, Hn).
    assert (Hv : forall head', valid_ptr sh head' ->
              valid_ptr (Race.mkShared (Race.heads sh)
                           (<[n := Race.mkNode k head]> (Race.objs sh))) head').
    { intros head' Hh h ->. cbn [Race.objs]. rewrite length_insert.
      apply (Hh h eq_refl). }
    assert (Hk : forall k' m, holds_key sh k' m ->
              holds_key (Race.mkShared (Race.heads sh)
                           (<[n := Race.mkNode k head]> (Race.objs sh))) k' m).
    { intros k' m (nd' & Hm & Hkey'). unfold holds_key. cbn [Race.objs].
      destruct (decide (m = n)) as [->|Hne].
      - exists (Race.mkNode k head).
        rewrite list_lookup_insert_eq by exact Hlt. split; [reflexivity|].
        cbn. congruence.
      - exists nd'. rewrite list_lookup_insert_ne by congruence. auto. }
    split; [|split].
    + split; [exact Hlen|]. cbn [Race.heads Race.objs]. split.
      * intros i h Hi. rewrite length_insert. eapply Hheads, Hi.
      * intros h nd' h' Hnd' Hn'. rewrite length_insert.
        destruct (decide (h = n)) as [->|Hne].
        -- rewrite list_lookup_insert_eq in Hnd' by exact Hlt.
           injection Hnd' as <-. cbn in Hn'. apply (Hhead h' Hn').
        -- rewrite list_lookup_insert_ne in Hnd' by congruence.
           eapply Hnext; eauto.
    + cbn [pc_ok]. split; [apply Hk; exists nd; auto|apply Hv, Hhead].
    + intros k' q Hq. destruct q; cbn [pc_ok] in *; auto.
      * destruct Hq. auto.
      * destruct Hq. auto.
  - rewrite Hcur in Hstep. destruct Hp as (Hn & Hhead).
    destruct (decide (cur = head)) as [->|Hne]; injection Hstep as <- <-.
    + split; [|split; [exact Hn|]].
      * split; [cbn [Race.heads]; rewrite length_insert; exact Hlen|].
        cbn [Race.heads Race.objs]. split; [|exact Hnext].
        intros i h Hi.
        destruct (decide (i = Z.to_nat (hash k))) as [->|Hi'].
        -- rewrite list_lookup_insert_eq in Hi by exact Hidx.
           injection Hi as <-. destruct Hn as (nd & Hn & _).
           eapply lookup_lt_Some, Hn.
        -- rewrite list_lookup_insert_ne in Hi by congruence.
           eapply Hheads, Hi.
      * intros k' q Hq. destruct q; cbn [pc_ok] in *; auto.
    + split; [repeat split; assumption|]. split; [exact Hn|exact Hsame].
  - injection Hstep as <- <-.
    split; [repeat split; assumption|]. split; [exact Hp|exact Hsame].
  - destruct Hp.
Qed.

Lemma exec_ok (k1 k2 : string) (schedule : list bool) :
  forall sh p1 p2 sh' p1' p2',
    shared_ok sh -> pc_ok k1 sh p1 -> pc_ok k2 sh p2 ->
    Race.exec k1 k2 schedule (sh, p1, p2) = (sh', p1', p2') ->
    shared_ok sh' /\ pc_ok k1 sh' p1' /\ pc_ok k2 sh' p2'.
Proof.
  induction schedule as [|who rest IH]; intros sh p1 p2 sh' p1' p2' Hs H1 H2 He.
  - injection He as <- <- <-. auto.
  - cbn [Race.exec] in He. destruct who.
    + destruct (Race.thread_step k2 sh p2) as [sh2 q2] eqn:Hstep.
      destruct (thread_step_ok k2 sh sh2 p2 q2 Hs H2 Hstep) as (Hs' & H2' & Hst).
      apply (IH sh2 p1 q2 _ _ _ Hs' (Hst k1 p1 H1) H2' He).
    + destruct (Race.thread_step k1 sh p1) as [sh1 q1] eqn:Hstep.
      destruct (thread_step_ok k1 sh sh1 p1 q1 Hs H1 Hstep) as (Hs' & H1' & Hst).
      apply (IH sh1 q1 p2 _ _ _ Hs' H1' (Hst k2 p2 H2) He).
Qed.

(** X7: under every interleaving of two calls of [get_or_create] on an empty
    index, on equal or different keys, no call dereferences a pointer that
    is not an allocated bucket node or indexes the heads out of range, and a
    call that returns, returns a bucket node holding its own key. *)
Theorem get_or_create_interleavings_safe (k1 k2 : string)
    (schedule : list bool) (sh : Race.shared) (p1 p2 : Race.pc) :
  Race.exec k1 k2 schedule (Race.init, Race.Start, Race.Start) = (sh, p1, p2) ->
  p1 <> Race.Crashed /\ p2 <> Race.Crashed /\
  (forall b, p1 = Race.Done b ->
     exists nd, Race.objs sh !! b = Some nd /\ Race.key nd = k1) /\
  (forall b, p2 = Race.Done b ->
     exists nd, Race.objs sh !! b = Some nd /\ Race.key nd = k2).
Proof.
  intros He.
  destruct (exec_ok k1 k2 schedule Race.init Race.Start Race.Start sh p1 p2)
    as (_ & H1 & H2); [|exact I|exact I|exact He|].
  { split; [apply length_replicate|]. split.
    - intros i h Hi. unfold Race.init in Hi. cbn [Race.heads] in Hi.
      apply lookup_replicate in Hi as [Hi _]. discriminate.
    - intros h n h' Hn. inversion Hn. }
  split; [intros ->; exact H1|]. split; [intros ->; exact H2|].
  split; intros b ->; [exact H1|exact H2].
Qed.

(** An interleaving in which both calls find the shard empty and both
    install a node. *)
Lemma get_or_create_interleavings_safe_witness :
  Race.Done 0 <> Race.Crashed /\ Race.Done 1 <> Race.Crashed /\
  (forall b, Race.Done 0 = Race.Done b ->
     exists nd, [Race.mkNode "AAPL" (Some 1%nat); Race.mkNode "AAPL" None] !! b
                = Some nd /\ Race.key nd = "AAPL") /\
  (forall b, Race.Done 1 = Race.Done b ->
     exists nd, [Race.mkNode "AAPL" (Some 1%nat); Race.mkNode "AAPL" None] !! b
                = Some nd /\ Race.key nd = "AAPL").
Proof.
  apply (get_or_create_interleavings_safe "AAPL" "AAPL"
           [true; false; true; false; false; true; true; true; true;
            false; false; false; false; false; false]
           (Race.mkShared (<[11%nat := Some 0%nat]> (replicate 64 None))
              [Race.mkNode "AAPL" (Some 1%nat); Race.mkNode "AAPL" None])
           (Race.Done 0) (Race.Done 1)).
  vm_compute. reflexivity.
Defined.

(** ** An accepted batch and the inserts of its records *)

Lemma insert_batch_loop_as_inserts (clk : N -> Z) (max : Z)
    (fr : list slot) (nm : bool) (start : Z) (batch : list item) :
  forall i pool tbl t total pool' tbl' t',
    0 <= start -> 0 <= i -> 0 <= total -> max < 2 ^ 64 ->
    total + Z.of_nat (length batch) <= max ->
    start + i + Z.of_nat (length batch) <= max ->
    insert_batch_loop clk (Z.to_nat (max / 10)) start i batch pool tbl t
      = Ret (pool', tbl', t') ->
    exists rs,
      run clk (inserts_of batch)
        (mkCache tbl max total pool (start + i) t fr nm)
      = Ret (rs, mkCache tbl' max (total + successes rs) pool'
                   (start + i + Z.of_nat (length batch)) t' fr nm) /\
      length rs = length batch.
Proof.
  induction batch as [|[[[v k] p] e] rest IH];
    intros i pool tbl t total pool' tbl' t' Hs Hi Ht Hm E1 E2 Hl.
  - cbn in Hl. injection Hl as <- <- <-. exists []. cbn.
    rewrite !Z.add_0_r. auto.
  - cbn [insert_batch_loop] in Hl. cbn [length] in E1, E2.
    rewrite (wrap64_small (start + i)) in Hl by lia.
    destruct (write_node clk t pool (start + i) v p e) as [pool1| | |] eqn:Hw;
      try discriminate.
    cbn [mbind outcome_bind] in Hl.
    destruct (get_or_create k (Z.to_nat (max / 10)) tbl)
      as [[q tbl1]| | |] eqn:Hg; try discriminate.
    cbn [mbind outcome_bind] in Hl.
    destruct (add_node_at pool1 q (Z.to_nat (start + i)) tbl1)
      as [[ok tbl2]| | |] eqn:Ha; try discriminate.
    cbn [mbind outcome_bind] in Hl.
    destruct (IH (i + 1) pool1 tbl2 (N.succ t)
                (if ok then total + 1 else total) pool' tbl' t'
                Hs ltac:(lia) ltac:(destruct ok; lia) Hm
                ltac:(destruct ok; lia) ltac:(lia) Hl) as (rs & Hrun & Hlen).
    exists (RBool ok :: rs). split; [|cbn [length]; lia].
    cbn [inserts_of map run step fst snd]. unfold insert.
    cbn [max_nodes total_nodes pool_index ticks node_pool midpoints freed
         numa_pool].
    destruct (Z.leb_spec max total) as [|_]; [lia|].
    destruct (Z.leb_spec max (start + i)) as [|_]; [lia|].
    rewrite Hw. cbn [mbind outcome_bind]. rewrite Hg. cbn [mbind outcome_bind].
    rewrite Ha. cbn [mbind outcome_bind].
    rewrite (wrap64_small (start + i + 1)) by lia.
    replace (if ok then wrap64 (total + 1) else total)
      with (if ok then total + 1 else total)
      by (destruct ok; [rewrite wrap64_small by lia|]; reflexivity).
    replace (start + i + 1) with (start + (i + 1)) by lia.
    fold (inserts_of rest). rewrite Hrun. cbn [mbind outcome_bind].
    assert (E3 : (if ok then total + 1 else total) + successes rs
                 = total + successes (RBool ok :: rs))
      by (destruct ok; cbn [successes]; lia).
    assert (E4 : start + (i + 1) + Z.of_nat (length rest)
                 = start + i + Z.of_nat (length ((v, k, p, e) :: rest)))
      by (cbn [length]; lia).
    rewrite E3, E4. reflexivity.
Qed.

(** X23: an [insert_batch] that returns true leaves the key index, the
    pool, the pool index and the clock as the calls of [insert] on its
    records, made one after the other, leave them, and all those calls pass
    both capacity checks; the difference is in [total_nodes], to which the
    batch adds its size whereas the inserts add one for every record whose
    bucket had room. *)
Theorem accepted_batch_as_inserts (clk : N -> Z) (batch : list item)
    (s s1 : RadialCircularList) :
  0 <= total_nodes s -> 0 <= pool_index s -> max_nodes s < 2 ^ 64 ->
  total_nodes s + Z.of_nat (length batch) < 2 ^ 64 ->
  pool_index s + Z.of_nat (length batch) < 2 ^ 64 ->
  insert_batch clk batch s = Ret (true, s1) ->
  exists rs s2,
    run clk (inserts_of batch) s = Ret (rs, s2) /\
    length rs = length batch /\
    midpoints s2 = midpoints s1 /\ node_pool s2 = node_pool s1 /\
    pool_index s2 = pool_index s1 /\ ticks s2 = ticks s1 /\
    freed s2 = freed s1 /\ max_nodes s2 = max_nodes s1 /\
    total_nodes s2 = total_nodes s + successes rs /\
    total_nodes s1 = total_nodes s + Z.of_nat (length batch).
Proof.
  intros Ht Hp Hm Hw1 Hw2 Hrun.
  pose proof (insert_batch_inv _ _ _ _ _ _ eq_refl Hrun) as Hcases.
  rewrite (wrap64_small (Z.of_nat (length batch))) in Hcases by lia.
  rewrite (wrap64_small (total_nodes s + _)) in Hcases by lia.
  rewrite (wrap64_small (pool_index s + _)) in Hcases by lia.
  destruct Hcases as [(_ & Hb & _)|[(_ & _ & Hb & _)|
                      (E1 & E2 & _ & pool & tbl & t & Hl & ->)]];
    try discriminate.
  destruct (insert_batch_loop_as_inserts clk (max_nodes s) (freed s)
              (numa_pool s) (pool_index s) batch 0 (node_pool s) (midpoints s) (ticks s)
              (total_nodes s) pool tbl t Hp ltac:(lia) Ht Hm E1 ltac:(lia) Hl)
    as (rs & Hr & Hlen).
  rewrite Z.add_0_r in Hr. destruct s as [mp mx tot np pi tk fr nm].
  cbn [max_nodes total_nodes pool_index ticks node_pool midpoints freed
         numa_pool] in *.
  eexists rs, _. split; [exact Hr|]. split; [exact Hlen|].
  cbn [max_nodes total_nodes pool_index ticks node_pool midpoints freed
         numa_pool].
  auto 10.
Qed.

(** A batch of three records under one key on a fresh cache of capacity 20,
    whose buckets hold two nodes each. *)
Lemma accepted_batch_as_inserts_witness :
  exists s1,
    insert_batch (fun t => Z.of_N t)
      [(100%float, "AAPL", 1, 60%float); (101%float, "AAPL", 3, 60%float);
       (100.5%float, "AAPL", 2, 60%float)]
      (RadialCircularList_new false (fun t => Z.of_N t) 20) = Ret (true, s1) /\
    exists rs s2,
      run (fun t => Z.of_N t)
        (inserts_of
           [(100%float, "AAPL", 1, 60%float); (101%float, "AAPL", 3, 60%float);
            (100.5%float, "AAPL", 2, 60%float)])
        (RadialCircularList_new false (fun t => Z.of_N t) 20) = Ret (rs, s2) /\
      length rs = 3%nat /\
      midpoints s2 = midpoints s1 /\ node_pool s2 = node_pool s1 /\
      pool_index s2 = pool_index s1 /\ ticks s2 = ticks s1 /\
      freed s2 = freed s1 /\ max_nodes s2 = max_nodes s1 /\
      total_nodes s2 = 0 + successes rs /\
      total_nodes s1 = 0 + Z.of_nat 3.
Proof.
  eexists. split; [vm_compute; reflexivity|].
  eapply (accepted_batch_as_inserts (fun t => Z.of_N t)
            [(100%float, "AAPL", 1, 60%float); (101%float, "AAPL", 3, 60%float);
             (100.5%float, "AAPL", 2, 60%float)]
            (RadialCircularList_new false (fun t => Z.of_N t) 20)).
  - cbn. lia.
  - cbn. lia.
  - cbn. lia.
  - cbn. lia.
  - cbn. lia.
  - vm_compute. reflexivity.
Defined.

(** ** The destructor of the key index *)

Lemma join_insert_cons_perm {A} (l : list (list A)) :
  forall (i : nat) (chain : list A) (x : A),
    l !! i = Some chain -> mjoin (<[i := x :: chain]> l) ≡ₚ x :: mjoin l.
Proof.
  induction l as [|c l IH]; intros i chain x Hc; [inversion Hc|].
  destruct i as [|i].
  - cbn in Hc. injection Hc as ->. reflexivity.
  - cbn in Hc.
    change (mjoin (<[S i := x :: chain]> (c :: l)))
      with (c ++ mjoin (<[i := x :: chain]> l)).
    change (mjoin (c :: l)) with (c ++ mjoin l).
    rewrite (IH i chain x Hc). solve_Permutation.
Qed.

Lemma delete_values_once (n : nat) (chain : list BucketNode) :
  forall deleted,
    NoDup (deleted ++ (bn_value <$> chain)) ->
    (forall b, b ∈ chain -> (bn_value b < n)%nat) ->
    delete_values n chain deleted = Ret (deleted ++ (bn_value <$> chain)).
Proof.
  induction chain as [|b chain IH]; intros deleted Hnd Hlt.
  - cbn. rewrite app_nil_r. reflexivity.
  - cbn [delete_values fmap list_fmap]. rewrite decide_True by (apply Hlt; left).
    unfold delete_node.
    change (bn_value <$> b :: chain) with (bn_value b :: (bn_value <$> chain))
      in Hnd.
    apply NoDup_app in Hnd as Hnd'. destruct Hnd' as (_ & Hdisj & _).
    rewrite decide_False.
    2:{ intros Hy. apply (Hdisj _ Hy). left. }
    cbn [mbind outcome_bind]. rewrite IH.
    + rewrite <- app_assoc. reflexivity.
    + rewrite <- app_assoc. exact Hnd.
    + intros b' Hb'. apply Hlt. right. exact Hb'.
Qed.

(** The bucket nodes of the index own the [MidpointNode]s allocated, one
    each. *)
Lemma run_owned_midpoints (clk : N -> Z) (max : Z) (ops : list op) :
  0 <= max < 2 ^ 64 -> valid_ops ops = true -> total_demand ops < 2 ^ 64 ->
  exists rs s,
    run clk ops (RadialCircularList_new false clk max) = Ret (rs, s) /\
    cache_inv clk ops (all_returned rs) s /\
    bn_value <$> table_nodes (midpoints s)
      ≡ₚ seq 0 (length (mid_store (midpoints s))).
Proof.
  intros Hmax Hvalid Hwrap.
  apply (run_table_invariant clk
           (fun _ _ tbl =>
              bn_value <$> table_nodes tbl ≡ₚ seq 0 (length (mid_store tbl))));
    try assumption.
  - auto.
  - intros hist R cap pool tbl bound t index v k p e pool' q tbl1 ok tbl2
      _ HQ _ _ _ _ _ Hg Ha.
    destruct (add_node_at_inv _ _ _ _ _ _ Ha) as (m & h' & _ & _ & ->).
    unfold table_nodes. cbn [buckets mid_store]. rewrite length_insert.
    destruct (get_or_create_inv _ _ _ _ _ Hg)
      as (chain & Hc & [[_ ->]|(_ & -> & ->)]); [exact HQ|].
    cbn [buckets mid_store]. rewrite length_app. cbn [length].
    rewrite Nat.add_1_r, seq_S. cbn [Nat.add].
    rewrite (join_insert_cons_perm _ _ _ _ Hc). cbn [fmap list_fmap].
    change (bn_value <$> mjoin (buckets tbl))
      with (bn_value <$> table_nodes tbl).
    rewrite HQ. cbn [bn_value]. solve_Permutation.
  - intros hist R cap pool tbl bound k p m numa t r m' t' del _ HQ _ _ _.
    unfold table_nodes. cbn [buckets mid_store]. rewrite length_insert.
    exact HQ.
  - reflexivity.
Qed.

(** X22: after any sequence of calls on a cache built without NUMA, the
    destructor of the key index follows
    only pointers to [MidpointNode]s that are allocated and deletes every
    [MidpointNode] the index has allocated, once. *)
Theorem index_destructor_deletes_once (clk : N -> Z) (max : Z)
    (ops : list op) :
  0 <= max < 2 ^ 64 -> valid_ops ops = true -> total_demand ops < 2 ^ 64 ->
  exists rs s d,
    run clk ops (RadialCircularList_new false clk max) = Ret (rs, s) /\
    LockFreeHashTable_destroy (midpoints s) = Ret d /\
    d ≡ₚ seq 0 (length (mid_store (midpoints s))).
Proof.
  intros Hmax Hvalid Hwrap.
  destruct (run_owned_midpoints clk max ops Hmax Hvalid Hwrap)
    as (rs & s & Hrun & Hinv & Hown).
  exists rs, s, (bn_value <$> table_nodes (midpoints s)).
  split; [exact Hrun|]. split; [|exact Hown].
  unfold LockFreeHashTable_destroy. rewrite delete_values_once; cbn [app].
  - reflexivity.
  - rewrite Hown. apply NoDup_seq.
  - pose proof (core_table _ _ _ _ _ _ _ (inv_core _ _ _ _ Hinv))
      as (_ & _ & Hptr & _).
    exact Hptr.
Qed.

Lemma index_destructor_deletes_once_witness :
  exists rs s d,
    run (fun t => Z.of_N t)
      [Insert 100 "AAPL" 1 60; Insert 7 "MSFT" 9 60;
       InsertBatch [(101%float, "AAPL", 3, 60%float);
                    (102%float, "GOOG", 4, 60%float)];
       GetHighestPriority "AAPL"]
      (RadialCircularList_new false (fun t => Z.of_N t) 30) = Ret (rs, s) /\
    LockFreeHashTable_destroy (midpoints s) = Ret d /\
    d ≡ₚ seq 0 (length (mid_store (midpoints s))).
Proof.
  apply (index_destructor_deletes_once (fun t => Z.of_N t) 30).
  - lia.
  - reflexivity.
  - reflexivity.
Defined.

(** ** The cache built with NUMA *)


(** X24: the cache built with NUMA.  Its nodes are [numa_alloc_onnode]
    memory, and [get_highest_priority_node] hands an expired node to
    [delete].  A sequence of calls on this cache returns what it returns on
    the cache built without NUMA, and ends in the same state, as long as no
    retrieval meets an expired node; as soon as one does, the sequence is
    undefined. *)
Theorem numa_pool_delete_undefined (clk : N -> Z) (max : Z)
    (ops : list op) :
  0 <= max < 2 ^ 64 -> valid_ops ops = true -> total_demand ops < 2 ^ 64 ->
  exists rs s,
    run clk ops (RadialCircularList_new false clk max) = Ret (rs, s) /\
    (freed s = [] ->
       run clk ops (RadialCircularList_new true clk max)
       = Ret (rs, with_numa true s)) /\
    (freed s <> [] ->
       run clk ops (RadialCircularList_new true clk max) = UB).
Proof.
  intros Hmax Hvalid Hwrap.
  destruct (run_spec clk ops [] [] _ (new_cache_inv clk max Hmax) Hvalid)
    as (rs & s & Hrun & _).
  { change (total_demand []) with 0. lia. }
  exists rs, s. split; [exact Hrun|].
  destruct (run_with_numa clk ops (RadialCircularList_new false clk max)
              rs s eq_refl Hrun) as (del & Hf & Hs & Hu).
  change (freed s = del) in Hf. rewrite Hf.
  split; [exact Hs|exact Hu].
Qed.

(** One insert and one retrieval, 100 s later on the clock, of a record that
    lives 60 s. *)
Lemma numa_pool_delete_undefined_witness :
  exists rs s,
    run (fun t => Z.of_N t * 100000000000)
      [Insert 100 "AAPL" 1 60; GetHighestPriority "AAPL"]
      (RadialCircularList_new false (fun t => Z.of_N t * 100000000000) 10)
    = Ret (rs, s) /\
    (freed s = [] ->
       run (fun t => Z.of_N t * 100000000000)
         [Insert 100 "AAPL" 1 60; GetHighestPriority "AAPL"]
         (RadialCircularList_new true (fun t => Z.of_N t * 100000000000) 10)
       = Ret (rs, with_numa true s)) /\
    (freed s <> [] ->
       run (fun t => Z.of_N t * 100000000000)
         [Insert 100 "AAPL" 1 60; GetHighestPriority "AAPL"]
         (RadialCircularList_new true (fun t => Z.of_N t * 100000000000) 10)
       = UB).
Proof.
  apply (numa_pool_delete_undefined (fun t => Z.of_N t * 100000000000) 10
           [Insert 100 "AAPL" 1 60; GetHighestPriority "AAPL"]).
  - lia.
  - reflexivity.
  - reflexivity.
Defined.

(** The same two calls, evaluated: without NUMA the retrieval deletes the
    node and returns a null pointer; with NUMA it is undefined. *)
Lemma numa_retrieval_of_expired_record :
  (exists s,
     run (fun t => Z.of_N t * 100000000000)
       [Insert 100 "AAPL" 1 60; GetHighestPriority "AAPL"]
       (RadialCircularList_new false (fun t => Z.of_N t * 100000000000) 10)
     = Ret ([RBool true; RNode None], s) /\ freed s = [0%nat]) /\
  run (fun t => Z.of_N t * 100000000000)
    [Insert 100 "AAPL" 1 60; GetHighestPriority "AAPL"]
    (RadialCircularList_new true (fun t => Z.of_N t * 100000000000) 10)
  = UB.
Proof.
  split; [eexists; split; vm_compute; reflexivity|].
  vm_compute. reflexivity.
Qed.
